(** * pdpipedag: the materialisation store and the lock managers

    A shallow embedding of [pdpipedag/backend/core.py] and
    [pdpipedag/backend/lock.py].

    Conventions.
    - A Python [str] is a [string] holding the UTF-8 bytes of the text, so
      that [s.encode('utf8')] is the list of bytes of the string.
    - A [dict] with hashable keys that is only used as a map is a [gmap];
      a [set] is a [gset].
    - A method that mutates [self] and may raise is a function
      [state -> (exn + result) * state]: the state reached when the
      exception leaves the method is part of the outcome, because Python
      does not roll anything back. *)

From Stdlib Require Import ZArith Ascii String List DecimalN DecimalPos DecimalFacts.
From stdpp Require Import gmap strings list fin_maps sorting.

Local Open Scope string_scope.
Local Open Scope list_scope.
Local Set Warnings "-register-all".

(** ** Exceptions *)

Module Schema.
(** [pdpipedag.core.schema.Schema]: the two names the store uses. *)
Record t := mk { name : string; working_name : string }.

Global Instance eq_dec : EqDecision t.
Proof. solve_decision. Defined.

Global Instance countable : Countable t :=
  inj_countable' (λ s, (name s, working_name s)) (λ p, mk p.1 p.2)
                 (λ s, match s with mk _ _ => eq_refl end).
End Schema.

(** [Lockable = Union[Schema, str]] *)
Inductive Lockable :=
| LSchema (s : Schema.t)
| LStr (s : string).

Global Instance Lockable_eq_dec : EqDecision Lockable.
Proof. solve_decision. Defined.

Global Instance Lockable_countable : Countable Lockable :=
  inj_countable' (λ l, match l with LSchema s => inl s | LStr s => inr s end)
                 (λ x, match x with inl s => LSchema s | inr s => LStr s end)
                 (λ l, match l with LSchema _ | LStr _ => eq_refl end).

(** What a [LockError] reports. The message text interpolates [str(lock)],
    which for a [Schema] is not fixed by the sources, so the exception
    carries the lockable itself. *)
Inductive lock_failure := NoLockFound | FailedToAcquire.

Inductive exn :=
| SchemaError (msg : string)
| LockError (why : lock_failure) (lock : Lockable)
| AssertionError
| KeyError (key : string)
| ValueError (msg : string)
| TypeError (msg : string)
| NotImplementedError
| AttributeError (msg : string)
| JSONDecodeError (msg : string)          (* a subclass of [ValueError] *)
| RecursionError
| BackendError (msg : string).   (* raised by a collaborator behind an interface *)

Global Instance lock_failure_eq_dec : EqDecision lock_failure.
Proof. solve_decision. Defined.
Global Instance exn_eq_dec : EqDecision exn.
Proof. solve_decision. Defined.

(** ** A state-and-exception monad *)

Definition M (S A : Type) : Type := S → (exn + A) * S.

Definition ret {S A} (a : A) : M S A := λ s, (inr a, s).
Definition raise {S A} (e : exn) : M S A := λ s, (inl e, s).
Definition bind {S A B} (c : M S A) (k : A → M S B) : M S B :=
  λ s, match c s with
       | (inr a, s') => k a s'
       | (inl e, s') => (inl e, s')
       end.
Definition get {S} : M S S := λ s, (inr s, s).
Definition put {S} (s : S) : M S unit := λ _, (inr tt, s).
Definition modify {S} (f : S → S) : M S unit := λ s, (inr tt, f s).

Notation "'do' x <- c ; k" := (bind c (λ x, k))
  (at level 10, x name, c at level 99, k at level 200).
Notation "c ;; k" := (bind c (λ _, k))
  (at level 100, k at level 200, right associativity).

(** Run [c] on a component of the state, given a lens on it. *)
Definition zoom {S T A} (proj : S → T) (upd : T → S → S) (c : M T A) : M S A :=
  λ s, let '(r, t) := c (proj s) in (r, upd t s).

(** ** Lock states and the base lock manager ([lock.py]) *)

Inductive LockState := UNLOCKED | LOCKED | UNCERTAIN | INVALID.

Global Instance LockState_eq_dec : EqDecision LockState.
Proof. solve_decision. Defined.

(** A listener is a callable; the model keeps its identity and records the
    calls it receives. [delivered] is the trace of all listener calls made
    by the manager, oldest first: [(f, (lock, old, new))] stands for the
    call [f(lock, old, new)]. *)
Definition listener := nat.
Definition transition : Type := Lockable * LockState * LockState.

Module BaseLockManager.
Record t := mk {
  state_listeners : gset listener;
  lock_states : gmap Lockable LockState;   (* defaultdict(lambda: UNLOCKED) *)
  delivered : list (listener * transition);
}.

Definition init : t := mk ∅ ∅ [].

Definition with_states (f : gmap Lockable LockState → gmap Lockable LockState)
    (m : t) : t :=
  mk (state_listeners m) (f (lock_states m)) (delivered m).

(** [for listener in self.state_listeners: listener(lock, old, new)] *)
Definition broadcast (lock : Lockable) (old new : LockState) (m : t) : t :=
  mk (state_listeners m) (lock_states m)
     (delivered m ++
      ((λ f, (f, (lock, old, new))) <$> elements (state_listeners m))).

(** The argument of [add_lock_state_listener] is any object. *)
Inductive listener_arg := Callable (f : listener) | NotCallable.

Definition add_lock_state_listener (a : listener_arg) : M t unit :=
  match a with
  | NotCallable => raise (ValueError "Listener must be callable.")
  | Callable f =>
      modify (λ m, mk ({[f]} ∪ state_listeners m) (lock_states m) (delivered m))
  end.

(** [set.remove] raises [KeyError] on a missing element. *)
Definition remove_lock_state_listener (f : listener) : M t unit :=
  do m <- get;
  if decide (f ∈ state_listeners m)
  then put (mk (state_listeners m ∖ {[f]}) (lock_states m) (delivered m))
  else raise (KeyError "listener").

Definition set_lock_state (lock : Lockable) (new_state : LockState) (m : t) : t :=
  let m1 :=
    match lock_states m !! lock with
    | None =>
        broadcast lock UNLOCKED new_state
          (with_states (insert lock new_state) m)
    | Some old_state =>
        let m' := with_states (insert lock new_state) m in
        if decide (old_state ≠ new_state)
        then broadcast lock old_state new_state m'
        else m'
    end in
  if decide (new_state = UNLOCKED)
  then with_states (delete lock) m1
  else m1.

(** [return self.lock_states[lock]] on a [defaultdict]: a missing key is
    inserted with the default before it is returned. *)
Definition get_lock_state (lock : Lockable) : M t LockState :=
  do m <- get;
  match lock_states m !! lock with
  | Some s => ret s
  | None => put (with_states (insert lock UNLOCKED) m);; ret UNLOCKED
  end.

(** The calls one listener has received. *)
Definition heard (f : listener) (m : t) : list transition :=
  snd <$> filter (λ c, c.1 = f) (delivered m).
End BaseLockManager.

Module NoLockManager.
Import BaseLockManager.

Definition acquire (lock : Lockable) : M t unit :=
  modify (set_lock_state lock LOCKED).

Definition release (lock : Lockable) : M t unit :=
  modify (set_lock_state lock UNLOCKED).

Inductive call :=
| Acquire (lock : Lockable)
| Release (lock : Lockable)
| AddListener (a : listener_arg)
| RemoveListener (f : listener)
| GetState (lock : Lockable).

(** The state a call leaves behind, whether it returns or raises. *)
Definition exec (c : call) (m : t) : t :=
  match c with
  | Acquire l => snd (acquire l m)
  | Release l => snd (release l m)
  | AddListener a => snd (add_lock_state_listener a m)
  | RemoveListener f => snd (remove_lock_state_listener f m)
  | GetState l => snd (get_lock_state l m)
  end.

Definition run (cs : list call) (m : t) : t := foldl (λ m c, exec c m) m cs.
End NoLockManager.

(** [os.path.join(a, b)] on POSIX, for two components. *)
Definition os_path_join (a b : string) : string :=
  match b with
  | String "/" _ => b
  | _ => if decide (a = "") then b
         else match String.get (String.length a - 1) a with
              | Some "/"%char => a +:+ b
              | _ => a +:+ "/" +:+ b
              end
  end.

(** [os.path.isabs(p)] on POSIX *)
Definition is_absolute (p : string) : bool :=
  match p with String "/" _ => true | _ => false end.

(** [path.split('/')] *)
Fixpoint split_slash (path : string) : list string :=
  match path with
  | EmptyString => [EmptyString]
  | String c r =>
      if decide (c = "/"%char) then EmptyString :: split_slash r
      else match split_slash r with
           | comp :: comps => String c comp :: comps
           | [] => [String c EmptyString]
           end
  end.

(** [os.path.normpath(path)] on POSIX: empty components and single dots
    are dropped, a double dot cancels the component before it, and two
    leading slashes, but not three, are kept. *)
Definition normpath (path : string) : string :=
  let initial_slashes : nat :=
    match path with
    | String "/" (String "/" (String "/" _)) => 1
    | String "/" (String "/" _) => 2
    | String "/" _ => 1
    | _ => 0
    end in
  let step (new_comps : list string) (comp : string) : list string :=
    if decide (comp = "" ∨ comp = ".") then new_comps
    else if decide (comp ≠ ".."
                    ∨ (initial_slashes = 0%nat ∧ new_comps = [])
                    ∨ last new_comps = Some "..")
         then new_comps ++ [comp]
         else removelast new_comps in
  let body := String.concat "/" (foldl step [] (split_slash path)) in
  let path' :=
    match initial_slashes with
    | O => body
    | S O => "/" +:+ body
    | _ => "//" +:+ body
    end in
  if decide (path' = "") then "." else path'.

(** [os.path.abspath(path)] in the working directory [cwd], which is what
    [os.getcwd()] returns. *)
Definition abspath (cwd path : string) : string :=
  normpath (if is_absolute path then path else os_path_join cwd path).

Module FileLockManager.
(** [filelock.FileLock] as the manager uses it: the path of the lock file
    and the re-entrant hold counter; [is_locked] is [counter > 0]. *)
Record FileLock := mkFileLock { lock_file : string; lock_counter : nat }.

(** What [f_lock.acquire()] does for a lock that is not held, as the
    file system and the other processes decide: it takes the lock, which
    creates the lock file; or it raises [e], for instance a timeout or an
    [OSError], with the lock file created or not, and the hold counter as
    it was. The call is modelled at the point where it returns or
    raises. *)
Inductive attempt := Granted | Refused (e : exn) (created : bool).

Definition is_locked (f : FileLock) : bool := bool_decide (0 < lock_counter f).
Definition fl_acquire (f : FileLock) : FileLock :=
  mkFileLock (lock_file f) (S (lock_counter f)).
Definition fl_release (f : FileLock) : FileLock :=
  mkFileLock (lock_file f) (pred (lock_counter f)).

Record t := mk {
  base : BaseLockManager.t;
  base_path : string;
  locks : gmap Lockable FileLock;
  files : gset string;                (* the lock files on disk *)
}.

(** [os.makedirs] is left out: directories are not modelled. *)
Definition init (cwd base_path : string) : t :=
  mk BaseLockManager.init (abspath cwd base_path) ∅ ∅.

Definition lock_path (m : t) (lock : Lockable) : string :=
  match lock with
  | LSchema s => os_path_join (base_path m) (Schema.name s +:+ ".lock")
  | LStr s => os_path_join (base_path m) (s +:+ ".lock")
  end.

(** The lock is put into [self.locks] before [f_lock.acquire()] is
    called, and stays there when the call raises. A lock that is held
    already is taken once more without asking the file system. *)
Definition acquire (lock : Lockable) (a : attempt) : M t unit :=
  do m <- get;
  let locks1 :=
    match locks m !! lock with
    | None => <[lock := mkFileLock (lock_path m lock) 0]> (locks m)
    | Some _ => locks m
    end in
  match locks1 !! lock with
  | None => raise (KeyError "lock")
  | Some f_lock =>
      match (if is_locked f_lock then Granted else a) with
      | Granted =>
          put (mk (BaseLockManager.set_lock_state lock LOCKED (base m))
                  (base_path m)
                  (<[lock := fl_acquire f_lock]> locks1)
                  ({[lock_file f_lock]} ∪ files m))
      | Refused e created =>
          put (mk (base m) (base_path m) locks1
                  (if created then {[lock_file f_lock]} ∪ files m else files m));;
          raise e
      end
  end.

Definition release (lock : Lockable) : M t unit :=
  do m <- get;
  match locks m !! lock with
  | None => raise (LockError NoLockFound lock)
  | Some f_lock =>
      let f_lock' := fl_release f_lock in
      let m1 := mk (base m) (base_path m) (<[lock := f_lock']> (locks m)) (files m) in
      put m1;;
      if is_locked f_lock' then ret tt
      else if decide (lock_file f_lock' ∈ files m1) then
        put (mk (BaseLockManager.set_lock_state lock UNLOCKED (base m1))
                (base_path m1)
                (delete lock (locks m1))
                (files m1 ∖ {[lock_file f_lock']}))
      else raise (BackendError "FileNotFoundError")
  end.

Inductive call :=
| Acquire (lock : Lockable) (a : attempt)
| Release (lock : Lockable)
| AddListener (a : BaseLockManager.listener_arg)
| RemoveListener (f : listener)
| GetState (lock : Lockable).

Definition on_base {A} (c : M BaseLockManager.t A) : M t A :=
  zoom base (λ b m, mk b (base_path m) (locks m) (files m)) c.

(** The state a call leaves behind, whether it returns or raises. *)
Definition exec (c : call) (m : t) : t :=
  match c with
  | Acquire l a => snd (acquire l a m)
  | Release l => snd (release l m)
  | AddListener a => snd (on_base (BaseLockManager.add_lock_state_listener a) m)
  | RemoveListener f => snd (on_base (BaseLockManager.remove_lock_state_listener f) m)
  | GetState l => snd (on_base (BaseLockManager.get_lock_state l) m)
  end.

Definition run (cs : list call) (m : t) : t := foldl (λ m c, exec c m) m cs.

(** A call of [acquire(lock)], whether it returns or raises. *)
Definition acquires (lock : Lockable) (c : call) : bool :=
  match c with Acquire l _ => bool_decide (l = lock) | _ => false end.


End FileLockManager.

(** ** A [dict] in the order of insertion

    Python's [dict] hands out its keys in the order in which they were
    first inserted: assigning to a key that is present keeps its place, and
    a key that was deleted and is inserted again goes to the end. *)
Module ODict.
Record t (K V : Type) := mk { items : list (K * V) }.
Arguments mk {K V}.
Arguments items {K V}.

Section Ops.
Context {K V : Type} `{EqDecision K}.

Fixpoint get_items (k : K) (l : list (K * V)) : option V :=
  match l with
  | [] => None
  | (k', v) :: l' => if decide (k' = k) then Some v else get_items k l'
  end.

Fixpoint set_items (k : K) (v : V) (l : list (K * V)) : list (K * V) :=
  match l with
  | [] => [(k, v)]
  | (k', w) :: l' =>
      if decide (k' = k) then (k', v) :: l' else (k', w) :: set_items k v l'
  end.

Definition del_items (k : K) (l : list (K * V)) : list (K * V) :=
  filter (λ kv, kv.1 ≠ k) l.

(** [d.keys()] *)
Definition keys (d : t K V) : list K := (items d).*1.

(** [d[k]], [d[k] = v], [del d[k]] and [{}] *)
Global Instance odict_lookup : Lookup K V (t K V) :=
  λ k d, get_items k (items d).
Global Instance odict_insert : Insert K V (t K V) :=
  λ k v d, mk (set_items k v (items d)).
Global Instance odict_delete : Delete K (t K V) :=
  λ k d, mk (del_items k (items d)).
Global Instance odict_empty : Empty (t K V) := mk [].
End Ops.
End ODict.

Module ZooKeeperLockManager.
(** [kazoo.recipe.lock.Lock] as the manager uses it: the node path. *)
Record KazooLock := mkKazooLock { path : string }.

Inductive KazooState := SUSPENDED | LOST | CONNECTED.

Record t := mk {
  base : BaseLockManager.t;
  locks : ODict.t Lockable KazooLock;
}.

Definition init : t := mk BaseLockManager.init ∅.

Definition base_path : string := "/pipedag/locks/".

Definition lock_path (lock : Lockable) : string :=
  match lock with
  | LSchema s => base_path +:+ Schema.name s
  | LStr s => base_path +:+ s
  end.

(** [granted] is what the coordinator answers to [zk_lock.acquire()]. *)
Definition acquire (lock : Lockable) (granted : bool) : M t unit :=
  let zk_lock := mkKazooLock (lock_path lock) in
  if negb granted then raise (LockError FailedToAcquire lock)
  else
    modify (λ m, mk (BaseLockManager.set_lock_state lock LOCKED (base m))
                    (<[lock := zk_lock]> (locks m))).

Definition release (lock : Lockable) : M t unit :=
  do m <- get;
  match locks m !! lock with
  | None => raise (LockError NoLockFound lock)
  | Some _ =>
      put (mk (BaseLockManager.set_lock_state lock UNLOCKED (base m))
              (delete lock (locks m)))
  end.

(** [for lock in self.locks.keys(): self.set_lock_state(lock, new_state)] *)
Definition set_all (new_state : LockState) (m : t) : t :=
  mk (foldl (λ b lock, BaseLockManager.set_lock_state lock new_state b)
            (base m) (ODict.keys (locks m)))
     (locks m).

Definition _lock_listener (state : KazooState) (m : t) : t :=
  match state with
  | SUSPENDED => set_all UNCERTAIN m
  | LOST => set_all INVALID m
  | CONNECTED => set_all LOCKED m
  end.

Inductive call :=
| Acquire (lock : Lockable) (granted : bool)
| Release (lock : Lockable)
| Session (state : KazooState)
| AddListener (a : BaseLockManager.listener_arg)
| RemoveListener (f : listener)
| GetState (lock : Lockable).

Definition on_base {A} (c : M BaseLockManager.t A) : M t A :=
  zoom base (λ b m, mk b (locks m)) c.

Definition exec (c : call) (m : t) : t :=
  match c with
  | Acquire l g => snd (acquire l g m)
  | Release l => snd (release l m)
  | Session k => _lock_listener k m
  | AddListener a => snd (on_base (BaseLockManager.add_lock_state_listener a) m)
  | RemoveListener f => snd (on_base (BaseLockManager.remove_lock_state_listener f) m)
  | GetState l => snd (on_base (BaseLockManager.get_lock_state l) m)
  end.

Definition run (cs : list call) (m : t) : t := foldl (λ m c, exec c m) m cs.

Definition acquires (lock : Lockable) (c : call) : bool :=
  match c with Acquire l true => bool_decide (l = lock) | _ => false end.
End ZooKeeperLockManager.

(** ** [hashlib.sha256]

    FIPS 180-4 over bytes; a 32-bit word is an [N] below [2^32], with the
    wrap-around of additions written out. *)

Module SHA256.
Local Open Scope N_scope.

Definition word := N.
Definition wrap (x : N) : word := x mod 0x100000000.
Definition add (x y : word) : word := wrap (x + y).
Definition rotr (n : N) (x : word) : word :=
  wrap (N.lor (N.shiftr x n) (N.shiftl x (32 - n))).
Definition shr (n : N) (x : word) : word := N.shiftr x n.
Definition not32 (x : word) : word := N.lxor x 0xFFFFFFFF.

Definition Ch (x y z : word) := N.lxor (N.land x y) (N.land (not32 x) z).
Definition Maj (x y z : word) :=
  N.lxor (N.lxor (N.land x y) (N.land x z)) (N.land y z).
Definition Sigma0 x := N.lxor (N.lxor (rotr 2 x) (rotr 13 x)) (rotr 22 x).
Definition Sigma1 x := N.lxor (N.lxor (rotr 6 x) (rotr 11 x)) (rotr 25 x).
Definition sigma0 x := N.lxor (N.lxor (rotr 7 x) (rotr 18 x)) (shr 3 x).
Definition sigma1 x := N.lxor (N.lxor (rotr 17 x) (rotr 19 x)) (shr 10 x).

(** The constants are defined as in the standard: the first 32 bits of
    the fractional parts of the square roots (initial hash value) and of
    the cube roots (round constants) of the first primes. *)
Definition is_prime (n : N) : bool :=
  (1 <? n) && forallb (λ d, negb (n mod d =? 0))
                      (N.of_nat <$> seq 2 (N.to_nat n - 2)).

Definition primes (count : nat) : list N :=
  take count (filter (λ n, is_prime n = true) (N.of_nat <$> seq 2 310)).

(** The integer cube root of [n], found bit by bit below [2^bits]. *)
Fixpoint cube_root (bits : nat) (n acc : N) : N :=
  match bits with
  | O => acc
  | S b =>
      let candidate := acc + 2 ^ N.of_nat b in
      if candidate * candidate * candidate <=? n
      then cube_root b n candidate
      else cube_root b n acc
  end.

Definition K : list word :=
  (λ p, wrap (cube_root 36 (p * 2 ^ 96) 0)) <$> primes 64.

Definition H0 : list word :=
  (λ p, wrap (N.sqrt (p * 2 ^ 64))) <$> primes 8.

(** Big-endian bytes of [x], [n] of them. *)
Fixpoint be_bytes (n : nat) (x : N) : list N :=
  match n with
  | O => []
  | S n' => be_bytes n' (x / 256) ++ [x mod 256]
  end.

Definition be_word (bs : list N) : word :=
  fold_left (λ acc b, acc * 256 + b) bs 0.

(** The message, the bit 1, zero bits up to 56 mod 64 bytes, and the bit
    length on 64 bits. *)
Definition pad (msg : list N) : list N :=
  let len := N.of_nat (length msg) in
  let zeros := N.to_nat ((119 - len mod 64) mod 64) in
  msg ++ [0x80] ++ repeat 0 zeros ++ be_bytes 8 (8 * len).

Fixpoint chunks (n : nat) (k : nat) (bs : list N) : list (list N) :=
  match n with
  | O => []
  | S n' => firstn k bs :: chunks n' k (skipn k bs)
  end.

Definition words_of_block (block : list N) : list word :=
  be_word <$> chunks 16 4 block.

(** The message schedule, most recent word first: from
    [W(t-1) .. W(t-16)] to [W(t) .. W(t-15)]. *)
Definition next_w (recent : list word) : word :=
  add (add (sigma1 (nth 1 recent 0)) (nth 6 recent 0))
      (add (sigma0 (nth 14 recent 0)) (nth 15 recent 0)).

Fixpoint extend (n : nat) (recent : list word) (acc : list word) : list word :=
  match n with
  | O => acc
  | S n' => let w := next_w recent in
            extend n' (w :: firstn 15 recent) (acc ++ [w])
  end.

Definition schedule (block : list N) : list word :=
  let w16 := words_of_block block in
  extend 48 (rev w16) w16.

Definition round (st : list word) (kw : word * word) : list word :=
  match st with
  | [a; b; c; d; e; f; g; h] =>
      let t1 := add (add (add (add h (Sigma1 e)) (Ch e f g)) (fst kw)) (snd kw) in
      let t2 := add (Sigma0 a) (Maj a b c) in
      [add t1 t2; a; b; c; add d t1; e; f; g]
  | _ => st
  end.

Definition compress (h : list word) (block : list N) : list word :=
  let st := fold_left round (combine K (schedule block)) h in
  zip_with add h st.

Definition digest (msg : list N) : list N :=
  let padded := pad msg in
  let blocks := chunks (length padded / 64) 64 padded in
  fold_left compress blocks H0 ≫= be_bytes 4.

Definition hex_digit (d : N) : ascii :=
  if d <? 10 then ascii_of_N (48 + d) else ascii_of_N (87 + d).

(** [hashlib.sha256(data).hexdigest()] *)
Definition hexdigest (data : list ascii) : string :=
  string_of_list_ascii
    (digest (N_of_ascii <$> data) ≫= λ b, [hex_digit (b / 16); hex_digit (b mod 16)]).
End SHA256.

(** ** Results of pure partial functions *)

Definition res (A : Type) : Type := exn + A.

Definition rbind {A B} (r : res A) (k : A → res B) : res B :=
  match r with inr a => k a | inl e => inl e end.

Notation "'let?' x := c 'in' k" := (rbind c (λ x, k))
  (at level 10, x name, c at level 99, k at level 200).

(** The results in order, or the first exception. *)
Fixpoint sequence {A} (rs : list (res A)) : res (list A) :=
  match rs with
  | [] => inr []
  | r :: rs' => let? a := r in let? l := sequence rs' in inr (a :: l)
  end.

(** ** Python values

    A tree of the JSON-compatible built-in types, with objects of some
    other type [L] at leaves: table objects by value, or references into a
    heap of table objects. A [dict] keeps its insertion order; its keys are
    strings. Lists and tuples are told apart: both are walked and encoded
    in the same way, but they are different values. *)

(** A float is represented by its decimal literal: sign, integer part,
    fraction digits and exponent, as [repr] prints it and as the JSON
    grammar reads it. Arithmetic on floats is not modelled. *)
Inductive exp_sign := ExpNoSign | ExpPlus | ExpMinus.

Inductive pyfloat :=
| Finite (neg : bool) (int : N) (frac : option Decimal.uint)
         (exp : option (exp_sign * Decimal.uint))
| NaN
| Infinity
| NegInfinity.

Global Instance uint_eq_dec : EqDecision Decimal.uint.
Proof. solve_decision. Defined.
Global Instance exp_sign_eq_dec : EqDecision exp_sign.
Proof. solve_decision. Defined.
Global Instance pyfloat_eq_dec : EqDecision pyfloat.
Proof. solve_decision. Defined.

Inductive tree (L : Type) : Type :=
| PNone
| PBool (b : bool)
| PInt (n : Z)
| PFloat (x : pyfloat)
| PStr (s : string)
| PList (xs : list (tree L))
| PTuple (xs : list (tree L))
| PDict (items : list (string * tree L))
| PObj (o : L).

Arguments PNone {L}.
Arguments PBool {L} b.
Arguments PInt {L} n.
Arguments PFloat {L} x.
Arguments PStr {L} s.
Arguments PList {L} xs.
Arguments PTuple {L} xs.
Arguments PDict {L} items.
Arguments PObj {L} o.

(** Induction on trees, with the hypothesis for every element of a list
    and every value of a dict. *)
Section TreeInd.
Context {L : Type} (P : tree L → Prop).
Hypothesis HNone : P PNone.
Hypothesis HBool : ∀ b, P (PBool b).
Hypothesis HInt : ∀ n, P (PInt n).
Hypothesis HFloat : ∀ x, P (PFloat x).
Hypothesis HStr : ∀ s, P (PStr s).
Hypothesis HList : ∀ xs, Forall P xs → P (PList xs).
Hypothesis HTuple : ∀ xs, Forall P xs → P (PTuple xs).
Hypothesis HDict : ∀ items, Forall (λ kv, P kv.2) items → P (PDict items).
Hypothesis HObj : ∀ o, P (PObj o).

Fixpoint tree_ind' (x : tree L) : P x :=
  match x with
  | PNone => HNone
  | PBool b => HBool b
  | PInt n => HInt n
  | PFloat f => HFloat f
  | PStr s => HStr s
  | PList xs =>
      HList xs ((fix go (l : list (tree L)) : Forall P l :=
                   match l with
                   | [] => List.Forall_nil P
                   | y :: l' => List.Forall_cons P y l' (tree_ind' y) (go l')
                   end) xs)
  | PTuple xs =>
      HTuple xs ((fix go (l : list (tree L)) : Forall P l :=
                    match l with
                    | [] => List.Forall_nil P
                    | y :: l' => List.Forall_cons P y l' (tree_ind' y) (go l')
                    end) xs)
  | PDict items =>
      HDict items
        ((fix go (l : list (string * tree L)) : Forall (λ kv, P kv.2) l :=
            match l with
            | [] => List.Forall_nil _
            | kv :: l' => List.Forall_cons _ kv l' (tree_ind' kv.2) (go l')
            end) items)
  | PObj o => HObj o
  end.
End TreeInd.

(** Plain JSON data: no objects of other types. *)
Abbreviation json := (tree Empty_set) (only parsing).

(** [d.get(key)] and [key in d] *)
Fixpoint dict_get {V} (key : string) (d : list (string * V)) : option V :=
  match d with
  | [] => None
  | (k, v) :: d' => if decide (k = key) then Some v else dict_get key d'
  end.

(** [d[key] = v]: an existing key keeps its position. *)
Fixpoint dict_set {V} (key : string) (v : V) (d : list (string * V)) : list (string * V) :=
  match d with
  | [] => [(key, v)]
  | (k, w) :: d' => if decide (k = key) then (k, v) :: d' else (k, w) :: dict_set key v d'
  end.

(** [dict(pairs)] *)
Definition dict_of_pairs {V} (pairs : list (string * V)) : list (string * V) :=
  foldl (λ d kv, dict_set kv.1 kv.2 d) [] pairs.

(** [sorted(items)] by key: a stable insertion sort on the byte order of
    the keys, which on UTF-8 is the order of the code points. *)
Fixpoint insert_by_key {V} (kv : string * V) (l : list (string * V)) : list (string * V) :=
  match l with
  | [] => [kv]
  | kv' :: l' =>
      if String.leb kv.1 kv'.1 then kv :: l else kv' :: insert_by_key kv l'
  end.

Definition sort_by_key {V} (l : list (string * V)) : list (string * V) :=
  foldr insert_by_key [] l.

(** ** Text *)

Abbreviation text := (list ascii) (only parsing).
Definition chars (s : string) : text := list_ascii_of_string s.

Definition dquote : ascii := ascii_of_nat 34.
Definition backslash : ascii := ascii_of_nat 92.

(** [sep.join(parts)] *)
Fixpoint join (sep : text) (parts : list text) : text :=
  match parts with
  | [] => []
  | [p] => p
  | p :: ps => p ++ sep ++ join sep ps
  end.

Definition digit_char (d : N) : ascii := ascii_of_N (48 + d).

Fixpoint digits_of_uint (u : Decimal.uint) : text :=
  match u with
  | Decimal.Nil => []
  | Decimal.D0 u => "0"%char :: digits_of_uint u
  | Decimal.D1 u => "1"%char :: digits_of_uint u
  | Decimal.D2 u => "2"%char :: digits_of_uint u
  | Decimal.D3 u => "3"%char :: digits_of_uint u
  | Decimal.D4 u => "4"%char :: digits_of_uint u
  | Decimal.D5 u => "5"%char :: digits_of_uint u
  | Decimal.D6 u => "6"%char :: digits_of_uint u
  | Decimal.D7 u => "7"%char :: digits_of_uint u
  | Decimal.D8 u => "8"%char :: digits_of_uint u
  | Decimal.D9 u => "9"%char :: digits_of_uint u
  end.

(** [int.__repr__] *)
Definition int_repr (n : Z) : text :=
  match n with
  | Z0 => chars "0"
  | Zpos p => digits_of_uint (Pos.to_uint p)
  | Zneg p => "-"%char :: digits_of_uint (Pos.to_uint p)
  end.

(** The conversions between [int] and [str] refuse more than
    [sys.int_max_str_digits] decimal digits, 4300 unless the limit is set
    otherwise; the sign does not count. *)
Definition int_max_str_digits : N := 4300.

(** What [str(n)] raises, and what [int(text)] raises for [digits]
    digits. *)
Definition exceeds_limit : exn :=
  ValueError ("Exceeds the limit (4300 digits) for integer string conversion"
              +:+ "; use sys.set_int_max_str_digits() to increase the limit").

Definition exceeds_limit_of (digits : nat) : exn :=
  ValueError ("Exceeds the limit (4300 digits) for integer string conversion"
              +:+ ": value has "
              +:+ string_of_list_ascii (digits_of_uint (Nat.to_uint digits))
              +:+ " digits; use sys.set_int_max_str_digits() to increase the limit").

Definition too_many_digits (ds : text) : bool :=
  (int_max_str_digits <? N.of_nat (length ds))%N.

(** [str(n)], as the encoder calls it *)
Definition int_str (n : Z) : res text :=
  if too_many_digits (digits_of_uint (N.to_uint (Z.abs_N n))) then inl exceeds_limit
  else inr (int_repr n).

(** [float.__repr__] of a finite float, from its literal. *)
Definition exp_sign_text (s : exp_sign) : text :=
  match s with ExpNoSign => [] | ExpPlus => chars "+" | ExpMinus => chars "-" end.

Definition finite_repr (neg : bool) (int : N) (frac : option Decimal.uint)
    (exp : option (exp_sign * Decimal.uint)) : text :=
  (if neg then chars "-" else []) ++ digits_of_uint (N.to_uint int) ++
  match frac with Some f => "."%char :: digits_of_uint f | None => [] end ++
  match exp with
  | Some (s, e) => "e"%char :: exp_sign_text s ++ digits_of_uint e
  | None => []
  end.

(** ** [json.JSONEncoder(ensure_ascii=False, allow_nan=False,
       separators=(',', ':'), sort_keys=True, default=...)]

    The recursion limit of the interpreter, at which the encoder raises
    [RecursionError] for a value nested some thousand levels deep, is left
    out: it depends on the depth of the call stack at the call. *)

Module JSONEncoder.
Definition hex_char (d : N) : ascii :=
  if (d <? 10)%N then ascii_of_N (48 + d) else ascii_of_N (87 + d).

(** [ESCAPE_DCT]: the replacement of one character. *)
Definition escape_char (c : ascii) : text :=
  let n := N_of_ascii c in
  if decide (c = dquote) then [backslash; dquote]
  else if decide (c = backslash) then [backslash; backslash]
  else if decide (n = 8%N) then [backslash; "b"%char]
  else if decide (n = 12%N) then [backslash; "f"%char]
  else if decide (n = 10%N) then [backslash; "n"%char]
  else if decide (n = 13%N) then [backslash; "r"%char]
  else if decide (n = 9%N) then [backslash; "t"%char]
  else if (n <? 32)%N then
    [backslash; "u"%char; "0"%char; "0"%char; hex_char (n / 16); hex_char (n mod 16)]
  else [c].

(** [encode_basestring] *)
Definition encode_basestring (s : string) : text :=
  dquote :: (chars s ≫= escape_char) ++ [dquote].

(** [floatstr] with [allow_nan=False] *)
Definition floatstr (x : pyfloat) : res text :=
  match x with
  | Finite neg int frac exp => inr (finite_repr neg int frac exp)
  | NaN =>
      inl (ValueError "Out of range float values are not JSON compliant: nan")
  | Infinity =>
      inl (ValueError "Out of range float values are not JSON compliant: inf")
  | NegInfinity =>
      inl (ValueError "Out of range float values are not JSON compliant: -inf")
  end.

Section Iterencode.
Context {L : Type}.
(** What the encoder does with an object it does not know: call
    [default] and encode what it returns. *)
Variable leaf : L → res text.

Definition encode_item (kr : string * res text) : res text :=
  let? t := kr.2 in inr (encode_basestring kr.1 ++ ":"%char :: t).

Fixpoint iterencode (o : tree L) : res text :=
  match o with
  | PNone => inr (chars "null")
  | PBool true => inr (chars "true")
  | PBool false => inr (chars "false")
  | PInt n => int_str n
  | PFloat x => floatstr x
  | PStr s => inr (encode_basestring s)
  | PList xs | PTuple xs =>
      let? parts := sequence (iterencode <$> xs) in
      inr ("["%char :: join (chars ",") parts ++ chars "]")
  | PDict items =>
      (* the items are visited in the order of their keys *)
      let encoded := (λ kv : string * tree L, (kv.1, iterencode kv.2)) <$> items in
      let? parts := sequence (encode_item <$> sort_by_key encoded) in
      inr ("{"%char :: join (chars ",") parts ++ chars "}")
  | PObj o => leaf o
  end.
End Iterencode.

Definition encode_json (j : json) : res text :=
  iterencode (λ e : Empty_set, match e with end) j.

(** [encoder.encode(o)] for an encoder whose [default] is [default]. *)
Definition encode {L} (default : L → res json) (o : tree L) : res string :=
  let? t := iterencode (λ x, let? j := default x in encode_json j) o in
  inr (string_of_list_ascii t).
End JSONEncoder.

(** ** [json.loads(s, object_hook=...)] *)

Module JSONDecoder.
Definition is_ws (c : ascii) : bool :=
  let n := N_of_ascii c in
  bool_decide (n = 32 ∨ n = 9 ∨ n = 10 ∨ n = 13)%N.

Fixpoint skip_ws (s : text) : text :=
  match s with
  | c :: r => if is_ws c then skip_ws r else s
  | [] => []
  end.

Definition is_digit (c : ascii) : bool :=
  let n := N_of_ascii c in (48 <=? n)%N && (n <=? 57)%N.

Fixpoint span_digits (s : text) : text * text :=
  match s with
  | c :: r =>
      if is_digit c then let '(ds, rest) := span_digits r in (c :: ds, rest)
      else ([], s)
  | [] => ([], [])
  end.

Definition cons_digit (c : ascii) (u : Decimal.uint) : Decimal.uint :=
  match N_of_ascii c with
  | 48 => Decimal.D0 u | 49 => Decimal.D1 u | 50 => Decimal.D2 u
  | 51 => Decimal.D3 u | 52 => Decimal.D4 u | 53 => Decimal.D5 u
  | 54 => Decimal.D6 u | 55 => Decimal.D7 u | 56 => Decimal.D8 u
  | _ => Decimal.D9 u
  end%N.

Definition uint_of_digits (ds : text) : Decimal.uint :=
  foldr cons_digit Decimal.Nil ds.

Definition hex_val (c : ascii) : option N :=
  let n := N_of_ascii c in
  if (48 <=? n)%N && (n <=? 57)%N then Some (n - 48)%N
  else if (97 <=? n)%N && (n <=? 102)%N then Some (n - 87)%N
  else if (65 <=? n)%N && (n <=? 70)%N then Some (n - 55)%N
  else None.

(** [_decode_uXXXX] *)
Definition hex4 (a b c d : ascii) : option N :=
  match hex_val a, hex_val b, hex_val c, hex_val d with
  | Some x, Some y, Some z, Some w => Some (((x * 16 + y) * 16 + z) * 16 + w)%N
  | _, _, _, _ => None
  end.

(** [chr(uni)] in the UTF-8 representation of strings. A lone surrogate,
    which a Python string can hold, gets the three bytes that the same
    bit pattern gives. *)
Definition chr (uni : N) : text :=
  (if uni <? 0x80 then [ascii_of_N uni]
   else if uni <? 0x800 then
     [ascii_of_N (0xC0 + uni / 64); ascii_of_N (0x80 + uni mod 64)]
   else if uni <? 0x10000 then
     [ascii_of_N (0xE0 + uni / 4096); ascii_of_N (0x80 + (uni / 64) mod 64);
      ascii_of_N (0x80 + uni mod 64)]
   else
     [ascii_of_N (0xF0 + uni / 262144); ascii_of_N (0x80 + (uni / 4096) mod 64);
      ascii_of_N (0x80 + (uni / 64) mod 64); ascii_of_N (0x80 + uni mod 64)])%N.

(** [BACKSLASH]: the one-character escapes. *)
Definition unescape (e : ascii) : option ascii :=
  if decide (e = dquote) then Some dquote
  else if decide (e = backslash) then Some backslash
  else match e with
       | "/" => Some "/" | "b" => Some (ascii_of_nat 8)
       | "f" => Some (ascii_of_nat 12) | "n" => Some (ascii_of_nat 10)
       | "r" => Some (ascii_of_nat 13) | "t" => Some (ascii_of_nat 9)
       | _ => None
       end%char.

Definition bad_u : exn := JSONDecodeError "Invalid \uXXXX escape".

(** [scanstring(s, end, strict=True)], from the character after the
    opening quote: the content and what follows the closing quote. *)
Fixpoint scanstring (s : text) : res (text * text) :=
  match s with
  | [] => inl (JSONDecodeError "Unterminated string starting at")
  | c :: r =>
      if decide (c = dquote) then inr ([], r)
      else if decide (c = backslash) then
        match r with
        | [] => inl (JSONDecodeError "Unterminated string starting at")
        | e :: r1 =>
            if decide (e = "u"%char) then
              match r1 with
              | a :: b :: c' :: d :: r2 =>
                  match hex4 a b c' d with
                  | None => inl bad_u
                  | Some uni =>
                      let single :=
                        let? p := scanstring r2 in inr (chr uni ++ p.1, p.2) in
                      if ((0xd800 <=? uni) && (uni <=? 0xdbff))%N then
                        match r2 with
                        | b1 :: u1 :: r3 =>
                            if decide (b1 = backslash ∧ u1 = "u"%char) then
                              match r3 with
                              | h1 :: h2 :: h3 :: h4 :: r4 =>
                                  match hex4 h1 h2 h3 h4 with
                                  | None => inl bad_u
                                  | Some uni2 =>
                                      if ((0xdc00 <=? uni2) && (uni2 <=? 0xdfff))%N then
                                        let? p := scanstring r4 in
                                        inr (chr (0x10000 +
                                                  ((uni - 0xd800) * 1024 + (uni2 - 0xdc00)))
                                             ++ p.1, p.2)
                                      else single
                                  end
                              | _ => inl bad_u
                              end
                            else single
                        | _ => single
                        end
                      else single
                  end
              | _ => inl bad_u
              end
            else
              match unescape e with
              | None => inl (JSONDecodeError "Invalid \escape")
              | Some x => let? p := scanstring r1 in inr (x :: p.1, p.2)
              end
        end
      else if (N_of_ascii c <? 32)%N then
        inl (JSONDecodeError "Invalid control character at")
      else let? p := scanstring r in inr (c :: p.1, p.2)
  end.

(** [NUMBER_RE.match] and the conversion of what it matched: an optional
    minus sign and either 0 or a digit from 1 to 9 followed by digits;
    then, optionally, a dot and at least one digit; then, optionally, e
    or E, an optional sign and at least one digit. *)
Definition scan_int_part (s : text) : option (text * text) :=
  match s with
  | c :: r =>
      if decide (c = "0"%char) then Some ([c], r)
      else if is_digit c then let '(ds, rest) := span_digits r in Some (c :: ds, rest)
      else None
  | [] => None
  end.

Definition scan_frac (s : text) : option text * text :=
  match s with
  | c :: r =>
      if decide (c = "."%char) then
        match span_digits r with
        | ([], _) => (None, s)
        | (ds, rest) => (Some ds, rest)
        end
      else (None, s)
  | [] => (None, s)
  end.

Definition scan_exp (s : text) : option (exp_sign * text) * text :=
  match s with
  | c :: r =>
      if decide (c = "e"%char ∨ c = "E"%char) then
        let '(sign, r') :=
          match r with
          | c' :: r' =>
              if decide (c' = "+"%char) then (ExpPlus, r')
              else if decide (c' = "-"%char) then (ExpMinus, r')
              else (ExpNoSign, r)
          | [] => (ExpNoSign, r)
          end in
        match span_digits r' with
        | ([], _) => (None, s)
        | (ds, rest) => (Some (sign, ds), rest)
        end
      else (None, s)
  | [] => (None, s)
  end.

Definition scan_number {L} (s : text) : option (res (tree L * text)) :=
  let '(neg, s1) :=
    match s with
    | c :: r => if decide (c = "-"%char) then (true, r) else (false, s)
    | [] => (false, s)
    end in
  match scan_int_part s1 with
  | None => None
  | Some (ids, s2) =>
      let int := N.of_uint (uint_of_digits ids) in
      let '(frac, s3) := scan_frac s2 in
      let '(exp, s4) := scan_exp s3 in
      match frac, exp with
      | None, None =>
          (* [int(text)] *)
          Some (if too_many_digits ids then inl (exceeds_limit_of (length ids))
                else inr (PInt (if neg then - Z.of_N int else Z.of_N int)%Z, s4))
      | _, _ =>
          Some (inr (PFloat (Finite neg int (uint_of_digits <$> frac)
                               (prod_map id uint_of_digits <$> exp)), s4))
      end
  end.

Fixpoint strip_prefix (p s : text) : option text :=
  match p, s with
  | [], _ => Some s
  | a :: p', b :: s' => if decide (a = b) then strip_prefix p' s' else None
  | _ :: _, [] => None
  end.

Definition expecting_value : exn := JSONDecodeError "Expecting value".

(** The literals, the numbers and the constants [NaN], [Infinity] and
    [-Infinity], in the order in which [scan_once] tries them. *)
Definition scan_atom {L} (s : text) : res (tree L * text) :=
  match strip_prefix (chars "null") s,
        strip_prefix (chars "true") s,
        strip_prefix (chars "false") s with
  | Some r, _, _ => inr (PNone, r)
  | _, Some r, _ => inr (PBool true, r)
  | _, _, Some r => inr (PBool false, r)
  | _, _, _ =>
      match scan_number s with
      | Some r => r
      | None =>
          match strip_prefix (chars "NaN") s,
                strip_prefix (chars "Infinity") s,
                strip_prefix (chars "-Infinity") s with
          | Some r, _, _ => inr (PFloat NaN, r)
          | _, Some r, _ => inr (PFloat Infinity, r)
          | _, _, Some r => inr (PFloat NegInfinity, r)
          | _, _, _ => inl expecting_value
          end
      end
  end.

Section ScanOnce.
Context {L : Type}.
Variable object_hook : list (string * tree L) → res (tree L).

(** [fuel] bounds the number of nested calls; [loads] gives more than
    the text can use. *)
Fixpoint scan_once (fuel : nat) (s : text) : res (tree L * text) :=
  match fuel with
  | O => inl RecursionError
  | S fuel' =>
      match s with
      | [] => inl expecting_value
      | c :: r =>
          if decide (c = dquote) then
            let? p := scanstring r in
            inr (PStr (string_of_list_ascii p.1), p.2)
          else if decide (c = "{"%char) then
            (* JSONObject *)
            let r := if decide (head r = Some dquote) then r else skip_ws r in
            match r with
            | c1 :: r1 =>
                if decide (c1 = "}"%char) then
                  let? o := object_hook [] in inr (o, r1)
                else if decide (c1 = dquote) then
                  let? p := members fuel' r1 in
                  let? o := object_hook (dict_of_pairs p.1) in
                  inr (o, p.2)
                else inl (JSONDecodeError
                            "Expecting property name enclosed in double quotes")
            | [] => inl (JSONDecodeError
                           "Expecting property name enclosed in double quotes")
            end
          else if decide (c = "["%char) then
            (* JSONArray *)
            match skip_ws r with
            | c1 :: r1 =>
                if decide (c1 = "]"%char) then inr (PList [], r1)
                else let? p := elements fuel' (skip_ws r) in inr (PList p.1, p.2)
            | [] => inl expecting_value
            end
          else scan_atom s
      end
  end

(** The members of an object, from the character after the opening
    quote of a key to the closing brace. *)
with members (fuel : nat) (s : text) : res (list (string * tree L) * text) :=
  match fuel with
  | O => inl RecursionError
  | S fuel' =>
      let? k := scanstring s in
      match skip_ws k.2 with
      | c :: r =>
          if decide (c = ":"%char) then
            let? v := scan_once fuel' (skip_ws r) in
            let pair := (string_of_list_ascii k.1, v.1) in
            match skip_ws v.2 with
            | c1 :: r1 =>
                if decide (c1 = "}"%char) then inr ([pair], r1)
                else if decide (c1 = ","%char) then
                  match skip_ws r1 with
                  | c2 :: r2 =>
                      if decide (c2 = dquote) then
                        let? p := members fuel' r2 in inr (pair :: p.1, p.2)
                      else inl (JSONDecodeError
                             "Expecting property name enclosed in double quotes")
                  | [] => inl (JSONDecodeError
                             "Expecting property name enclosed in double quotes")
                  end
                else inl (JSONDecodeError "Expecting ',' delimiter")
            | [] => inl (JSONDecodeError "Expecting ',' delimiter")
            end
          else inl (JSONDecodeError "Expecting ':' delimiter")
      | [] => inl (JSONDecodeError "Expecting ':' delimiter")
      end
  end

(** The elements of an array, from the first character of an element
    to the closing bracket. *)
with elements (fuel : nat) (s : text) : res (list (tree L) * text) :=
  match fuel with
  | O => inl RecursionError
  | S fuel' =>
      let? v := scan_once fuel' s in
      match skip_ws v.2 with
      | c1 :: r1 =>
          if decide (c1 = "]"%char) then inr ([v.1], r1)
          else if decide (c1 = ","%char) then
            let? p := elements fuel' (skip_ws r1) in inr (v.1 :: p.1, p.2)
          else inl (JSONDecodeError "Expecting ',' delimiter")
      | [] => inl (JSONDecodeError "Expecting ',' delimiter")
      end
  end.

(** [JSONDecoder.decode]: one value between optional white space. *)
Definition decode (s : string) : res (tree L) :=
  let t := chars s in
  match strip_prefix [ascii_of_nat 239; ascii_of_nat 187; ascii_of_nat 191] t with
  | Some _ =>
      inl (JSONDecodeError "Unexpected UTF-8 BOM (decode using utf-8-sig)")
  | None =>
      let? v := scan_once (S (length t)) (skip_ws t) in
      match skip_ws v.2 with
      | [] => inr v.1
      | _ :: _ => inl (JSONDecodeError "Extra data")
      end
  end.
End ScanOnce.
End JSONDecoder.

(** ** Tables, tasks and metadata ([pdpipedag.core]) *)

Module Table.
(** The attributes of a [Table] that the store reads and writes; [obj]
    identifies the payload, which the table store interprets. *)
Record t := mk {
  obj : option nat;
  schema : option Schema.t;
  name : option string;
  cache_key : option string;
}.

Global Instance eq_dec : EqDecision t.
Proof. solve_decision. Defined.

(** Modelled from the spec: [Table.__eq__] is not in the sources. Two
    table references are equal iff stage, name and cache key all match. *)
Definition eqb (a b : t) : bool :=
  bool_decide (schema a = schema b ∧ name a = name b ∧ cache_key a = cache_key b).
End Table.

(** An object that is not of a JSON-compatible built-in type. *)
Inductive pyobj :=
| OTable (t : Table.t)
| OOther (type_name : string).

Abbreviation value := (tree pyobj) (only parsing).

Module MaterialisingTask.
Record t := mk {
  original_name : string;
  version : option string;
  schema : Schema.t;
  cache_key : string;
  lazy : bool;
}.
End MaterialisingTask.

Module TaskMetadata.
Record t := mk {
  name : string;
  schema : string;
  version : option string;
  timestamp : nat;
  run_id : string;
  cache_key : string;
  output_json : string;
}.
End TaskMetadata.

(** ** The table store interface ([backend.table.BaseTableStore]),
       as far as the store calls it *)

Class BaseTableStore (TS : Type) := {
  ts_create_schema : Schema.t → M TS unit;
  ts_swap_schema : Schema.t → M TS unit;
  ts_store_table : Table.t → bool → M TS unit;
  ts_store_task_metadata : TaskMetadata.t → M TS unit;
  ts_retrieve_task_metadata : MaterialisingTask.t → string → M TS TaskMetadata.t;
}.

(** The methods of the table store that the store calls on the inputs of
    a task and on a cached output. [as_type] is a type, given by its name;
    [retrieve_table_obj] returns an object of any type. *)
Class TableStoreInputs (TS : Type) := {
  ts_retrieve_table_obj : Table.t → string → M TS pyobj;
  ts_copy_table_to_working_schema : Table.t → M TS unit;
  ts_copy_task_metadata_to_working_schema : MaterialisingTask.t → M TS unit;
}.

(** ** [core.py] *)

Definition PIPEDAG_TYPE : string := "_pipedag_type_".
Definition PIPEDAG_TYPE_TABLE : string := "table".
Definition PIPEDAG_TYPE_BLOB : string := "blob".

Definition opt_str {L} (s : option string) : tree L :=
  match s with Some s => PStr s | None => PNone end.

Definition _json_default (o : pyobj) : res json :=
  match o with
  | OTable t =>
      match Table.schema t with
      | None => inl (AttributeError "'NoneType' object has no attribute 'name'")
      | Some s =>
          inr (PDict [ (PIPEDAG_TYPE, PStr PIPEDAG_TYPE_TABLE);
                       ("schema", PStr (Schema.name s));
                       ("name", opt_str (Table.name t));
                       ("cache_key", opt_str (Table.cache_key t)) ])
      end
  | OOther type_name =>
      inl (TypeError ("Object of type " +:+ type_name +:+ " is not JSON serializable"))
  end.

(** [bool(x)] *)
Definition truthy {L} (x : tree L) : bool :=
  match x with
  | PNone => false
  | PBool b => b
  | PInt n => negb (n =? 0)%Z
  | PFloat (Finite _ int frac _) =>
      negb ((int =? 0)%N &&
            match frac with
            | Some f => match Decimal.nzhead f with Decimal.Nil => true | _ => false end
            | None => true
            end)
  | PFloat _ => true
  | PStr s => negb (bool_decide (s = ""))
  | PList xs | PTuple xs => match xs with [] => false | _ :: _ => true end
  | PDict items => match items with [] => false | _ :: _ => true end
  | PObj _ => true
  end.

(** [d[key]] *)
Definition dict_item {V} (key : string) (d : list (string * V)) : res V :=
  match dict_get key d with
  | Some v => inr v
  | None => inl (KeyError key)
  end.

(** The type for which [hash(x)] raises [TypeError]: a list, a dict, or
    the first of them inside a tuple. *)
Fixpoint unhashable (x : value) : option string :=
  match x with
  | PList _ => Some "list"
  | PDict _ => Some "dict"
  | PTuple xs =>
      (fix go (l : list value) : option string :=
         match l with
         | [] => None
         | y :: l' => match unhashable y with Some ty => Some ty | None => go l' end
         end) xs
  | _ => None
  end.

(** [schemas[schema_name]] for an arbitrary key object. *)
Definition registry_item (schemas : gmap string Schema.t) (key : value) : res Schema.t :=
  match key with
  | PStr s =>
      match schemas !! s with
      | Some schema => inr schema
      | None => inl (KeyError s)
      end
  | _ =>
      match unhashable key with
      | Some ty => inl (TypeError ("unhashable type: '" +:+ ty +:+ "'"))
      | None => inl (KeyError "")
      end
  end.

(** The attributes [name] and [cache_key] of a table are strings or [None]
    in this model; the constructor applied to anything else is outside it. *)
Definition as_attr (x : value) : res (option string) :=
  match x with
  | PStr s => inr (Some s)
  | PNone => inr None
  | _ => inl (TypeError "table attribute is neither str nor None")
  end.

(** [schemas] stands for [pdpipedag.config.store.schemas], the registry of
    the configured store. The text of the final [ValueError] leaves out
    [repr(pipedag_type)]. *)
Definition _json_object_hook (schemas : gmap string Schema.t)
    (d : list (string * value)) : res value :=
  let pipedag_type := default PNone (dict_get PIPEDAG_TYPE d) in
  if truthy pipedag_type then
    match pipedag_type with
    | PStr ty =>
        if decide (ty = PIPEDAG_TYPE_TABLE) then
          let? name := dict_item "name" d in
          let? schema_name := dict_item "schema" d in
          let? cache_key := dict_item "cache_key" d in
          let? schema := registry_item schemas schema_name in
          let? name := as_attr name in
          let? cache_key := as_attr cache_key in
          inr (PObj (OTable (Table.mk None (Some schema) name cache_key)))
        else if decide (ty = PIPEDAG_TYPE_BLOB) then inl NotImplementedError
        else inl (ValueError "Invalid value for '_pipedag_type_' key")
    | _ => inl (ValueError "Invalid value for '_pipedag_type_' key")
    end
  else inr (PDict d).

(** [f'{k:04d}']. The conversion limit of [int_str] is left out here: [k]
    counts the tables of one value, and a value of 10^4300 tables does not
    fit into a memory. *)
Definition format_04d (k : N) : string :=
  let ds := digits_of_uint (N.to_uint k) in
  string_of_list_ascii (repeat "0"%char (4 - length ds) ++ ds).

(** [x or d] for an optional string. *)
Definition str_or (x : option string) (d : string) : string :=
  match x with
  | Some s => if decide (s = "") then d else s
  | None => d
  end.

Section MapM.
Context {S A B : Type} (f : A → M S B).
Fixpoint mapM (l : list A) : M S (list B) :=
  match l with
  | [] => ret []
  | a :: l' => do b <- f a; do bs <- mapM l'; ret (b :: bs)
  end.
End MapM.

(** Modelled from the spec: [pdpipedag.core.util.deepmutate] is not in the
    sources. It walks the tree in a deterministic order, sequences from
    left to right and mappings in the order of their items, and replaces
    every node that is not a container by what the mutator returns; a
    list stays a list and a tuple a tuple. *)
Section Deepmutate.
Context {S L : Type} (mutator : tree L → M S (tree L)).
Fixpoint deepmutate (x : tree L) : M S (tree L) :=
  match x with
  | PList xs => do ys <- mapM deepmutate xs; ret (PList ys)
  | PTuple xs => do ys <- mapM deepmutate xs; ret (PTuple ys)
  | PDict items =>
      do items' <- mapM (λ kv : string * tree L,
                           do v <- deepmutate kv.2; ret (kv.1, v)) items;
      ret (PDict items')
  | _ => mutator x
  end.
End Deepmutate.

Definition lift {S A} (r : res A) : M S A := λ s, (r, s).

Module PipeDAGStore.
Definition addr := nat.

(** How far [Schema.perform_swap] got. *)
Inductive swap_mark := SwapInProgress | HasBeenSwapped.

Section WithTableStore.
Context {TS : Type} `{BaseTableStore TS}.

(** The store, and the part of the interpreter's memory that its
    methods touch: the table objects that the values of tasks refer
    to, and the swap flags of the schemas. The blob store and the lock
    manager are not used by the methods below. *)
Record t := mk {
  table_store : TS;
  schemas : gmap string Schema.t;
  swapped_schemas : gset string;
  run_id : string;
  heap : gmap addr pyobj;
  swap_marks : gmap string swap_mark;
}.

Definition init (ts : TS) (run_id : string) : t := mk ts ∅ ∅ run_id ∅ ∅.

Definition set_schemas (f : gmap string Schema.t → gmap string Schema.t) (s : t) : t :=
  mk (table_store s) (f (schemas s)) (swapped_schemas s) (run_id s) (heap s)
     (swap_marks s).
Definition set_swapped (f : gset string → gset string) (s : t) : t :=
  mk (table_store s) (schemas s) (f (swapped_schemas s)) (run_id s) (heap s)
     (swap_marks s).
Definition set_heap (f : gmap addr pyobj → gmap addr pyobj) (s : t) : t :=
  mk (table_store s) (schemas s) (swapped_schemas s) (run_id s) (f (heap s))
     (swap_marks s).
Definition set_marks (f : gmap string swap_mark → gmap string swap_mark) (s : t) : t :=
  mk (table_store s) (schemas s) (swapped_schemas s) (run_id s) (heap s)
     (f (swap_marks s)).

(** A call into the table store. *)
Definition on_table_store {A} (c : M TS A) : M t A :=
  zoom table_store
       (λ ts s, mk ts (schemas s) (swapped_schemas s) (run_id s) (heap s)
                   (swap_marks s)) c.

Definition with_table_store (ts : TS) (s : t) : t :=
  mk ts (schemas s) (swapped_schemas s) (run_id s) (heap s) (swap_marks s).

(** *** Schema *)

Definition create_schema (schema : Schema.t) : M t unit :=
  do s <- get;
  if decide (is_Some (schemas s !! Schema.name schema)) then
    raise (SchemaError ("Schema with name '" +:+ Schema.name schema
                        +:+ "' already exists."))
  else if decide (is_Some (schemas s !! Schema.working_name schema)) then
    raise (SchemaError ("Schema with working name '"
                        +:+ Schema.working_name schema +:+ "' already exists."))
  else
    modify (set_schemas (λ m, <[Schema.working_name schema := schema]>
                                (<[Schema.name schema := schema]> m)));;
    on_table_store (ts_create_schema schema).

(** Modelled from the spec: [Schema.perform_swap] is not in the
    sources. The context manager marks the stage as swap in progress,
    runs the body, and marks the stage as swapped when the body
    returns; when the body raises, the mark stays and the exception is
    passed on. *)
Definition perform_swap {A} (schema : Schema.t) (body : M t A) : M t A :=
  modify (set_marks (insert (Schema.name schema) SwapInProgress));;
  do a <- body;
  modify (set_marks (insert (Schema.name schema) HasBeenSwapped));;
  ret a.

Definition swap_schema (schema : Schema.t) : M t unit :=
  do s <- get;
  (if decide (Schema.name schema ∈ swapped_schemas s) then
     raise (SchemaError ("Schema with name '" +:+ Schema.name schema
                         +:+ "' has already been swapped."))
   else
     modify (set_swapped (λ x, {[Schema.name schema]} ∪ x)));;
  perform_swap schema (on_table_store (ts_swap_schema schema)).

(** *** Utils *)

Definition json_serialise (v : value) : res string :=
  JSONEncoder.encode _json_default v.

Definition json_decode (s : t) (v : string) : res value :=
  JSONDecoder.decode (_json_object_hook (schemas s)) v.

(** The value with every reference replaced by the object it refers
    to at this moment. *)
Fixpoint snapshot (h : gmap addr pyobj) (x : tree addr) : value :=
  match x with
  | PNone => PNone
  | PBool b => PBool b
  | PInt n => PInt n
  | PFloat f => PFloat f
  | PStr s => PStr s
  | PList xs => PList (snapshot h <$> xs)
  | PTuple xs => PTuple (snapshot h <$> xs)
  | PDict items => PDict ((λ kv, (kv.1, snapshot h kv.2)) <$> items)
  | PObj a => PObj (default (OOther "object") (h !! a))
  end.

(** *** Task *)

Definition table_name (task : MaterialisingTask.t) (k : N) : string :=
  MaterialisingTask.original_name task +:+ "_" +:+ format_04d k +:+ "_"
  +:+ MaterialisingTask.cache_key task.

(** The state of one invocation of [materialise_task]: the counter
    [tbl_id], created when the [def] of the mutator is executed, and
    the store. *)
Definition on_store {A} (c : M t A) : M (N * t) A :=
  zoom snd (λ s p, (p.1, s)) c.

Definition next_tbl_id : M (N * t) N :=
  do p <- get; put (N.succ p.1, p.2);; ret p.1.

Definition materialise_mutator (task : MaterialisingTask.t)
    (x : tree addr) : M (N * t) (tree addr) :=
  match x with
  | PObj a =>
      do p <- get;
      match heap p.2 !! a with
      | Some (OTable tbl) =>
          do k <- next_tbl_id;
          let tbl' := Table.mk (Table.obj tbl)
                        (Some (MaterialisingTask.schema task))
                        (Some (table_name task k))
                        (Some (MaterialisingTask.cache_key task)) in
          on_store (modify (set_heap (insert a (OTable tbl'))));;
          on_store (on_table_store
                      (ts_store_table tbl' (MaterialisingTask.lazy task)));;
          ret x
      | _ => ret x
      end
  | _ => ret x
  end.

(** [now] is what [datetime.datetime.now()] returns during the call. *)
Definition materialise_task (task : MaterialisingTask.t) (value : tree addr)
    (now : nat) : M t (tree addr) :=
  let schema := MaterialisingTask.schema task in
  do s <- get;
  if decide (is_Some (schemas s !! Schema.name schema)) then
    do m_value <- (λ s, let '(r, p) := deepmutate (materialise_mutator task) value (0%N, s)
                        in (r, p.2));
    do s <- get;
    do output_json <- lift (json_serialise (snapshot (heap s) m_value));
    let metadata :=
      TaskMetadata.mk (MaterialisingTask.original_name task)
                      (Schema.name schema)
                      (MaterialisingTask.version task)
                      now
                      (run_id s)
                      (MaterialisingTask.cache_key task)
                      output_json in
    on_table_store (ts_store_task_metadata metadata);;
    ret m_value
  else raise AssertionError.

(** *** Cache *)

Definition compute_task_cache_key (task : MaterialisingTask.t)
    (input_json : string) : string :=
  let v := [ "PYDIVERSE-PIPEDAG-TASK";
             MaterialisingTask.original_name task;
             str_or (MaterialisingTask.version task) "None";
             input_json ] in
  let v_str := String.concat "|" v in
  let v_bytes := list_ascii_of_string v_str in
  let v_hash := SHA256.hexdigest v_bytes in
  String.substring 0 20 v_hash.

Definition retrieve_cached_output (task : MaterialisingTask.t) : M t value :=
  do s <- get;
  if decide (Schema.name (MaterialisingTask.schema task) ∈ swapped_schemas s) then
    raise (SchemaError "Schema already swapped.")
  else
    do metadata <- on_table_store
                     (ts_retrieve_task_metadata task (MaterialisingTask.cache_key task));
    do s <- get;
    lift (json_decode s (TaskMetadata.output_json metadata)).

(** [fresh] is the new [uuid.uuid4().hex[:20]]. *)
Definition _reset (fresh : string) : M t unit :=
  modify (λ s, mk (table_store s) ∅ ∅ fresh (heap s) (swap_marks s)).

(** *** The inputs of a task and the cached outputs

    These methods do not assign to the attributes of tables, so a
    table is held in the value itself. [args] is the tuple of the
    positional arguments, [kwargs] the dict of the keyword arguments. *)

Context `{TableStoreInputs TS}.

(** [input_type] is [task.input_type]. *)
Definition dematerialise_mutator (input_type : string) (x : value) : M t value :=
  match x with
  | PObj (OTable tbl) =>
      do y <- on_table_store (ts_retrieve_table_obj tbl input_type);
      ret (PObj y)
  | _ => ret x
  end.

Definition dematerialise_task_inputs (task : MaterialisingTask.t)
    (input_type : string) (args : list value) (kwargs : list (string * value)) :
    M t (value * value) :=
  do d_args <- deepmutate (dematerialise_mutator input_type) (PTuple args);
  do d_kwargs <- deepmutate (dematerialise_mutator input_type) (PDict kwargs);
  ret (d_args, d_kwargs).

Definition visiting_mutator (x : value) : M t value :=
  match x with
  | PObj (OTable tbl) =>
      on_table_store (ts_copy_table_to_working_schema tbl);;
      ret x
  | _ => ret x
  end.

Definition copy_cached_output_to_working_schema (output : value)
    (task : MaterialisingTask.t) : M t unit :=
  deepmutate visiting_mutator output;;
  on_table_store (ts_copy_task_metadata_to_working_schema task).
End WithTableStore.

Arguments t TS : clear implicits.
End PipeDAGStore.

(** ** A table store that records the calls it receives

    Used to run the store on concrete inputs. [swap_ok = false] makes
    [swap_schema] fail. *)

Module RecordingStore.
Inductive call :=
| CreateSchema (schema : Schema.t)
| SwapSchema (schema : Schema.t)
| StoreTable (table : Table.t) (lazy : bool)
| StoreTaskMetadata (metadata : TaskMetadata.t).

Record t := mk { calls : list call; swap_ok : bool }.

Definition record (c : call) : M t unit :=
  modify (λ s, mk (calls s ++ [c]) (swap_ok s)).

Definition is_metadata_for (name cache_key : string) (c : call) : option TaskMetadata.t :=
  match c with
  | StoreTaskMetadata m =>
      if decide (TaskMetadata.name m = name ∧ TaskMetadata.cache_key m = cache_key)
      then Some m else None
  | _ => None
  end.

Global Instance table_store : BaseTableStore t := {
  ts_create_schema schema := record (CreateSchema schema);
  ts_swap_schema schema :=
    do s <- get;
    if swap_ok s then record (SwapSchema schema)
    else raise (BackendError "swap failed");
  ts_store_table table lazy := record (StoreTable table lazy);
  ts_store_task_metadata metadata := record (StoreTaskMetadata metadata);
  ts_retrieve_task_metadata task cache_key :=
    do s <- get;
    match omap (is_metadata_for (MaterialisingTask.original_name task) cache_key)
               (rev (calls s)) with
    | m :: _ => ret m
    | [] => raise (BackendError "no metadata for this task")
    end;
}.
End RecordingStore.

(** Text with apostrophes in the place of double quotes. *)
Definition dq (s : string) : string :=
  string_of_list_ascii
    ((λ c, if decide (c = "'"%char) then dquote else c) <$> list_ascii_of_string s).

(** ** Notions used to state the properties *)

(** A stage is registered when the registry holds it under both names. *)
Definition registered (reg : gmap string Schema.t) (schema : Schema.t) : Prop :=
  reg !! Schema.name schema = Some schema
  ∧ reg !! Schema.working_name schema = Some schema.

(** Two stages collide when a name of one is a name of the other. *)
Definition collide (a b : Schema.t) : Prop :=
  Schema.name a = Schema.name b ∨ Schema.name a = Schema.working_name b
  ∨ Schema.working_name a = Schema.name b
  ∨ Schema.working_name a = Schema.working_name b.

(** ** Concrete inputs *)

Definition stage_a : Schema.t := Schema.mk "sales" "sales__tmp".
Definition stage_b : Schema.t := Schema.mk "orders" "sales__tmp".

(** A store over a recording table store, with [stage_a] registered. *)
Definition store_a (swap_ok : bool) : PipeDAGStore.t RecordingStore.t :=
  snd (PipeDAGStore.create_schema stage_a
         (PipeDAGStore.init (RecordingStore.mk [] swap_ok) "run0")).

(** A task of [stage_a] and an output with one table, held at address 1. *)
Definition task_a : MaterialisingTask.t :=
  MaterialisingTask.mk "build" (Some "v1") stage_a "abc" false.

Definition with_output (s : PipeDAGStore.t RecordingStore.t) :
    PipeDAGStore.t RecordingStore.t :=
  PipeDAGStore.set_heap (insert 1%nat (OTable (Table.mk (Some 5%nat) None None None))) s.

Definition output_a : tree PipeDAGStore.addr := PDict [("k", PList [PObj 1%nat])].

(** A computation is oblivious to a change [g] of the state when it does
    on [g s] what it does on [s], the change carried along. *)
Definition oblivious {S A} (g : S → S) (c : M S A) : Prop :=
  ∀ s, c (g s) = (fst (c s), g (snd (c s))).

(** The cache key in the words of the spec: the first 20 hexadecimal
    characters of the SHA-256 of the record
    ["PYDIVERSE-PIPEDAG-TASK" | original_name | v | input_json]. *)
Definition cache_key_record (original_name v input_json : string) : string :=
  "PYDIVERSE-PIPEDAG-TASK|" +:+ original_name +:+ "|" +:+ v +:+ "|" +:+ input_json.

Definition first_20_hex_of_sha256 (record : string) : string :=
  String.substring 0 20 (SHA256.hexdigest (list_ascii_of_string record)).

(** The version, or the literal "None" when the version is missing. *)
Definition version_or_None (version : option string) : string :=
  match version with Some v => v | None => "None" end.

Definition is_hex_char (c : ascii) : bool :=
  let n := N_of_ascii c in
  ((48 <=? n) && (n <=? 57) || (97 <=? n) && (n <=? 102))%N.

(** The nodes of a tree that are not containers, in the order of the walk. *)
Fixpoint leaves {L} (x : tree L) : list (tree L) :=
  match x with
  | PList xs | PTuple xs => concat (leaves <$> xs)
  | PDict items => concat ((λ kv : string * tree L, leaves kv.2) <$> items)
  | _ => [x]
  end.

(** The references to tables among them: the tables that the walk
    encounters, in order, a table as often as it is referred to. *)
Definition is_table_ref (h : gmap PipeDAGStore.addr pyobj) (n : tree PipeDAGStore.addr) :
    option PipeDAGStore.addr :=
  match n with
  | PObj a => match h !! a with Some (OTable _) => Some a | _ => None end
  | _ => None
  end.

Definition table_refs (h : gmap PipeDAGStore.addr pyobj) (x : tree PipeDAGStore.addr) :
    list PipeDAGStore.addr :=
  omap (is_table_ref h) (leaves x).

Definition obj_at (h : gmap PipeDAGStore.addr pyobj) (a : PipeDAGStore.addr) : option nat :=
  match h !! a with Some (OTable t) => Table.obj t | _ => None end.

(** The table at [a] once the task has named it with the counter at [k]. *)
Definition named (task : MaterialisingTask.t) (h : gmap PipeDAGStore.addr pyobj)
    (k : N) (a : PipeDAGStore.addr) : Table.t :=
  Table.mk (obj_at h a)
           (Some (MaterialisingTask.schema task))
           (Some (PipeDAGStore.table_name task k))
           (Some (MaterialisingTask.cache_key task)).

(** The heap after the tables at [refs] were named in this order, from
    the counter [k] on. *)
Fixpoint assign (task : MaterialisingTask.t) (k : N) (refs : list PipeDAGStore.addr)
    (h : gmap PipeDAGStore.addr pyobj) : gmap PipeDAGStore.addr pyobj :=
  match refs with
  | [] => h
  | a :: refs' => assign task (N.succ k) refs' (<[a := OTable (named task h k a)]> h)
  end.

(** Two outcomes agree: the same state, the same exception, or else the
    results [a] and [b]. *)
Definition agrees {S A B} (r1 : (exn + A) * S) (r2 : (exn + B) * S) (a : A) (b : B) : Prop :=
  r1.2 = r2.2
  ∧ match r1.1, r2.1 with
    | inr x, inr y => x = a ∧ y = b
    | inl e, inl e' => e = e'
    | _, _ => False
    end.

(** The tables handed to [store_table], in order, when the tables at
    [refs] are named from the counter [k] on. *)
Definition named_from (task : MaterialisingTask.t) (h : gmap PipeDAGStore.addr pyobj)
    (k : N) (refs : list PipeDAGStore.addr) : list Table.t :=
  imap (λ i a, named task h (k + N.of_nat i) a) refs.

(** ** Notions used to state the round trip of the codec *)

(** The tree with the items of every dict in the order of their keys. *)
Fixpoint canon {L} (x : tree L) : tree L :=
  match x with
  | PList xs => PList (canon <$> xs)
  | PTuple xs => PTuple (canon <$> xs)
  | PDict items =>
      PDict (sort_by_key ((λ kv : string * tree L, (kv.1, canon kv.2)) <$> items))
  | _ => x
  end.

(** What [json.loads] builds from the text of a JSON tree, read off the
    tree: the hook is applied to every dict, innermost first. *)
Section LoadsTree.
Context {L : Type} (object_hook : list (string * tree L) → res (tree L)).

Fixpoint loads_tree (j : json) : res (tree L) :=
  match j with
  | PNone => inr PNone
  | PBool b => inr (PBool b)
  | PInt n => inr (PInt n)
  | PFloat x => inr (PFloat x)
  | PStr s => inr (PStr s)
  | PList xs | PTuple xs =>
      (* an array is read as a list *)
      let? ys := sequence (loads_tree <$> xs) in inr (PList ys)
  | PDict items =>
      let? pairs :=
        sequence ((λ kv : string * json,
                     let? v := loads_tree kv.2 in inr (kv.1, v)) <$> items) in
      object_hook (dict_of_pairs pairs)
  | PObj e => match e with end
  end.
End LoadsTree.

(** A float that [repr] can have printed: finite, with a fraction or an
    exponent, each with at least one digit. *)
Definition float_ok (x : pyfloat) : bool :=
  match x with
  | Finite _ _ frac exp =>
      match frac with Some Decimal.Nil => false | _ => true end
      && match exp with Some (_, Decimal.Nil) => false | _ => true end
      && match frac, exp with None, None => false | _, _ => true end
  | _ => false
  end.

(** The JSON tree that the encoder prints for a value. *)
Fixpoint json_of (x : value) : json :=
  match x with
  | PNone => PNone
  | PBool b => PBool b
  | PInt n => PInt n
  | PFloat f => PFloat f
  | PStr s => PStr s
  | PList xs | PTuple xs => PList (json_of <$> xs)
  | PDict items => PDict ((λ kv : string * value, (kv.1, json_of kv.2)) <$> items)
  | PObj o => match _json_default o with inr j => j | inl _ => PNone end
  end.

(** The reserved key is absent from a dict, or its value is false. *)
Definition untagged (d : list (string * value)) : bool :=
  match dict_get PIPEDAG_TYPE d with
  | Some v => negb (truthy v)
  | None => true
  end.

(** An integer that [str] converts. *)
Definition int_ok (n : Z) : bool :=
  negb (too_many_digits (digits_of_uint (N.to_uint (Z.abs_N n)))).

(** The trees of the round trip: [None], booleans, integers within the
    conversion limit, printable floats, strings, lists, tuples, dicts
    with distinct keys, and tables of stages that the registry [reg] holds
    under their names; no dict carries a true value under the reserved
    key. *)
Fixpoint supported (reg : gmap string Schema.t) (x : value) : bool :=
  match x with
  | PNone | PBool _ | PStr _ => true
  | PInt n => int_ok n
  | PFloat f => float_ok f
  | PList xs | PTuple xs => forallb (supported reg) xs
  | PDict items =>
      bool_decide (NoDup items.*1) && untagged items
      && forallb (λ kv : string * value, supported reg kv.2) items
  | PObj (OTable t) =>
      match Table.schema t with
      | Some s => bool_decide (reg !! Schema.name s = Some s)
      | None => false
      end
  | PObj (OOther _) => false
  end.

(** The same, without the conditions on the reserved key and on the size
    of the integers: the trees that the spec says the round trip holds
    for. *)
Fixpoint supported_by_spec (reg : gmap string Schema.t) (x : value) : bool :=
  match x with
  | PNone | PBool _ | PInt _ | PStr _ => true
  | PFloat f => float_ok f
  | PList xs | PTuple xs => forallb (supported_by_spec reg) xs
  | PDict items =>
      bool_decide (NoDup items.*1)
      && forallb (λ kv : string * value, supported_by_spec reg kv.2) items
  | PObj (OTable t) =>
      match Table.schema t with
      | Some s => bool_decide (reg !! Schema.name s = Some s)
      | None => false
      end
  | PObj (OOther _) => false
  end.

(** Equality of values as [==] sees it on the supported trees: dicts are
    equal when they have the same keys with equal values, in any order,
    and tables when stage, name and cache key match. It does not identify
    [True] with [1] or [1] with [1.0], as [==] does. *)
Definition float_eqb (x y : pyfloat) : bool :=
  match x, y with
  | NaN, _ | _, NaN => false
  | _, _ => bool_decide (x = y)
  end.

Definition pyobj_eqb (a b : pyobj) : bool :=
  match a, b with
  | OTable x, OTable y => Table.eqb x y
  | _, _ => false
  end.

Fixpoint py_eqb (x y : value) : bool :=
  match x, y with
  | PNone, PNone => true
  | PBool a, PBool b => bool_decide (a = b)
  | PInt a, PInt b => bool_decide (a = b)
  | PFloat a, PFloat b => float_eqb a b
  | PStr a, PStr b => bool_decide (a = b)
  | PList xs, PList ys | PTuple xs, PTuple ys =>
      (* a list is never equal to a tuple *)
      (fix go (xs ys : list value) : bool :=
         match xs, ys with
         | [], [] => true
         | x :: xs', y :: ys' => py_eqb x y && go xs' ys'
         | _, _ => false
         end) xs ys
  | PDict a, PDict b =>
      bool_decide (length a = length b)
      && forallb (λ kv : string * value,
                    match dict_get kv.1 b with
                    | Some v => py_eqb kv.2 v
                    | None => false
                    end) a
  | PObj a, PObj b => pyobj_eqb a b
  | _, _ => false
  end.

(** What the round trip returns for [x]: the tuples as lists, the dicts in
    the order of their keys, the tables without their payload. *)
Fixpoint image (x : value) : value :=
  match x with
  | PList xs | PTuple xs => PList (image <$> xs)
  | PDict items =>
      PDict (sort_by_key ((λ kv : string * value, (kv.1, image kv.2)) <$> items))
  | PObj (OTable t) =>
      PObj (OTable (Table.mk None (Table.schema t) (Table.name t) (Table.cache_key t)))
  | _ => x
  end.

(** The text after a value in a JSON text: the end, or a comma, or a
    closing bracket or brace. *)
Definition closed (rest : text) : Prop :=
  match rest with
  | [] => True
  | c :: _ => c = ","%char ∨ c = "]"%char ∨ c = "}"%char
  end.

(** The fraction and the exponent of a float literal, as printed. *)
Definition frac_text (frac : option Decimal.uint) : text :=
  match frac with Some f => "."%char :: digits_of_uint f | None => [] end.

Definition exp_text (exp : option (exp_sign * Decimal.uint)) : text :=
  match exp with
  | Some (s, e) => "e"%char :: exp_sign_text s ++ digits_of_uint e
  | None => []
  end.

(** No tuple anywhere in the value. *)
Fixpoint tuple_free {L} (x : tree L) : bool :=
  match x with
  | PTuple _ => false
  | PList xs => forallb tuple_free xs
  | PDict items => forallb (λ kv : string * tree L, tuple_free kv.2) items
  | _ => true
  end.

(** Every integer in the tree is one that [str] converts. *)
Fixpoint ints_ok {L} (x : tree L) : bool :=
  match x with
  | PInt n => int_ok n
  | PList xs | PTuple xs => forallb ints_ok xs
  | PDict items => forallb (λ kv : string * tree L, ints_ok kv.2) items
  | _ => true
  end.

(** Every float in the tree is one that [repr] can have printed. *)
Fixpoint floats_ok {L} (x : tree L) : bool :=
  match x with
  | PFloat f => float_ok f
  | PList xs | PTuple xs => forallb floats_ok xs
  | PDict items => forallb (λ kv : string * tree L, floats_ok kv.2) items
  | _ => true
  end.

(** A result together with the text that is left. *)
Definition with_rest {A} (r : res A) (rest : text) : res (A * text) :=
  match r with inr v => inr (v, rest) | inl e => inl e end.

(** The first character of the text of a value: an ASCII character that
    is no white space, no comma, no closing bracket or brace. *)
Definition starts_value (t : text) : Prop :=
  match t with
  | c :: _ => JSONDecoder.is_ws c = false ∧ c ≠ ","%char ∧ c ≠ "]"%char ∧ c ≠ "}"%char
              ∧ (N_of_ascii c < 128)%N
  | [] => False
  end.

(** The decoder with the hook [object_hook] reads the text of the JSON
    tree [j]: it returns what the hook makes of [j] with its dicts in the
    order of their keys, or raises what the hook raises, and leaves the
    text behind it. *)
Definition reads {L} (object_hook : list (string * tree L) → res (tree L)) (j : json) : Prop :=
  ∀ t, JSONEncoder.encode_json j = inr t → floats_ok j = true →
    ∀ fuel rest, length t < fuel → closed rest →
      JSONDecoder.scan_once object_hook fuel (t ++ rest)
      = with_rest (loads_tree object_hook (canon j)) rest.

(** The text of a dict item behind its opening quote. *)
Definition item_body (k : string) (t : text) : text :=
  (chars k ≫= JSONEncoder.escape_char) ++ dquote :: ":"%char :: t.

(** What the decoder makes of one item of a dict. *)
Definition load_item {L} (object_hook : list (string * tree L) → res (tree L))
    (kv : string * json) : res (string * tree L) :=
  let? v := loads_tree object_hook kv.2 in inr (kv.1, v).

(** A value for the round trip: a dict whose keys are not in order, with
    a table of [stage_a], an integer, a float and a string. *)
Definition value_a : value :=
  PDict [ ("tables", PList [ PObj (OTable (Table.mk (Some 5%nat) (Some stage_a)
                                             (Some "build_0000_abc") (Some "abc"))) ]);
          ("rows", PInt 3);
          ("ratio", PFloat (Finite false 1 (Some (Decimal.D5 Decimal.Nil)) None));
          ("note", PStr (dq "a 'quoted' word\n")) ].



(** The value of scenario 5. *)
Definition value_s5 : value :=
  PDict [ ("k", PList [ PObj (OTable (Table.mk None (Some (Schema.mk "S" "S__tmp"))
                                        (Some "t_0000_abc") (Some "abc"))) ]) ].

(** ** Notions used to state the properties of the lock managers *)

(** The file manager [m] once [L] is held [c] times through the lock file
    [p]: the state of [L] is LOCKED, the lock is tracked with the counter
    [c], and the file exists. *)
Definition file_held (L : Lockable) (p : string) (c : nat)
    (m : FileLockManager.t) : FileLockManager.t :=
  FileLockManager.mk
    (BaseLockManager.set_lock_state L LOCKED (FileLockManager.base m))
    (FileLockManager.base_path m)
    (<[L := FileLockManager.mkFileLock p c]> (FileLockManager.locks m))
    ({[p]} ∪ FileLockManager.files m).

(** What the file manager keeps true of a lock: its state is absent,
    UNLOCKED or LOCKED; if it is LOCKED the lock is tracked; and if the
    lock is held its state is LOCKED. *)
Definition file_inv (m : FileLockManager.t) (L : Lockable) : Prop :=
  (∀ st, BaseLockManager.lock_states (FileLockManager.base m) !! L = Some st →
         st = LOCKED ∨ st = UNLOCKED)
  ∧ (BaseLockManager.lock_states (FileLockManager.base m) !! L = Some LOCKED →
     is_Some (FileLockManager.locks m !! L))
  ∧ (∀ f_lock, FileLockManager.locks m !! L = Some f_lock →
               FileLockManager.is_locked f_lock = true →
               BaseLockManager.lock_states (FileLockManager.base m) !! L = Some LOCKED).

(** The lock state that a connection event gives to the tracked locks. *)
Definition session_state (k : ZooKeeperLockManager.KazooState) : LockState :=
  match k with
  | ZooKeeperLockManager.SUSPENDED => UNCERTAIN
  | ZooKeeperLockManager.LOST => INVALID
  | ZooKeeperLockManager.CONNECTED => LOCKED
  end.

(** The calls that concern the lock [L]. *)
Definition about (L : Lockable) (calls : list transition) : list transition :=
  filter (λ tr, tr.1.1 = L) calls.

(** The name under which a lockable is locked. *)
Definition lock_name (lock : Lockable) : string :=
  match lock with LSchema s => Schema.name s | LStr s => s end.


(** ** Notions used to state the properties of the inputs and the cache *)

(** The tables in a value, in the order of the walk, a table as often as
    it occurs. *)
Definition as_table (n : value) : option Table.t :=
  match n with PObj (OTable t) => Some t | _ => None end.

Definition tables (x : value) : list Table.t := omap as_table (leaves x).

(** The state with another table store. *)
Definition only_table_store {TS} (ts : TS) (s : PipeDAGStore.t TS) : PipeDAGStore.t TS :=
  PipeDAGStore.with_table_store ts s.

(** A node that is not a container. *)
Definition is_leaf {L} (x : tree L) : bool :=
  match x with PList _ | PTuple _ | PDict _ => false | _ => true end.

(** The shape of a value: the value with [None] in the place of every
    leaf. Together with its leaves it determines the value. *)
Fixpoint skeleton {L} (x : tree L) : tree L :=
  match x with
  | PList xs => PList (skeleton <$> xs)
  | PTuple xs => PTuple (skeleton <$> xs)
  | PDict items => PDict ((λ kv : string * tree L, (kv.1, skeleton kv.2)) <$> items)
  | _ => PNone
  end.

(** The leaves [ns] with the tables among them replaced, in order, by the
    objects [objs]. *)
Fixpoint put_objs (ns : list value) (objs : list pyobj) : list value :=
  match ns with
  | [] => []
  | n :: ns' =>
      match as_table n, objs with
      | Some _, o :: objs' => PObj o :: put_objs ns' objs'
      | Some _, [] => n :: put_objs ns' []
      | None, _ => n :: put_objs ns' objs
      end
  end.

(** Two outcomes with the same state and the same exception, or else with
    results related by [R]. *)
Definition outcome_rel {S A B} (R : A → B → Prop)
    (r1 : (exn + A) * S) (r2 : (exn + B) * S) : Prop :=
  r1.2 = r2.2
  ∧ match r1.1, r2.1 with
    | inr x, inr y => R x y
    | inl e, inl e' => e = e'
    | _, _ => False
    end.

(** ** Notions used to state the properties of the codec *)

(** The values that the encoder accepts: every integer is within the
    conversion limit, every float is finite, and every object of another
    type is a table whose schema is set. *)
Fixpoint serialisable (x : value) : bool :=
  match x with
  | PInt n => int_ok n
  | PFloat (Finite _ _ _ _) => true
  | PFloat _ => false
  | PList xs | PTuple xs => forallb serialisable xs
  | PDict items => forallb (λ kv : string * value, serialisable kv.2) items
  | PObj (OTable t) => match Table.schema t with Some _ => true | None => false end
  | PObj (OOther _) => false
  | _ => true
  end.

(** A list of items in the order of their keys. *)
Definition key_le {V} (a b : string * V) : Prop := String.leb a.1 b.1 = true.

(** The part of the store that the methods for tasks leave alone: the
    registry, the swapped set, the run id and the swap marks. *)
Definition bookkeeping {TS} (s : PipeDAGStore.t TS) :
    gmap string Schema.t * gset string * string * gmap string PipeDAGStore.swap_mark :=
  (PipeDAGStore.schemas s, PipeDAGStore.swapped_schemas s, PipeDAGStore.run_id s,
   PipeDAGStore.swap_marks s).

(** What [json_decode] raises for a dict whose reserved key holds the true
    value [v], other than "table". *)
Definition reserved_key_error (v : value) : exn :=
  match v with
  | PStr ty =>
      if decide (ty = PIPEDAG_TYPE_BLOB) then NotImplementedError
      else ValueError "Invalid value for '_pipedag_type_' key"
  | _ => ValueError "Invalid value for '_pipedag_type_' key"
  end.

(** * Properties of the lock managers *)

Section LockFacts.
Import BaseLockManager.

Lemma set_lock_state_listeners lock s m :
  state_listeners (set_lock_state lock s m) = state_listeners m.
Proof.
  unfold set_lock_state, broadcast, with_states.
  repeat (case_match || case_decide); reflexivity.
Qed.

(** Releasing purges the entry, whatever was recorded before. *)
Lemma set_unlocked_states lock m :
  lock_states (set_lock_state lock UNLOCKED m) = delete lock (lock_states m).
Proof.
  unfold set_lock_state, broadcast, with_states.
  rewrite decide_True by done.
  repeat (case_match || case_decide); simpl; apply delete_insert_eq.
Qed.

Lemma set_locked_states lock m :
  lock_states (set_lock_state lock LOCKED m) = <[lock := LOCKED]> (lock_states m).
Proof.
  unfold set_lock_state, broadcast, with_states.
  rewrite decide_False by done.
  repeat (case_match || case_decide); reflexivity.
Qed.

(** A change of state is delivered once to every registered listener. *)
Lemma set_lock_state_change lock old new m :
  default UNLOCKED (lock_states m !! lock) = old → old ≠ new →
  delivered (set_lock_state lock new m)
  = delivered m ++ ((λ f, (f, (lock, old, new))) <$> elements (state_listeners m)).
Proof.
  intros Hold Hne. unfold set_lock_state, broadcast, with_states.
  destruct (lock_states m !! lock) as [o|] eqn:E; simpl in Hold; subst old.
  - rewrite (decide_True _ _ Hne). case_decide; reflexivity.
  - case_decide; reflexivity.
Qed.

Lemma filter_calls_of (f : listener) (tr : transition) (fs : list listener) :
  NoDup fs →
  filter (λ c : listener * transition, c.1 = f) ((λ g, (g, tr)) <$> fs)
  = if decide (f ∈ fs) then [(f, tr)] else [].
Proof.
  induction 1 as [|g fs Hg Hnd IH].
  - reflexivity.
  - rewrite fmap_cons, filter_cons, IH. simpl.
    destruct (decide (g = f)) as [->|Hgf].
    + rewrite decide_False by done.
      rewrite decide_True by (left). reflexivity.
    + destruct (decide (f ∈ fs)) as [Hin|Hin].
      * rewrite decide_True by (by right). reflexivity.
      * rewrite decide_False; [reflexivity|].
        intros [->|?]%elem_of_cons; done.
Qed.

Lemma heard_change f lock old new m :
  default UNLOCKED (lock_states m !! lock) = old → old ≠ new →
  heard f (set_lock_state lock new m)
  = heard f m ++ (if decide (f ∈ state_listeners m) then [(lock, old, new)] else []).
Proof.
  intros Hold Hne. unfold heard.
  rewrite (set_lock_state_change lock old new) by done.
  rewrite filter_app, fmap_app. f_equal.
  rewrite filter_calls_of by apply NoDup_elements.
  destruct (decide (f ∈ elements (state_listeners m))) as [Hin|Hin];
    rewrite elem_of_elements in Hin.
  - rewrite decide_True by done. reflexivity.
  - rewrite decide_False by done. reflexivity.
Qed.
End LockFacts.

Section NoLockFacts.
Import BaseLockManager NoLockManager.

Lemma acquire_untracked L m :
  lock_states m !! L = None →
  let m' := set_lock_state L LOCKED m in
  lock_states m' !! L = Some LOCKED
  ∧ state_listeners m' = state_listeners m
  ∧ delivered m'
    = delivered m ++ ((λ f, (f, (L, UNLOCKED, LOCKED))) <$> elements (state_listeners m)).
Proof.
  intros Hm. cbv zeta. split; [|split].
  - rewrite set_locked_states. apply lookup_insert_eq.
  - apply set_lock_state_listeners.
  - apply set_lock_state_change; [by rewrite Hm | done].
Qed.

Lemma release_locked L m :
  lock_states m !! L = Some LOCKED →
  let m' := set_lock_state L UNLOCKED m in
  lock_states m' !! L = None
  ∧ state_listeners m' = state_listeners m
  ∧ delivered m'
    = delivered m ++ ((λ f, (f, (L, LOCKED, UNLOCKED))) <$> elements (state_listeners m)).
Proof.
  intros Hm. cbv zeta. split; [|split].
  - rewrite set_unlocked_states. apply lookup_delete_eq.
  - apply set_lock_state_listeners.
  - apply set_lock_state_change; [by rewrite Hm | done].
Qed.
End NoLockFacts.

(** C7: on the no-op manager, for a lockable [L] that is not in the state
    map, [acquire(L); release(L); acquire(L); release(L)] returns normally;
    it calls every registered listener exactly four times, with
    UNLOCKED->LOCKED, LOCKED->UNLOCKED, UNLOCKED->LOCKED, LOCKED->UNLOCKED in
    this order, and nobody else; [L] is absent from the state map after each
    release; and [get_lock_state(L)] then answers UNLOCKED. *)
Theorem no_lock_acquire_release_twice (L : Lockable) (m : BaseLockManager.t) :
  BaseLockManager.lock_states m !! L = None →
  let seq :=
    (NoLockManager.acquire L;; NoLockManager.release L;;
     NoLockManager.acquire L;; NoLockManager.release L) in
  let m2 := snd ((NoLockManager.acquire L;; NoLockManager.release L) m) in
  let m4 := snd (seq m) in
  fst (seq m) = inr tt
  ∧ fst (BaseLockManager.get_lock_state L m4) = inr UNLOCKED
  ∧ BaseLockManager.delivered m4
    = BaseLockManager.delivered m ++
      (tr ← [(L, UNLOCKED, LOCKED); (L, LOCKED, UNLOCKED);
             (L, UNLOCKED, LOCKED); (L, LOCKED, UNLOCKED)];
       (λ f, (f, tr)) <$> elements (BaseLockManager.state_listeners m))
  ∧ (∀ f, BaseLockManager.heard f m4
          = BaseLockManager.heard f m ++
            if decide (f ∈ BaseLockManager.state_listeners m)
            then [(L, UNLOCKED, LOCKED); (L, LOCKED, UNLOCKED);
                  (L, UNLOCKED, LOCKED); (L, LOCKED, UNLOCKED)]
            else [])
  ∧ BaseLockManager.lock_states m2 !! L = None
  ∧ BaseLockManager.lock_states m4 !! L = None.
Proof.
  intros Hm. cbv zeta.
  unfold NoLockManager.acquire, NoLockManager.release, bind, modify. simpl.
  set (m1 := BaseLockManager.set_lock_state L LOCKED m).
  set (m2 := BaseLockManager.set_lock_state L UNLOCKED m1).
  set (m3 := BaseLockManager.set_lock_state L LOCKED m2).
  set (m4 := BaseLockManager.set_lock_state L UNLOCKED m3).
  destruct (acquire_untracked L m Hm) as (S1 & F1 & D1). fold m1 in S1, F1, D1.
  destruct (release_locked L m1 S1) as (S2 & F2 & D2). fold m2 in S2, F2, D2.
  destruct (acquire_untracked L m2 S2) as (S3 & F3 & D3). fold m3 in S3, F3, D3.
  destruct (release_locked L m3 S3) as (S4 & F4 & D4). fold m4 in S4, F4, D4.
  assert (HD : BaseLockManager.delivered m4
    = BaseLockManager.delivered m ++
      (tr ← [(L, UNLOCKED, LOCKED); (L, LOCKED, UNLOCKED);
             (L, UNLOCKED, LOCKED); (L, LOCKED, UNLOCKED)];
       (λ f, (f, tr)) <$> elements (BaseLockManager.state_listeners m))).
  { rewrite D4, D3, D2, D1, F3, F2, F1. simpl.
    rewrite app_nil_r, <- !app_assoc. reflexivity. }
  split; [reflexivity|]. split; [|split; [exact HD|split; [|split; assumption]]].
  - unfold BaseLockManager.get_lock_state, bind, get. cbv beta iota.
    rewrite S4. reflexivity.
  - intros f. unfold BaseLockManager.heard. rewrite HD. simpl.
    rewrite app_nil_r, !filter_app, !fmap_app.
    rewrite !filter_calls_of by apply NoDup_elements.
    destruct (decide (f ∈ elements (BaseLockManager.state_listeners m))) as [Hin|Hin];
      rewrite elem_of_elements in Hin.
    + rewrite decide_True by done. reflexivity.
    + rewrite decide_False by done. simpl. reflexivity.
Qed.

Lemma no_lock_acquire_release_twice_witness :
  let L := LStr "stage" in
  let m := NoLockManager.run
             [NoLockManager.AddListener (BaseLockManager.Callable 7)]
             BaseLockManager.init in
  let m4 := snd ((NoLockManager.acquire L;; NoLockManager.release L;;
                  NoLockManager.acquire L;; NoLockManager.release L) m) in
  BaseLockManager.lock_states m !! L = None
  ∧ BaseLockManager.heard 7 m4
    = [(L, UNLOCKED, LOCKED); (L, LOCKED, UNLOCKED);
       (L, UNLOCKED, LOCKED); (L, LOCKED, UNLOCKED)]
  ∧ BaseLockManager.lock_states m4 !! L = None.
Proof.
  intros L m m4.
  assert (Hm : BaseLockManager.lock_states m !! L = None) by reflexivity.
  pose proof (no_lock_acquire_release_twice L m Hm) as (_ & _ & _ & H & _ & H4).
  specialize (H 7). rewrite decide_True in H by (vm_compute; set_solver).
  split; [exact Hm|]. split; [exact H | exact H4].
Defined.

(** The dictionary in insertion order answers lookups as a map does. *)
Section OrderedDict.
Context {K V : Type} `{EqDecision K}.
Implicit Types (d : ODict.t K V) (l : list (K * V)).

Lemma odict_lookup_empty k : (∅ : ODict.t K V) !! k = None.
Proof. reflexivity. Qed.

Lemma odict_lookup_insert_eq d k v : <[k := v]> d !! k = Some v.
Proof.
  destruct d as [l]. unfold lookup, insert, ODict.odict_lookup, ODict.odict_insert.
  cbn [ODict.items]. induction l as [|[k' w] l IH]; cbn.
  - by rewrite decide_True.
  - destruct (decide (k' = k)) as [->|Hne]; cbn.
    + by rewrite decide_True.
    + by rewrite decide_False.
Qed.

Lemma odict_lookup_insert_ne d k k' v : k ≠ k' → <[k := v]> d !! k' = d !! k'.
Proof.
  intros Hk. destruct d as [l].
  unfold lookup, insert, ODict.odict_lookup, ODict.odict_insert.
  cbn [ODict.items]. induction l as [|[k0 w] l IH]; cbn.
  - by rewrite decide_False.
  - destruct (decide (k0 = k)) as [->|Hne]; cbn.
    + by rewrite !decide_False.
    + destruct (decide (k0 = k')); [done | exact IH].
Qed.

Lemma odict_lookup_delete_eq d k : delete k d !! k = None.
Proof.
  destruct d as [l]. unfold lookup, delete, ODict.odict_lookup, ODict.odict_delete.
  cbn [ODict.items]. unfold ODict.del_items.
  induction l as [|[k' w] l IH]; [done|].
  rewrite filter_cons. cbn. destruct (decide (k' ≠ k)) as [Hne|Heq]; cbn.
  - by rewrite decide_False.
  - exact IH.
Qed.

Lemma odict_lookup_delete_ne d k k' : k ≠ k' → delete k d !! k' = d !! k'.
Proof.
  intros Hk. destruct d as [l].
  unfold lookup, delete, ODict.odict_lookup, ODict.odict_delete.
  cbn [ODict.items]. unfold ODict.del_items.
  induction l as [|[k0 w] l IH]; [done|].
  rewrite filter_cons. cbn. destruct (decide (k0 ≠ k)) as [Hne|Heq]; cbn.
  - destruct (decide (k0 = k')); [done | exact IH].
  - apply dec_stable in Heq. subst k0. by rewrite decide_False.
Qed.

Lemma odict_elem_of_keys d k : k ∈ ODict.keys d ↔ is_Some (d !! k).
Proof.
  destruct d as [l]. unfold lookup, ODict.odict_lookup, ODict.keys.
  cbn [ODict.items]. induction l as [|[k' w] l IH]; cbn.
  - split; [by intros ?%elem_of_nil | by intros [? ?]].
  - rewrite elem_of_cons, IH. destruct (decide (k' = k)) as [->|Hne].
    + split; [by eexists | by left].
    + split; [intros [->|?]; done | by right].
Qed.
End OrderedDict.

Section NeverAcquired.
Variable L : Lockable.






Lemma zk_set_all_locks s m :
  ZooKeeperLockManager.locks (ZooKeeperLockManager.set_all s m)
  = ZooKeeperLockManager.locks m.
Proof. reflexivity. Qed.


End NeverAcquired.




(** * Computations that do not depend on a part of the state *)

Section Oblivious.
Context {S : Type} (g : S → S).

Lemma oblivious_ret {A} (a : A) : oblivious g (ret a).
Proof. intros s. reflexivity. Qed.

Lemma oblivious_bind {A B} (c : M S A) (k : A → M S B) :
  oblivious g c → (∀ a, oblivious g (k a)) → oblivious g (bind c k).
Proof.
  intros Hc Hk s. unfold bind. rewrite Hc.
  destruct (c s) as [[e|a] s']; simpl; [reflexivity|]. apply Hk.
Qed.

Lemma oblivious_mapM {A B} (f : A → M S B) (l : list A) :
  Forall (λ a, oblivious g (f a)) l → oblivious g (mapM f l).
Proof.
  induction 1 as [|a l Ha Hl IH]; simpl.
  - apply oblivious_ret.
  - apply oblivious_bind; [exact Ha|]. intros b.
    apply oblivious_bind; [exact IH|]. intros bs. apply oblivious_ret.
Qed.

Lemma deepmutate_oblivious {L} (mutator : tree L → M S (tree L)) :
  (∀ x, oblivious g (mutator x)) → ∀ x, oblivious g (deepmutate mutator x).
Proof.
  intros Hm x. induction x as [| | | | |xs IH|xs IH|items IH|] using tree_ind';
    try apply Hm.
  - simpl. apply oblivious_bind; [by apply oblivious_mapM|].
    intros ys. apply oblivious_ret.
  - simpl. apply oblivious_bind; [by apply oblivious_mapM|].
    intros ys. apply oblivious_ret.
  - simpl. apply oblivious_bind.
    + apply oblivious_mapM. eapply Forall_impl; [exact IH|].
      intros kv Hkv. apply oblivious_bind; [exact Hkv|].
      intros v. apply oblivious_ret.
    + intros ys. apply oblivious_ret.
Qed.
End Oblivious.

(** * Properties of the stage registry and of the swap *)

Section RegistryFacts.
Context {TS : Type} `{BaseTableStore TS}.
Import PipeDAGStore.

Implicit Types (s : PipeDAGStore.t TS) (schema : Schema.t).

(** A refused registration changes nothing, and some registered stage
    holds one of the two names. *)
Lemma create_schema_refused schema s :
  is_Some (schemas s !! Schema.name schema)
  ∨ is_Some (schemas s !! Schema.working_name schema) →
  ∃ msg, create_schema schema s = (inl (SchemaError msg), s).
Proof.
  intros Hk. unfold create_schema, bind, get, raise. cbv beta iota.
  destruct (decide (is_Some (schemas s !! Schema.name schema))) as [|Hn];
    [eexists; reflexivity|].
  destruct (decide (is_Some (schemas s !! Schema.working_name schema))) as [|Hw];
    [eexists; reflexivity|].
  destruct Hk; contradiction.
Qed.

Lemma create_schema_schemas schema s :
  schemas (snd (create_schema schema s)) = schemas s
  ∨ (schemas s !! Schema.name schema = None
     ∧ schemas s !! Schema.working_name schema = None
     ∧ schemas (snd (create_schema schema s))
       = <[Schema.working_name schema := schema]>
           (<[Schema.name schema := schema]> (schemas s))).
Proof.
  unfold create_schema, bind, get, raise, modify, on_table_store, zoom.
  cbv beta iota.
  destruct (decide (is_Some (schemas s !! Schema.name schema))) as [|Hn];
    [by left|].
  destruct (decide (is_Some (schemas s !! Schema.working_name schema))) as [|Hw];
    [by left|].
  right. rewrite <- eq_None_not_Some in Hn, Hw. split; [done|]. split; [done|].
  simpl. by destruct (ts_create_schema schema (table_store s)) as [[?|?] ?].
Qed.

(** A registered stage stays registered through later registrations. *)
Lemma create_schema_keeps_registered schema old s :
  registered (schemas s) old →
  registered (schemas (snd (create_schema schema s))) old.
Proof.
  intros [Hn Hw].
  destruct (create_schema_schemas schema s) as [->|(Hn' & Hw' & ->)]; [done|].
  split; rewrite !lookup_insert_ne; try done; congruence.
Qed.

(** A registration that returns has registered the stage. *)
Lemma create_schema_registers schema s s' :
  create_schema schema s = (inr tt, s') → registered (schemas s') schema.
Proof.
  unfold create_schema, bind, get, raise, modify, on_table_store, zoom.
  cbv beta iota.
  destruct (decide (is_Some (schemas s !! Schema.name schema))) as [|Hn];
    [done|].
  destruct (decide (is_Some (schemas s !! Schema.working_name schema)))
    as [|Hw]; [done|].
  simpl. destruct (ts_create_schema schema (table_store s)) as [[?|[]] ?];
    [done|].
  intros [= <-]. simpl. split.
  - destruct (decide (Schema.working_name schema = Schema.name schema)) as [E|E].
    + by rewrite E, lookup_insert_eq.
    + by rewrite lookup_insert_ne, lookup_insert_eq.
  - by rewrite lookup_insert_eq.
Qed.
End RegistryFacts.

(** C8: registering a stage one of whose names is a name of a registered
    stage raises [SchemaError] (the spec's DuplicateStage), and the store,
    registry and table store included, is exactly what it was. *)
Theorem create_schema_duplicate {TS : Type} `{BaseTableStore TS}
    (s : PipeDAGStore.t TS) (schema old : Schema.t) :
  registered (PipeDAGStore.schemas s) old →
  collide schema old →
  ∃ msg, PipeDAGStore.create_schema schema s = (inl (SchemaError msg), s).
Proof.
  intros [Hn Hw] Hc. apply create_schema_refused.
  destruct Hc as [E|[E|[E|E]]]; rewrite E; eauto.
Qed.

Lemma create_schema_duplicate_witness :
  let s := snd (PipeDAGStore.create_schema stage_a
                  (PipeDAGStore.init (RecordingStore.mk [] true) "run")) in
  registered (PipeDAGStore.schemas s) stage_a
  ∧ collide stage_b stage_a
  ∧ ∃ msg, PipeDAGStore.create_schema stage_b s = (inl (SchemaError msg), s).
Proof.
  intros s.
  assert (Hr : registered (PipeDAGStore.schemas s) stage_a)
    by (split; vm_compute; reflexivity).
  assert (Hc : collide stage_b stage_a)
    by (right; right; right; reflexivity).
  split; [exact Hr|]. split; [exact Hc|].
  exact (create_schema_duplicate s stage_b stage_a Hr Hc).
Defined.

Section SwapFacts.
Context {TS : Type} `{BaseTableStore TS}.
Import PipeDAGStore.

Implicit Types (s : PipeDAGStore.t TS) (schema : Schema.t).

(** What the swap does, by the answer of the table store. *)
Lemma swap_schema_fresh schema s :
  Schema.name schema ∉ swapped_schemas s →
  let marked :=
    set_marks (insert (Schema.name schema) SwapInProgress)
      (set_swapped (λ x, {[Schema.name schema]} ∪ x) s) in
  swap_schema schema s
  = match ts_swap_schema schema (table_store s) with
    | (inl e, ts') => (inl e, snd (on_table_store (put ts') marked))
    | (inr a, ts') =>
        (inr a, set_marks (insert (Schema.name schema) HasBeenSwapped)
                  (snd (on_table_store (put ts') marked)))
    end.
Proof.
  intros Hs. cbv zeta.
  unfold swap_schema, perform_swap, bind, get, raise, modify, on_table_store,
    zoom, put, ret. cbv beta iota.
  rewrite decide_False by done. simpl.
  destruct (ts_swap_schema schema (table_store s)) as [[e|a] ts']; reflexivity.
Qed.

Lemma swap_schema_again schema s :
  Schema.name schema ∈ swapped_schemas s →
  ∃ msg, swap_schema schema s = (inl (SchemaError msg), s).
Proof.
  intros Hs. unfold swap_schema, bind, get, raise. cbv beta iota.
  rewrite decide_True by done. eexists; reflexivity.
Qed.

(** No call other than [_reset] takes a stage out of the swapped set. *)
Lemma swap_schema_swapped schema x s :
  x ∈ swapped_schemas s → x ∈ swapped_schemas (snd (swap_schema schema s)).
Proof.
  intros Hx. destruct (decide (Schema.name schema ∈ swapped_schemas s)) as [Hs|Hs].
  - destruct (swap_schema_again schema s Hs) as [msg ->]. done.
  - rewrite swap_schema_fresh by done.
    destruct (ts_swap_schema schema (table_store s)) as [[e|a] ts']; simpl;
      set_solver.
Qed.

Lemma create_schema_swapped schema s :
  swapped_schemas (snd (create_schema schema s)) = swapped_schemas s.
Proof.
  unfold create_schema, bind, get, raise, modify, on_table_store, zoom.
  cbv beta iota. repeat case_decide; try done.
  simpl. by destruct (ts_create_schema schema (table_store s)) as [[?|?] ?].
Qed.

(** A cache lookup for a task of a swapped stage raises [SchemaError]
    before anything is read, and leaves the store as it was. *)
Lemma retrieve_after_swap task s :
  Schema.name (MaterialisingTask.schema task) ∈ swapped_schemas s →
  retrieve_cached_output task s = (inl (SchemaError "Schema already swapped."), s).
Proof.
  intros Hs. unfold retrieve_cached_output, bind, get, raise. cbv beta iota.
  by rewrite decide_True.
Qed.

(** [materialise_task] never reads the swapped set. *)
Lemma materialise_mutator_oblivious task f x :
  oblivious (prod_map id (set_swapped f)) (materialise_mutator task x).
Proof.
  intros [k s0]. destruct x; try reflexivity.
  unfold materialise_mutator, bind, get. cbv beta iota. simpl.
  destruct (heap s0 !! o) as [[tbl|?]|]; try reflexivity.
  unfold next_tbl_id, on_store, on_table_store, zoom, bind, get, put, modify, ret.
  simpl.
  destruct (ts_store_table _ _ (table_store s0)) as [[?|?] ?]; reflexivity.
Qed.

Lemma materialise_task_ignores_swapped task v now f :
  oblivious (set_swapped f) (materialise_task task v now).
Proof.
  intros s.
  pose proof (deepmutate_oblivious (prod_map id (set_swapped f))
                (materialise_mutator task)
                (materialise_mutator_oblivious task f) v (0%N, s)) as Hd.
  unfold materialise_task, bind, get, raise. cbv beta iota. simpl.
  case_decide; [|done].
  simpl in Hd. rewrite Hd.
  destruct (deepmutate (materialise_mutator task) v (0%N, s)) as [[e|mv] [k1 s1]];
    [done|]. simpl.
  unfold lift. destruct (json_serialise _) as [e|j]; [done|].
  unfold on_table_store, zoom. simpl.
  destruct (ts_store_task_metadata _ (table_store s1)) as [[?|?] ?]; done.
Qed.
End SwapFacts.

(** C2, as the code has it: [swap_schema] puts the stage into the swapped
    set before it calls the table store. Whatever the table store answers,
    its answer is what [swap_schema] returns or raises, and the stage is in
    the swapped set afterwards; after a failure the stage is still marked
    as swap in progress, and another [swap_schema] is refused. *)
Theorem swap_schema_marks_first {TS : Type} `{BaseTableStore TS}
    (s : PipeDAGStore.t TS) (schema : Schema.t) :
  Schema.name schema ∉ PipeDAGStore.swapped_schemas s →
  let answer := ts_swap_schema schema (PipeDAGStore.table_store s) in
  let r := PipeDAGStore.swap_schema schema s in
  fst r = fst answer
  ∧ PipeDAGStore.table_store (snd r) = snd answer
  ∧ PipeDAGStore.swapped_schemas (snd r)
    = {[Schema.name schema]} ∪ PipeDAGStore.swapped_schemas s
  ∧ (∀ e, fst answer = inl e →
          PipeDAGStore.swap_marks (snd r) !! Schema.name schema
          = Some PipeDAGStore.SwapInProgress)
  ∧ ∃ msg, PipeDAGStore.swap_schema schema (snd r) = (inl (SchemaError msg), snd r).
Proof.
  intros Hs answer r. subst r answer.
  rewrite swap_schema_fresh by done.
  destruct (ts_swap_schema schema (PipeDAGStore.table_store s)) as [[e|[]] ts'];
    simpl; (split; [reflexivity|]); (split; [reflexivity|]);
    (split; [reflexivity|]); split.
  - intros _ _. apply lookup_insert_eq.
  - apply swap_schema_again. simpl. set_solver.
  - intros e [=].
  - apply swap_schema_again. simpl. set_solver.
Qed.

Lemma swap_schema_marks_first_witness :
  let s := store_a false in
  let r := PipeDAGStore.swap_schema stage_a s in
  (Schema.name stage_a ∉ PipeDAGStore.swapped_schemas s)
  ∧ fst r = inl (BackendError "swap failed")
  ∧ PipeDAGStore.swapped_schemas (snd r)
    = {[Schema.name stage_a]} ∪ PipeDAGStore.swapped_schemas s.
Proof.
  intros s r.
  assert (Hs : Schema.name stage_a ∉ PipeDAGStore.swapped_schemas s)
    by (vm_compute; set_solver).
  destruct (swap_schema_marks_first s stage_a Hs) as (H1 & _ & H3 & _).
  split; [exact Hs|]. split; [exact H1 | exact H3].
Defined.

(** C2 fails: when the table store's swap fails, the stage is in the
    swapped set all the same, and the set is not what it was. *)
Lemma swap_schema_failure_keeps_mark :
  let s := store_a false in
  let r := PipeDAGStore.swap_schema stage_a s in
  ts_swap_schema stage_a (PipeDAGStore.table_store s)
  = (inl (BackendError "swap failed"), PipeDAGStore.table_store s)
  ∧ fst r = inl (BackendError "swap failed")
  ∧ ("sales" ∉ PipeDAGStore.swapped_schemas s)
  ∧ "sales" ∈ PipeDAGStore.swapped_schemas (snd r).
Proof.
  cbv zeta. split; [reflexivity|]. split; [reflexivity|].
  split; vm_compute; set_solver.
Qed.

(** After a swap that returned, a cache lookup for a task of the swapped
    stage raises [SchemaError] and leaves the store as it was. *)
Lemma retrieve_cached_output_after_swap {TS : Type} `{BaseTableStore TS}
    (s s' : PipeDAGStore.t TS) (task : MaterialisingTask.t) :
  PipeDAGStore.swap_schema (MaterialisingTask.schema task) s = (inr tt, s') →
  PipeDAGStore.retrieve_cached_output task s'
  = (inl (SchemaError "Schema already swapped."), s').
Proof.
  intros Hswap. apply retrieve_after_swap.
  destruct (decide (Schema.name (MaterialisingTask.schema task)
                    ∈ PipeDAGStore.swapped_schemas s)) as [Hs|Hs].
  - destruct (swap_schema_again _ s Hs) as [msg Hm]. congruence.
  - revert Hswap. rewrite swap_schema_fresh by done.
    destruct (ts_swap_schema _ (PipeDAGStore.table_store s)) as [[e|[]] ts'];
      [done|].
    intros [= <-]. simpl. apply elem_of_union_l, elem_of_singleton. reflexivity.
Qed.

(** C1 fails in [materialise_task]: with [stage_a] registered and swapped,
    materialising a task of [stage_a] returns its value, and the table
    store has received the table and the metadata. *)
Theorem materialise_task_after_swap :
  let s0 := with_output (store_a true) in
  let s1 := snd (PipeDAGStore.swap_schema stage_a s0) in
  let r := PipeDAGStore.materialise_task task_a output_a 0 s1 in
  let table := Table.mk (Some 5%nat) (Some stage_a) (Some "build_0000_abc") (Some "abc") in
  fst (PipeDAGStore.swap_schema stage_a s0) = inr tt
  ∧ fst (PipeDAGStore.retrieve_cached_output task_a s1)
    = inl (SchemaError "Schema already swapped.")
  ∧ fst r = inr output_a
  ∧ RecordingStore.calls (PipeDAGStore.table_store (snd r))
    = RecordingStore.calls (PipeDAGStore.table_store s1) ++
      [ RecordingStore.StoreTable table false;
        RecordingStore.StoreTaskMetadata
          (TaskMetadata.mk "build" "sales" (Some "v1") 0 "run0" "abc"
             (dq "{'k':[{'_pipedag_type_':'table','cache_key':'abc','name':'build_0000_abc','schema':'sales'}]}")) ].
Proof. vm_compute. repeat split; reflexivity. Qed.

(** * Properties of the cache key *)

Section DigestShape.
Import SHA256.

Lemma be_bytes_length n x : length (be_bytes n x) = n.
Proof.
  revert x. induction n as [|n IH]; intros x; simpl; [done|].
  rewrite length_app, IH. simpl. lia.
Qed.

Lemma round_length st kw : length st = 8 → length (round st kw) = 8.
Proof.
  intros Hl. do 9 (destruct st as [|? st]; try discriminate Hl). reflexivity.
Qed.

Lemma rounds_length kws st :
  length st = 8 → length (fold_left round kws st) = 8.
Proof.
  revert st. induction kws as [|kw kws IH]; intros st Hl; simpl; [done|].
  apply IH, round_length, Hl.
Qed.

Lemma compress_length h block : length h = 8 → length (compress h block) = 8.
Proof.
  intros Hl. unfold compress. rewrite length_zip_with.
  rewrite rounds_length by done. lia.
Qed.

Lemma digest_length msg : length (digest msg) = 32.
Proof.
  unfold digest.
  assert (Hl : ∀ blocks h, length h = 8 → length (fold_left compress blocks h) = 8).
  { induction blocks as [|b bs IH]; intros h Hh; simpl; [done|].
    apply IH, compress_length, Hh. }
  specialize (Hl (chunks (length (pad msg) / 64) 64 (pad msg)) H0 eq_refl).
  revert Hl. generalize (fold_left compress
                           (chunks (length (pad msg) / 64) 64 (pad msg)) H0).
  intros ws Hl.
  do 9 (destruct ws as [|? ws]; try discriminate Hl). reflexivity.
Qed.

Lemma hex_digit_is_hex d : (d < 16)%N → is_hex_char (hex_digit d) = true.
Proof.
  intros Hd. unfold hex_digit, is_hex_char.
  destruct (d <? 10)%N eqn:E.
  - apply N.ltb_lt in E. rewrite N_ascii_embedding by lia.
    apply orb_true_iff. left. apply andb_true_iff. split; apply N.leb_le; lia.
  - apply N.ltb_ge in E. rewrite N_ascii_embedding by lia.
    apply orb_true_iff. right. apply andb_true_iff. split; apply N.leb_le; lia.
Qed.

Lemma be_bytes_small n x : Forall (λ b, (b < 256)%N) (be_bytes n x).
Proof.
  revert x. induction n as [|n IH]; intros x; simpl; [constructor|].
  apply Forall_app. split; [apply IH|].
  constructor; [|constructor]. apply N.mod_lt. done.
Qed.

Lemma digest_small msg : Forall (λ b, (b < 256)%N) (digest msg).
Proof.
  unfold digest. induction (fold_left compress _ H0) as [|w ws IH].
  - constructor.
  - rewrite bind_cons. apply Forall_app. split; [apply (be_bytes_small 4)|exact IH].
Qed.

Lemma hexdigest_chars data :
  length (list_ascii_of_string (hexdigest data)) = 64
  ∧ Forall (λ c, is_hex_char c = true) (list_ascii_of_string (hexdigest data)).
Proof.
  unfold hexdigest. rewrite list_ascii_of_string_of_list_ascii.
  pose proof (digest_length (N_of_ascii <$> data)) as Hl.
  pose proof (digest_small (N_of_ascii <$> data)) as Hs.
  revert Hl Hs. generalize (digest (N_of_ascii <$> data)) as bs. intros bs Hl Hs.
  split.
  - assert (H2 : ∀ l : list N,
      length (l ≫= λ b, [hex_digit (b / 16); hex_digit (b mod 16)]) = 2 * length l).
    { induction l as [|b l IH]; [done|]. rewrite bind_cons, length_app, IH.
      simpl. lia. }
    rewrite H2, Hl. reflexivity.
  - clear Hl. induction Hs as [|b bs Hb Hbs IH]; [constructor|].
    rewrite bind_cons.
    constructor; [|constructor; [|exact IH]]; apply hex_digit_is_hex.
    + apply N.Div0.div_lt_upper_bound. lia.
    + apply N.mod_lt. done.
Qed.
End DigestShape.

Lemma substring_prefix m s :
  list_ascii_of_string (String.substring 0 m s) = take m (list_ascii_of_string s).
Proof.
  revert s. induction m as [|m IH]; intros [|c s]; simpl; try reflexivity.
  by rewrite IH.
Qed.

Lemma first_20_hex_shape record :
  length (list_ascii_of_string (first_20_hex_of_sha256 record)) = 20
  ∧ Forall (λ c, is_hex_char c = true)
           (list_ascii_of_string (first_20_hex_of_sha256 record)).
Proof.
  unfold first_20_hex_of_sha256. rewrite substring_prefix.
  destruct (hexdigest_chars (list_ascii_of_string record)) as [Hl Hc].
  split.
  - rewrite length_take, Hl. reflexivity.
  - by apply Forall_take.
Qed.

(** C3, as the code has it: the cache key is the first 20 hexadecimal
    characters of the SHA-256 of
    ["PYDIVERSE-PIPEDAG-TASK|" + original_name + "|" + v + "|" + input_json],
    where [v] is the version when it is a non-empty string and the literal
    "None" when the version is [None] or empty; for "build", "v1" and "{}"
    this is 4be4cb8e0d67e4c2fa65, the start of the digest of
    "PYDIVERSE-PIPEDAG-TASK|build|v1|{}". *)
Theorem compute_task_cache_key_spec (task : MaterialisingTask.t) (input_json : string) :
  let v := match MaterialisingTask.version task with
           | Some (String c s) => String c s
           | Some EmptyString | None => "None"
           end in
  let key := PipeDAGStore.compute_task_cache_key task input_json in
  key = first_20_hex_of_sha256
          (cache_key_record (MaterialisingTask.original_name task) v input_json)
  ∧ length (list_ascii_of_string key) = 20
  ∧ Forall (λ c, is_hex_char c = true) (list_ascii_of_string key)
  ∧ PipeDAGStore.compute_task_cache_key
      (MaterialisingTask.mk "build" (Some "v1") stage_a "" false) "{}"
    = "4be4cb8e0d67e4c2fa65"
  ∧ first_20_hex_of_sha256 "PYDIVERSE-PIPEDAG-TASK|build|v1|{}" = "4be4cb8e0d67e4c2fa65".
Proof.
  intros v key.
  assert (Hk : key = first_20_hex_of_sha256
            (cache_key_record (MaterialisingTask.original_name task) v input_json)).
  { subst key v. unfold PipeDAGStore.compute_task_cache_key, first_20_hex_of_sha256,
      cache_key_record, str_or.
    do 3 f_equal.
    destruct (MaterialisingTask.version task) as [[|c s]|]; reflexivity. }
  split; [exact Hk|]. rewrite Hk.
  split; [apply first_20_hex_shape|]. split; [apply first_20_hex_shape|].
  split; vm_compute; reflexivity.
Qed.

(** C3 fails for an empty version string: the key of ("build", "", "{}")
    is not the start of the digest of "PYDIVERSE-PIPEDAG-TASK|build||{}". *)
Lemma cache_key_of_empty_version :
  let task := MaterialisingTask.mk "build" (Some "") stage_a "" false in
  version_or_None (MaterialisingTask.version task) = ""
  ∧ PipeDAGStore.compute_task_cache_key task "{}"
    ≠ first_20_hex_of_sha256
        (cache_key_record "build"
           (version_or_None (MaterialisingTask.version task)) "{}")
  ∧ PipeDAGStore.compute_task_cache_key task "{}" = "7c3770272722eb66b917"
  ∧ first_20_hex_of_sha256 "PYDIVERSE-PIPEDAG-TASK|build||{}" = "43727b319b7324d676ca".
Proof.
  cbv zeta. split; [reflexivity|].
  split; [vm_compute; discriminate|]. split; vm_compute; reflexivity.
Qed.

(** C10: a task whose version is the empty string gets the cache key of
    the same task with version [None]: both hash the record with the
    literal "None" in the place of the version. *)
Theorem cache_key_empty_version_is_None
    (original_name input_json cache_key : string) (schema : Schema.t) (lazy : bool) :
  let with_version v := MaterialisingTask.mk original_name v schema cache_key lazy in
  PipeDAGStore.compute_task_cache_key (with_version (Some "")) input_json
  = PipeDAGStore.compute_task_cache_key (with_version None) input_json
  ∧ PipeDAGStore.compute_task_cache_key (with_version None) input_json
    = first_20_hex_of_sha256 (cache_key_record original_name "None" input_json).
Proof. split; reflexivity. Qed.

(** * Digits and strings *)

Section Digits.
Import JSONDecoder.

Lemma digits_of_uint_digits u : Forall (λ c, is_digit c = true) (digits_of_uint u).
Proof. induction u; simpl; constructor; done. Qed.

(** Reading back the digits that were printed. *)
Lemma uint_of_digits_of_uint u : uint_of_digits (digits_of_uint u) = u.
Proof.
  unfold uint_of_digits. induction u as [|u IH|u IH|u IH|u IH|u IH|u IH|u IH|u IH|u IH|u IH];
    simpl; [reflexivity|..]; rewrite IH; reflexivity.
Qed.

Lemma digits_of_uint_inj u v : digits_of_uint u = digits_of_uint v → u = v.
Proof.
  intros E. rewrite <- (uint_of_digits_of_uint u), <- (uint_of_digits_of_uint v).
  by rewrite E.
Qed.

Lemma uint_of_digits_zeros n ds :
  N.of_uint (uint_of_digits (repeat "0"%char n ++ ds)) = N.of_uint (uint_of_digits ds).
Proof. induction n as [|n IH]; [reflexivity|]. exact IH. Qed.

Lemma span_digits_app ds rest :
  Forall (λ c, is_digit c = true) ds →
  match rest with c :: _ => is_digit c = false | [] => True end →
  span_digits (ds ++ rest) = (ds, rest).
Proof.
  intros Hds Hrest. induction Hds as [|c ds Hc Hds IH]; simpl.
  - destruct rest as [|c r]; [reflexivity|]. simpl. by rewrite Hrest.
  - by rewrite Hc, IH.
Qed.
End Digits.

Lemma list_ascii_of_string_app (a b : string) :
  list_ascii_of_string (a +:+ b) = list_ascii_of_string a ++ list_ascii_of_string b.
Proof. induction a as [|c a IH]; simpl; [reflexivity|]. by rewrite IH. Qed.

Lemma list_ascii_of_string_inj (a b : string) :
  list_ascii_of_string a = list_ascii_of_string b → a = b.
Proof.
  intros E. rewrite <- (string_of_list_ascii_of_string a),
    <- (string_of_list_ascii_of_string b). by rewrite E.
Qed.

Lemma string_app_inv_head (p a b : string) : p +:+ a = p +:+ b → a = b.
Proof.
  intros E. apply list_ascii_of_string_inj.
  apply (f_equal list_ascii_of_string) in E.
  rewrite !list_ascii_of_string_app in E. by apply app_inv_head in E.
Qed.

Lemma string_app_inv_tail (a b t : string) : a +:+ t = b +:+ t → a = b.
Proof.
  intros E. apply list_ascii_of_string_inj.
  apply (f_equal list_ascii_of_string) in E.
  rewrite !list_ascii_of_string_app in E. by apply app_inv_tail in E.
Qed.

(** [f'{k:04d}'] reads back as [k]: it is the decimal numeral of [k] behind
    as many zeros as it takes to reach four characters. *)
Lemma format_04d_value k :
  N.of_uint (JSONDecoder.uint_of_digits (list_ascii_of_string (format_04d k))) = k.
Proof.
  unfold format_04d. rewrite list_ascii_of_string_of_list_ascii.
  rewrite uint_of_digits_zeros, uint_of_digits_of_uint.
  apply DecimalN.Unsigned.of_to.
Qed.

Lemma format_04d_inj j k : format_04d j = format_04d k → j = k.
Proof.
  intros E. rewrite <- (format_04d_value j), <- (format_04d_value k). by rewrite E.
Qed.

Lemma format_04d_length k : (4 ≤ String.length (format_04d k))%nat.
Proof.
  unfold format_04d.
  assert (Hl : ∀ t, String.length (string_of_list_ascii t) = length t).
  { induction t as [|c t IH]; simpl; [done|]. by rewrite IH. }
  rewrite Hl, length_app, repeat_length. lia.
Qed.

Lemma table_name_inj task j k :
  PipeDAGStore.table_name task j = PipeDAGStore.table_name task k → j = k.
Proof.
  unfold PipeDAGStore.table_name. intros E.
  apply string_app_inv_head in E. apply string_app_inv_head in E.
  apply string_app_inv_tail in E.
  by apply format_04d_inj.
Qed.

(** * The names that [materialise_task] gives to tables *)

Lemma bind_run {S A B} (c : M S A) (k : A → M S B) (s : S) :
  bind c k s = match c s with
               | (inr a, s') => k a s'
               | (inl e, s') => (inl e, s')
               end.
Proof. reflexivity. Qed.

Section Walk.
Context {S L : Type}.

Lemma mapM_app {A B} (f : A → M S B) (l1 l2 : list A) (s : S) :
  mapM f (l1 ++ l2) s
  = (do a <- mapM f l1; do b <- mapM f l2; ret (a ++ b)) s.
Proof.
  revert s. induction l1 as [|x l1 IH]; intros s.
  - simpl. rewrite !bind_run. simpl. rewrite bind_run.
    by destruct (mapM f l2 s) as [[?|?] ?].
  - simpl. rewrite !bind_run. destruct (f x s) as [[e|b] s1]; [reflexivity|].
    rewrite !bind_run, IH, !bind_run.
    destruct (mapM f l1 s1) as [[e|bs] s2]; [reflexivity|].
    rewrite !bind_run. unfold ret. simpl. rewrite bind_run.
    by destruct (mapM f l2 s2) as [[e|cs] s3].
Qed.

Lemma agrees_mapM {A A' C} (f : A → M S A') (g : C → M S C) (lv : A → list C)
    (expected : A → A') (l : list A) :
  Forall (λ a, ∀ s, agrees (f a s) (mapM g (lv a) s) (expected a) (lv a)) l →
  ∀ s, agrees (mapM f l s) (mapM g (concat (lv <$> l)) s)
              (expected <$> l) (concat (lv <$> l)).
Proof.
  induction 1 as [|a l Ha Hl IH]; intros s.
  - split; [reflexivity|]. simpl. done.
  - rewrite !fmap_cons. simpl concat. rewrite mapM_app. simpl mapM.
    rewrite !bind_run. destruct (Ha s) as [E1 E2]. revert E1 E2.
    destruct (f a s) as [[e|a'] s1], (mapM g (lv a) s) as [[e'|cs] s1'];
      simpl; intros E1 E2; subst; try done.
    destruct E2 as [-> ->].
    rewrite !bind_run. destruct (IH s1') as [E1 E2]. revert E1 E2.
    destruct (mapM f l s1') as [[e|l'] s2],
             (mapM g (concat (lv <$> l)) s1') as [[e'|cs'] s2'];
      simpl; intros E1 E2; subst; try done.
    destruct E2 as [-> ->]. done.
Qed.

(** A walk with a mutator that hands back its argument does to the state
    what the mutator does to the leaves, one after the other. *)
Lemma deepmutate_leaves (mutator : tree L → M S (tree L)) :
  (∀ x s y, fst (mutator x s) = inr y → y = x) →
  ∀ x s, agrees (deepmutate mutator x s) (mapM mutator (leaves x) s) x (leaves x).
Proof.
  intros Hm.
  assert (Hleaf : ∀ x s, leaves x = [x] → deepmutate mutator x = mutator x →
    agrees (deepmutate mutator x s) (mapM mutator (leaves x) s) x (leaves x)).
  { intros x s -> ->. simpl. rewrite bind_run.
    pose proof (Hm x s) as Hx.
    destruct (mutator x s) as [[e|y] s1]; simpl in *; [done|].
    rewrite (Hx y eq_refl). done. }
  induction x as [|b|n|f|str|xs IH|xs IH|items IH|o] using tree_ind'; intros s;
    try (apply Hleaf; reflexivity).
  - (* list *)
    simpl. rewrite bind_run.
    destruct (agrees_mapM (deepmutate mutator) mutator leaves id xs IH s)
      as [E1 E2]. revert E1 E2. rewrite list_fmap_id.
    destruct (mapM (deepmutate mutator) xs s) as [[e|ys] s1],
             (mapM mutator (concat (leaves <$> xs)) s) as [[e'|zs] s1'];
      simpl; intros E1 E2; subst; try done.
    destruct E2 as [-> ->]. done.
  - (* tuple *)
    simpl. rewrite bind_run.
    destruct (agrees_mapM (deepmutate mutator) mutator leaves id xs IH s)
      as [E1 E2]. revert E1 E2. rewrite list_fmap_id.
    destruct (mapM (deepmutate mutator) xs s) as [[e|ys] s1],
             (mapM mutator (concat (leaves <$> xs)) s) as [[e'|zs] s1'];
      simpl; intros E1 E2; subst; try done.
    destruct E2 as [-> ->]. done.
  - (* dict *)
    simpl. rewrite bind_run.
    set (g := λ kv : string * tree L, do v <- deepmutate mutator kv.2; ret (kv.1, v)).
    set (lv := λ kv : string * tree L, leaves kv.2).
    assert (Hg : Forall (λ kv, ∀ s, agrees (g kv s) (mapM mutator (lv kv) s)
                                     (id kv) (lv kv)) items).
    { eapply Forall_impl; [exact IH|]. intros [k v] Hv s'. simpl in Hv.
      unfold g, lv. simpl. rewrite bind_run.
      destruct (Hv s') as [E1 E2]. revert E1 E2.
      destruct (deepmutate mutator v s') as [[e|v'] s1],
               (mapM mutator (leaves v) s') as [[e'|zs] s1'];
        simpl; intros E1 E2; subst; try done.
      destruct E2 as [-> ->]. done. }
    destruct (agrees_mapM g mutator lv id items Hg s) as [E1 E2].
    revert E1 E2. rewrite list_fmap_id.
    destruct (mapM g items s) as [[e|ys] s1],
             (mapM mutator (concat (lv <$> items)) s) as [[e'|zs] s1'];
      simpl; intros E1 E2; subst; try done.
    destruct E2 as [-> ->]. done.
Qed.
End Walk.

Section Naming.
Context {TS : Type} `{BaseTableStore TS}.
Import PipeDAGStore.

Implicit Types (s : PipeDAGStore.t TS) (h : gmap addr pyobj) (task : MaterialisingTask.t).

(** One call of the mutator. *)
Lemma materialise_mutator_step task x k s :
  materialise_mutator task x (k, s)
  = match is_table_ref (heap s) x with
    | None => (inr x, (k, s))
    | Some a =>
        let tbl := named task (heap s) k a in
        let answer := ts_store_table tbl (MaterialisingTask.lazy task) (table_store s) in
        (match answer.1 with inr _ => inr x | inl e => inl e end,
         (N.succ k, with_table_store answer.2 (set_heap (insert a (OTable tbl)) s)))
    end.
Proof.
  destruct x; try reflexivity.
  unfold materialise_mutator, is_table_ref. rewrite bind_run. simpl.
  destruct (heap s !! o) as [[tbl|?]|] eqn:E; try reflexivity.
  unfold next_tbl_id, on_store, on_table_store, zoom, bind, get, put, modify, ret.
  simpl. unfold named, obj_at. rewrite E.
  destruct (ts_store_table _ _ (table_store s)) as [[?|?] ?]; reflexivity.
Qed.

Lemma materialise_mutator_returns_arg task x ks y :
  fst (materialise_mutator task x ks) = inr y → y = x.
Proof.
  destruct ks as [k s]. rewrite materialise_mutator_step.
  destruct (is_table_ref (heap s) x); simpl; [|congruence].
  destruct (ts_store_table _ _ _) as [[?|?] ?]; simpl; congruence.
Qed.

(** Naming a table keeps it a table, with the same payload. *)
Lemma is_table_ref_insert h a t n :
  is_Some (is_table_ref h (PObj a)) →
  is_table_ref (<[a := OTable t]> h) n = is_table_ref h n.
Proof.
  intros Ha. destruct n; try reflexivity. simpl in *.
  destruct (decide (a = o)) as [->|Hne].
  - rewrite lookup_insert_eq. destruct (h !! o) as [[?|?]|]; by try destruct Ha.
  - by rewrite lookup_insert_ne.
Qed.

Lemma omap_cons_eq {A B} (f : A → option B) (x : A) (l : list A) :
  omap f (x :: l) = match f x with Some y => y :: omap f l | None => omap f l end.
Proof. reflexivity. Qed.

Lemma table_refs_insert h a t (ns : list (tree addr)) :
  is_Some (is_table_ref h (PObj a)) →
  omap (is_table_ref (<[a := OTable t]> h)) ns = omap (is_table_ref h) ns.
Proof.
  intros Ha. induction ns as [|n ns IH]; [reflexivity|].
  simpl. rewrite is_table_ref_insert by done.
  destruct (is_table_ref h n); [f_equal|]; exact IH.
Qed.

Lemma obj_at_insert task h k a b :
  obj_at (<[a := OTable (named task h k a)]> h) b = obj_at h b.
Proof.
  unfold obj_at. destruct (decide (a = b)) as [->|Hne].
  - by rewrite lookup_insert_eq.
  - by rewrite lookup_insert_ne.
Qed.

Lemma named_insert task h k k' a b :
  named task (<[a := OTable (named task h k a)]> h) k' b = named task h k' b.
Proof. unfold named at 1 3. by rewrite obj_at_insert. Qed.

Lemma is_table_ref_Some h n a :
  is_table_ref h n = Some a → n = PObj a ∧ is_Some (is_table_ref h (PObj a)).
Proof.
  destruct n; try discriminate. simpl.
  destruct (h !! o) as [[?|?]|] eqn:E; try discriminate.
  intros [= ->]. rewrite E. eauto.
Qed.

(** The mutator over the leaves: the counter advances by one per table
    reference, the heap holds the new names, the table store has received
    the tables in order, and nothing else has changed. *)
Lemma materialise_leaves task ns :
  ∀ k s ys k' s',
    mapM (materialise_mutator task) ns (k, s) = (inr ys, (k', s')) →
    let refs := omap (is_table_ref (heap s)) ns in
    k' = (k + N.of_nat (length refs))%N
    ∧ heap s' = assign task k refs (heap s)
    ∧ schemas s' = schemas s ∧ swapped_schemas s' = swapped_schemas s
    ∧ run_id s' = run_id s ∧ swap_marks s' = swap_marks s
    ∧ ∃ us, mapM (λ t, ts_store_table t (MaterialisingTask.lazy task))
                 (named_from task (heap s) k refs) (table_store s)
            = (inr us, table_store s').
Proof.
  induction ns as [|n ns IH]; intros k s ys k' s'.
  - simpl. intros [= <- <- <-]. rewrite N.add_0_r. repeat split; eauto.
  - simpl mapM. rewrite bind_run, materialise_mutator_step.
    destruct (is_table_ref (heap s) n) as [a|] eqn:En.
    + cbv zeta. rewrite omap_cons_eq, En.
      destruct (ts_store_table (named task (heap s) k a) _ (table_store s))
        as [[e|u] ts1] eqn:Ets; simpl; [done|].
      rewrite bind_run.
      set (s1 := with_table_store ts1
                   (set_heap (insert a (OTable (named task (heap s) k a))) s)).
      destruct (mapM (materialise_mutator task) ns (N.succ k, s1))
        as [[e|zs] [k2 s2]] eqn:Em; [done|].
      intros [= <- <- <-].
      apply IH in Em. cbv zeta in Em.
      destruct (is_table_ref_Some _ _ _ En) as [-> Ha].
      assert (Hrefs : omap (is_table_ref (heap s1)) ns
                      = omap (is_table_ref (heap s)) ns).
      { apply table_refs_insert, Ha. }
      rewrite Hrefs in Em. destruct Em as (-> & Hh & Hs & Hw & Hr & Hm & us & Hus).
      cbv zeta. split; [cbn [length]; rewrite Nat2N.inj_succ; lia|].
      split; [exact Hh|].
      split; [exact Hs|]. split; [exact Hw|]. split; [exact Hr|]. split; [exact Hm|].
      exists (u :: us). unfold named_from.
      rewrite bind_run. change (N.of_nat 0) with 0%N.
      rewrite N.add_0_r, Ets, bind_run.
      assert (Hn : imap ((λ i b, named task (heap s) (k + N.of_nat i) b) ∘ Datatypes.S)
                     (omap (is_table_ref (heap s)) ns)
                   = named_from task (heap s1) (N.succ k)
                       (omap (is_table_ref (heap s)) ns)).
      { unfold named_from. apply imap_ext. intros i b _. simpl.
        rewrite named_insert. f_equal. lia. }
      rewrite Hn.
      match goal with
      | |- context [mapM ?f ?l ts1] =>
          change (mapM f l ts1) with (mapM f l (table_store s1))
      end.
      rewrite Hus. reflexivity.
    + rewrite omap_cons_eq, En. rewrite bind_run.
      destruct (mapM (materialise_mutator task) ns (k, s))
        as [[e|zs] [k2 s2]] eqn:Em; [done|].
      intros [= <- <- <-]. by apply IH in Em.
Qed.

(** The name that stays with a table is the one of the last reference
    to it. *)
Lemma assign_lookup task refs :
  ∀ k h i a,
    refs !! i = Some a → a ∉ drop (Datatypes.S i) refs →
    assign task k refs h !! a = Some (OTable (named task h (k + N.of_nat i) a)).
Proof.
  assert (Hout : ∀ refs k h a, a ∉ refs → assign task k refs h !! a = h !! a).
  { clear refs. induction refs as [|b refs IH]; intros k h a Ha; [done|].
    simpl. rewrite IH by set_solver. apply lookup_insert_ne. set_solver. }
  induction refs as [|b refs IH]; intros k h i a Hi Hlast; [done|].
  destruct i as [|i]; simpl in *.
  - injection Hi as ->. rewrite Hout by done.
    rewrite lookup_insert_eq, N.add_0_r. reflexivity.
  - rewrite (IH _ _ i a Hi Hlast), named_insert. do 3 f_equal. lia.
Qed.
End Naming.

(** C9: in an invocation of [materialise_task] that returns, the table
    store is handed the tables that the walk of the value encounters, in
    this order, the k-th of them (from 0, whatever earlier invocations did)
    under the name [<original_name>_<k>_<cache_key>] with [k] in decimal,
    padded with zeros to four digits or more; the name stays with the table
    unless the value refers to the same table again; and two counters never
    give the same name, 10000 and beyond included. *)
Theorem materialise_task_names {TS : Type} `{BaseTableStore TS}
    (task : MaterialisingTask.t) (value r : tree PipeDAGStore.addr) (now : nat)
    (s s' : PipeDAGStore.t TS) :
  PipeDAGStore.materialise_task task value now s = (inr r, s') →
  let h := PipeDAGStore.heap s in
  let refs := table_refs h value in
  r = value
  ∧ (∃ ts1 us metadata,
       mapM (λ t, ts_store_table t (MaterialisingTask.lazy task))
            (imap (λ k a, named task h (N.of_nat k) a) refs)
            (PipeDAGStore.table_store s) = (inr us, ts1)
       ∧ ts_store_task_metadata metadata ts1 = (inr tt, PipeDAGStore.table_store s'))
  ∧ (∀ k a, refs !! k = Some a → a ∉ drop (S k) refs →
            PipeDAGStore.heap s' !! a = Some (OTable (named task h (N.of_nat k) a)))
  ∧ (∀ k a, Table.name (named task h k a)
            = Some (MaterialisingTask.original_name task +:+ "_" +:+ format_04d k
                    +:+ "_" +:+ MaterialisingTask.cache_key task))
  ∧ (∀ j k, PipeDAGStore.table_name task j = PipeDAGStore.table_name task k → j = k)
  ∧ (∀ k, (4 ≤ String.length (format_04d k))%nat
          ∧ N.of_uint (JSONDecoder.uint_of_digits
                         (list_ascii_of_string (format_04d k))) = k)
  ∧ format_04d 0 = "0000" ∧ format_04d 42 = "0042" ∧ format_04d 9999 = "9999"
  ∧ format_04d 10000 = "10000".
Proof.
  intros Hrun h refs.
  assert (Hmain : r = value
    ∧ (∃ ts1 us metadata,
         mapM (λ t, ts_store_table t (MaterialisingTask.lazy task))
              (imap (λ k a, named task h (N.of_nat k) a) refs)
              (PipeDAGStore.table_store s) = (inr us, ts1)
         ∧ ts_store_task_metadata metadata ts1 = (inr tt, PipeDAGStore.table_store s'))
    ∧ PipeDAGStore.heap s' = assign task 0 refs h).
  { revert Hrun. unfold PipeDAGStore.materialise_task.
    rewrite bind_run. simpl. case_decide; [|done].
    rewrite bind_run.
    destruct (deepmutate_leaves (PipeDAGStore.materialise_mutator task)
                (materialise_mutator_returns_arg task) value (0%N, s)) as [E1 E2].
    revert E1 E2.
    destruct (deepmutate (PipeDAGStore.materialise_mutator task) value (0%N, s))
      as [[e|mv] [k1 s1]],
      (mapM (PipeDAGStore.materialise_mutator task) (leaves value) (0%N, s))
      as [[e'|zs] [k1' s1']] eqn:Em; simpl; intros E1 E2; try done.
    destruct E2 as [-> ->]. injection E1 as <- <-.
    apply materialise_leaves in Em. cbv zeta in Em.
    destruct Em as (_ & Hh & _ & _ & _ & _ & us & Hus).
    rewrite bind_run. simpl. unfold lift. rewrite bind_run.
    destruct (PipeDAGStore.json_serialise _) as [e|j]; [done|].
    rewrite bind_run. unfold PipeDAGStore.on_table_store, zoom.
    destruct (ts_store_task_metadata _ (PipeDAGStore.table_store s1))
      as [[e|[]] ts2] eqn:Emd; [done|].
    simpl. intros [= <- <-]. simpl.
    split; [reflexivity|]. split; [|exact Hh].
    eexists _, us, _. split; [exact Hus | exact Emd]. }
  destruct Hmain as (Hr & Hts & Hh).
  split; [exact Hr|]. split; [exact Hts|]. split.
  { intros k a Hk Hlast. rewrite Hh.
    rewrite (assign_lookup task refs 0 h k a Hk Hlast). reflexivity. }
  split; [reflexivity|]. split; [apply table_name_inj|].
  split; [intros k; split; [apply format_04d_length | apply format_04d_value]|].
  repeat split; reflexivity.
Qed.

Lemma materialise_task_names_witness :
  let s := with_output (store_a true) in
  let s' := snd (PipeDAGStore.materialise_task task_a output_a 0 s) in
  PipeDAGStore.materialise_task task_a output_a 0 s = (inr output_a, s')
  ∧ PipeDAGStore.heap s' !! 1%nat
    = Some (OTable (Table.mk (Some 5%nat) (Some stage_a) (Some "build_0000_abc")
                             (Some "abc"))).
Proof.
  intros s s'.
  assert (Hrun : PipeDAGStore.materialise_task task_a output_a 0 s = (inr output_a, s'))
    by (vm_compute; reflexivity).
  split; [exact Hrun|].
  destruct (materialise_task_names task_a output_a output_a 0 s s' Hrun)
    as (_ & _ & Hheap & _).
  apply (Hheap 0%nat 1%nat); [reflexivity|]. vm_compute. apply not_elem_of_nil.
Defined.

(** * The decoder reads what the encoder prints *)

Section Strings.
Import JSONEncoder JSONDecoder.

(** One character, escaped and scanned. *)
Lemma scanstring_escape_char c r :
  scanstring (escape_char c ++ r)
  = let? p := scanstring r in inr (c :: p.1, p.2).
Proof. destruct c as [[] [] [] [] [] [] [] []]; reflexivity. Qed.

Lemma scanstring_escaped cs rest :
  scanstring ((cs ≫= escape_char) ++ dquote :: rest) = inr (cs, rest).
Proof.
  induction cs as [|c cs IH].
  - reflexivity.
  - rewrite bind_cons, <- app_assoc, scanstring_escape_char, IH. reflexivity.
Qed.

(** A string literal, from behind its opening quote. *)
Lemma scanstring_basestring s rest :
  match encode_basestring s ++ rest with
  | c :: r => c = dquote ∧ scanstring r = inr (chars s, rest)
  | [] => False
  end.
Proof.
  unfold encode_basestring. simpl. split; [reflexivity|].
  rewrite <- app_assoc. apply scanstring_escaped.
Qed.
End Strings.

Section Numbers.
Import JSONDecoder.

Lemma closed_not_digit rest :
  closed rest → match rest with c :: _ => is_digit c = false | [] => True end.
Proof. destruct rest as [|c r]; [done|]. by intros [->|[->| ->]]. Qed.

(** The numeral of a positive number starts with a digit from 1 to 9. *)
Lemma digits_of_pos p :
  ∃ c ds, digits_of_uint (Pos.to_uint p) = c :: ds
          ∧ is_digit c = true ∧ c ≠ "0"%char
          ∧ Forall (λ c, is_digit c = true) ds.
Proof.
  pose proof (digits_of_uint_digits (Pos.to_uint p)) as Hd.
  assert (Hu : Decimal.unorm (Pos.to_uint p) = Pos.to_uint p).
  { rewrite <- DecimalPos.Unsigned.to_of, DecimalPos.Unsigned.of_to. reflexivity. }
  pose proof (DecimalPos.Unsigned.to_uint_nonzero p) as Hz.
  pose proof (DecimalPos.Unsigned.to_uint_nonnil p) as Hn.
  destruct (Pos.to_uint p) as [|u|u|u|u|u|u|u|u|u|u] eqn:E; [done|..];
    try (simpl; eexists _, _; split; [reflexivity|];
         inversion Hd; subst; done).
  exfalso. rewrite unorm_D0 in Hu. unfold Decimal.unorm in Hu.
  destruct (Decimal.nzhead u) eqn:En;
    try (injection Hu as <-; by apply Hz);
    try (rewrite <- En in Hu; by apply nzhead_nonzero in Hu);
    discriminate Hu.
Qed.

Lemma scan_int_part_pos p rest :
  match rest with c :: _ => is_digit c = false | [] => True end →
  scan_int_part (digits_of_uint (Pos.to_uint p) ++ rest)
  = Some (digits_of_uint (Pos.to_uint p), rest).
Proof.
  intros Hrest. destruct (digits_of_pos p) as (c & ds & -> & Hc & Hc0 & Hds).
  simpl. unfold scan_int_part. rewrite decide_False by done.
  rewrite Hc, span_digits_app by done. reflexivity.
Qed.

Lemma scan_int_part_N n rest :
  match rest with c :: _ => is_digit c = false | [] => True end →
  scan_int_part (digits_of_uint (N.to_uint n) ++ rest)
  = Some (digits_of_uint (N.to_uint n), rest).
Proof.
  destruct n as [|p]; [reflexivity|]. apply scan_int_part_pos.
Qed.

Lemma scan_frac_closed rest : closed rest → scan_frac rest = (None, rest).
Proof. destruct rest as [|c r]; [done|]. by intros [->|[->| ->]]. Qed.

Lemma scan_exp_closed rest : closed rest → scan_exp rest = (None, rest).
Proof. destruct rest as [|c r]; [done|]. by intros [->|[->| ->]]. Qed.

Lemma digits_of_N_head n :
  ∃ c ds, digits_of_uint (N.to_uint n) = c :: ds ∧ is_digit c = true.
Proof.
  destruct n as [|p]; [by eexists _, _|].
  destruct (digits_of_pos p) as (c & ds & E & Hc & _). eauto.
Qed.

(** The encoder prints the integers that [str] converts. *)
Lemma int_str_inr n t : int_str n = inr t ↔ int_ok n = true ∧ t = int_repr n.
Proof.
  unfold int_str, int_ok. destruct (too_many_digits _); cbn.
  - split; [discriminate | intros [[=] _]].
  - split; [by intros [= <-] | by intros [_ ->]].
Qed.

(** An integer, printed and scanned: [int] converts the digits that
    [str] has printed. *)
Lemma scan_number_int {L} n rest :
  int_ok n = true → closed rest →
  scan_number (L := L) (int_repr n ++ rest) = Some (inr (PInt n, rest)).
Proof.
  intros Hok Hrest. pose proof (closed_not_digit rest Hrest) as Hnd.
  unfold int_ok in Hok. apply negb_true_iff in Hok.
  unfold scan_number. destruct n as [|p|p]; simpl int_repr.
  - simpl. rewrite scan_frac_closed, scan_exp_closed by done. reflexivity.
  - change (N.to_uint (Z.abs_N (Z.pos p))) with (Pos.to_uint p) in Hok.
    destruct (digits_of_pos p) as (c & ds & E & Hc & _).
    assert (Hm : c ≠ "-"%char) by (intros ->; discriminate Hc).
    pose proof (scan_int_part_pos p rest Hnd) as Hs. rewrite E in Hs |- *.
    simpl app. cbv beta iota. rewrite decide_False by done.
    change ((c :: ds) ++ rest) with (c :: ds ++ rest) in Hs. rewrite Hs.
    rewrite scan_frac_closed, scan_exp_closed by done.
    rewrite <- E, Hok, uint_of_digits_of_uint.
    change (N.of_uint (Pos.to_uint p)) with (Pos.of_uint (Pos.to_uint p)).
    rewrite DecimalPos.Unsigned.of_to. reflexivity.
  - change (N.to_uint (Z.abs_N (Z.neg p))) with (Pos.to_uint p) in Hok.
    simpl app. cbv beta iota. rewrite decide_True by done.
    rewrite scan_int_part_pos by done.
    rewrite scan_frac_closed, scan_exp_closed by done.
    rewrite Hok, uint_of_digits_of_uint.
    change (N.of_uint (Pos.to_uint p)) with (Pos.of_uint (Pos.to_uint p)).
    rewrite DecimalPos.Unsigned.of_to. reflexivity.
Qed.

Lemma digits_of_uint_cons u :
  u ≠ Decimal.Nil → ∃ c ds, digits_of_uint u = c :: ds ∧ is_digit c = true.
Proof. destruct u; [done|..]; intros _; by eexists _, _. Qed.

Lemma scan_frac_text frac rest :
  frac ≠ Some Decimal.Nil →
  match rest with c :: _ => is_digit c = false ∧ c ≠ "."%char | [] => True end →
  scan_frac (frac_text frac ++ rest) = (digits_of_uint <$> frac, rest).
Proof.
  intros Hf Hrest. destruct frac as [f|]; simpl.
  - unfold scan_frac. cbv beta iota.
    assert (Hnil : f ≠ Decimal.Nil) by congruence.
    destruct (digits_of_uint_cons f Hnil) as (c & ds & E & Hc).
    rewrite span_digits_app.
    + rewrite E. reflexivity.
    + apply digits_of_uint_digits.
    + destruct rest; [done|]. apply Hrest.
  - destruct rest as [|c r]; [reflexivity|]. unfold scan_frac. cbv beta iota.
    rewrite decide_False by apply Hrest. reflexivity.
Qed.

Lemma scan_exp_text exp rest :
  (∀ s, exp ≠ Some (s, Decimal.Nil)) → closed rest →
  scan_exp (exp_text exp ++ rest) = (prod_map id digits_of_uint <$> exp, rest).
Proof.
  intros He Hrest. destruct exp as [[s e]|]; simpl; [|by apply scan_exp_closed].
  unfold scan_exp. cbv beta iota. rewrite ?decide_True by (by left).
  assert (Hnil : e ≠ Decimal.Nil) by (intros ->; by eapply He).
  destruct (digits_of_uint_cons e Hnil) as (c & ds & E & Hc).
  pose proof (span_digits_app (digits_of_uint e) rest (digits_of_uint_digits e)
                (closed_not_digit rest Hrest)) as Hspan.
  destruct s; simpl.
  - rewrite E in Hspan |- *.
    change ((c :: ds) ++ rest) with (c :: ds ++ rest) in Hspan |- *.
    cbv beta iota.
    rewrite decide_False by (intros ->; discriminate Hc).
    rewrite decide_False by (intros ->; discriminate Hc).
    rewrite Hspan. reflexivity.
  - rewrite Hspan, E. reflexivity.
  - rewrite Hspan, E. reflexivity.
Qed.

Lemma finite_repr_parts neg int frac exp rest :
  finite_repr neg int frac exp ++ rest
  = (if neg then chars "-" else []) ++ digits_of_uint (N.to_uint int)
    ++ frac_text frac ++ exp_text exp ++ rest.
Proof.
  unfold finite_repr, frac_text, exp_text.
  destruct frac, exp as [[? ?]|];
    repeat first [rewrite <- app_assoc | rewrite app_nil_r | progress simpl];
    reflexivity.
Qed.

(** A float, printed and scanned. *)
Lemma scan_number_float {L} neg int frac exp rest :
  float_ok (Finite neg int frac exp) = true → closed rest →
  scan_number (L := L) (finite_repr neg int frac exp ++ rest)
  = Some (inr (PFloat (Finite neg int frac exp), rest)).
Proof.
  intros Hok Hrest. simpl in Hok.
  apply andb_true_iff in Hok as [Hok Hfe]. apply andb_true_iff in Hok as [Hf He].
  assert (Hf' : frac ≠ Some Decimal.Nil) by (intros ->; done).
  assert (He' : ∀ s, exp ≠ Some (s, Decimal.Nil)) by (intros s ->; done).
  rewrite finite_repr_parts.
  set (tail := frac_text frac ++ exp_text exp ++ rest).
  assert (Htail : match tail with c :: _ => is_digit c = false | [] => True end).
  { subst tail. destruct frac as [f|]; [done|]. destruct exp as [[s e]|]; [done|].
    simpl. by apply closed_not_digit. }
  assert (Hetail : match exp_text exp ++ rest with
                   | c :: _ => is_digit c = false ∧ c ≠ "."%char
                   | [] => True
                   end).
  { destruct exp as [[s e]|]; [done|]. simpl. destruct rest as [|c r]; [done|].
    by destruct Hrest as [->|[->| ->]]. }
  assert (Hint : scan_number (L := L) (digits_of_uint (N.to_uint int) ++ tail)
                 = Some (inr (PFloat (Finite false int frac exp), rest))
                 ∧ ∀ neg', (let '(frac', s3) := scan_frac tail in
                            let '(exp', s4) := scan_exp s3 in
                            match frac', exp' with
                            | None, None => None
                            | _, _ =>
                                Some (inr (PFloat (L := L)
                                        (Finite neg' int (uint_of_digits <$> frac')
                                           (prod_map id uint_of_digits <$> exp')), s4)
                                      : res (tree L * text))
                            end) = Some (inr (PFloat (Finite neg' int frac exp), rest))).
  { assert (Hgen : ∀ neg', (let '(frac', s3) := scan_frac tail in
                            let '(exp', s4) := scan_exp s3 in
                            match frac', exp' with
                            | None, None => None
                            | _, _ =>
                                Some (inr (PFloat (L := L)
                                        (Finite neg' int (uint_of_digits <$> frac')
                                           (prod_map id uint_of_digits <$> exp')), s4)
                                      : res (tree L * text))
                            end) = Some (inr (PFloat (Finite neg' int frac exp), rest))).
    { intros neg'. subst tail. rewrite scan_frac_text by done.
      rewrite scan_exp_text by done.
      destruct frac as [f|], exp as [[s e]|]; simpl in *;
        rewrite ?uint_of_digits_of_uint; done. }
    split; [|exact Hgen].
    unfold scan_number.
    destruct (digits_of_N_head int) as (c & ds & E & Hc).
    rewrite E. simpl app. cbv beta iota.
    rewrite decide_False by (intros ->; discriminate Hc).
    change (c :: ds ++ tail) with ((c :: ds) ++ tail). rewrite <- E.
    rewrite scan_int_part_N by done.
    rewrite uint_of_digits_of_uint, DecimalN.Unsigned.of_to.
    specialize (Hgen false). revert Hgen.
    destruct (scan_frac tail) as [frac' s3], (scan_exp s3) as [exp' s4].
    destruct frac', exp'; done. }
  destruct neg; [|apply Hint].
  destruct Hint as [_ Hgen]. specialize (Hgen true).
  unfold scan_number. simpl app. cbv beta iota. rewrite decide_True by done.
  rewrite scan_int_part_N by done.
  rewrite uint_of_digits_of_uint, DecimalN.Unsigned.of_to.
  revert Hgen.
  destruct (scan_frac tail) as [frac' s3], (scan_exp s3) as [exp' s4].
  destruct frac', exp'; done.
Qed.
End Numbers.

Section Sequences.
Lemma sequence_cons {A} (r : res A) (rs : list (res A)) :
  sequence (r :: rs) = let? a := r in let? l := sequence rs in inr (a :: l).
Proof. reflexivity. Qed.

Lemma sequence_fmap_inr {A B} (f : A → res B) (xs : list A) (ys : list B) :
  sequence (f <$> xs) = inr ys ↔ Forall2 (λ x y, f x = inr y) xs ys.
Proof.
  revert ys. induction xs as [|x xs IH]; intros ys.
  { split.
    - intros [= <-]. constructor.
    - intros Hf. by inversion Hf. }
  rewrite fmap_cons, sequence_cons.
  destruct (f x) as [e|y] eqn:Ef.
  { split.
    - intros Hx. discriminate Hx.
    - intros Hf. inversion Hf; congruence. }
  destruct (sequence (f <$> xs)) as [e|ys'] eqn:Es.
  { split.
    - intros Hx. discriminate Hx.
    - intros Hf. inversion Hf as [|? y0 ? l' Hy Hl]; subst.
      apply IH in Hl. discriminate Hl. }
  split.
  - intros [= <-]. constructor; [done|]. by apply IH.
  - intros Hf. inversion Hf as [|? y0 ? l' Hy Hl]; subst.
    apply IH in Hl. simpl. congruence.
Qed.

Lemma insert_by_key_fmap {A B} (f : A → B) (kv : string * A) l :
  insert_by_key (kv.1, f kv.2) ((λ kv, (kv.1, f kv.2)) <$> l)
  = (λ kv, (kv.1, f kv.2)) <$> insert_by_key kv l.
Proof.
  induction l as [|kv' l IH]; [reflexivity|].
  rewrite fmap_cons. cbn [insert_by_key fst snd].
  destruct (String.leb kv.1 kv'.1).
  - by rewrite !fmap_cons.
  - by rewrite fmap_cons, <- IH.
Qed.

(** Sorting by key and mapping over the values commute. *)
Lemma sort_by_key_fmap {A B} (f : A → B) (l : list (string * A)) :
  sort_by_key ((λ kv, (kv.1, f kv.2)) <$> l)
  = (λ kv, (kv.1, f kv.2)) <$> sort_by_key l.
Proof.
  induction l as [|kv l IH]; [reflexivity|].
  rewrite fmap_cons. unfold sort_by_key in *. cbn [foldr]. rewrite IH.
  apply (insert_by_key_fmap f kv).
Qed.

Lemma insert_by_key_perm {A} (kv : string * A) l : insert_by_key kv l ≡ₚ kv :: l.
Proof.
  induction l as [|kv' l IH]; [reflexivity|].
  simpl. destruct (String.leb kv.1 kv'.1); [reflexivity|].
  rewrite IH. apply perm_swap.
Qed.

Lemma sort_by_key_perm {A} (l : list (string * A)) : sort_by_key l ≡ₚ l.
Proof.
  induction l as [|kv l IH]; [reflexivity|].
  unfold sort_by_key in *. simpl. rewrite insert_by_key_perm. by rewrite IH.
Qed.
End Sequences.

Section Starts.
Import JSONEncoder JSONDecoder.

Lemma skip_ws_starts t rest : starts_value t → skip_ws (t ++ rest) = t ++ rest.
Proof. destruct t as [|c t]; [done|]. intros [Hc _]. simpl. by rewrite Hc. Qed.

Lemma skip_ws_closed rest : closed rest → skip_ws rest = rest.
Proof. destruct rest as [|c r]; [done|]. by intros [->|[->| ->]]. Qed.

Lemma digit_starts c : is_digit c = true →
  is_ws c = false ∧ c ≠ ","%char ∧ c ≠ "]"%char ∧ c ≠ "}"%char
  ∧ (N_of_ascii c < 128)%N.
Proof.
  intros Hc. repeat split; try (intros ->; discriminate Hc).
  - destruct c as [[] [] [] [] [] [] [] []]; try reflexivity; discriminate Hc.
  - unfold is_digit in Hc. apply andb_true_iff in Hc as [_ Hc].
    apply N.leb_le in Hc. lia.
Qed.

(** What the encoder prints starts like a value. *)
Lemma encode_json_starts (j : json) t : encode_json j = inr t → starts_value t.
Proof.
  unfold encode_json. destruct j as [|[]|n|x|s|xs|xs|items|[]]; simpl.
  - by intros [= <-].
  - by intros [= <-].
  - by intros [= <-].
  - intros [_ ->]%int_str_inr. destruct n as [|p|p]; simpl; [done| |done].
    destruct (digits_of_pos p) as (c & ds & -> & Hc & _).
    simpl. by apply digit_starts in Hc.
  - destruct x as [neg int frac exp| | |]; simpl; try done.
    intros [= <-]. destruct neg; [done|]. unfold finite_repr.
    destruct (digits_of_N_head int) as (c & ds & -> & Hc). simpl.
    by apply digit_starts in Hc.
  - by intros [= <-].
  - destruct (sequence _); simpl; [done|]. by intros [= <-].
  - destruct (sequence _); simpl; [done|]. by intros [= <-].
  - destruct (sequence _); simpl; [done|]. by intros [= <-].
Qed.
End Starts.

Section Decoder.
Import JSONEncoder JSONDecoder.
Context {L : Type} (hook : list (string * tree L) → res (tree L)).

Lemma join_cons2 sep (p p2 : text) ps :
  join sep (p :: p2 :: ps) = p ++ sep ++ join sep (p2 :: ps).
Proof. reflexivity. Qed.

Lemma join_starts sep p ps :
  starts_value p → starts_value (join sep (p :: ps)).
Proof. destruct ps; [done|]. rewrite join_cons2. by destruct p. Qed.

Lemma join_length_cons2 sep (p p2 : text) ps :
  length (join sep (p :: p2 :: ps))
  = length p + length sep + length (join sep (p2 :: ps)).
Proof. rewrite join_cons2, !length_app. lia. Qed.

Lemma elements_S fuel s :
  elements hook (S fuel) s
  = let? v := scan_once hook fuel s in
    match skip_ws v.2 with
    | c1 :: r1 =>
        if decide (c1 = "]"%char) then inr ([v.1], r1)
        else if decide (c1 = ","%char) then
          let? p := elements hook fuel (skip_ws r1) in inr (v.1 :: p.1, p.2)
        else inl (JSONDecodeError "Expecting ',' delimiter")
    | [] => inl (JSONDecodeError "Expecting ',' delimiter")
    end.
Proof. reflexivity. Qed.

Lemma elements_fail fuel s e :
  scan_once hook fuel s = inl e → elements hook (S fuel) s = inl e.
Proof. intros Hs. by rewrite elements_S, Hs. Qed.

Lemma elements_last fuel s v rest :
  scan_once hook fuel s = inr (v, "]"%char :: rest) →
  elements hook (S fuel) s = inr ([v], rest).
Proof. intros Hs. by rewrite elements_S, Hs. Qed.

Lemma elements_more fuel s v r :
  scan_once hook fuel s = inr (v, ","%char :: r) →
  elements hook (S fuel) s
  = let? p := elements hook fuel (skip_ws r) in inr (v :: p.1, p.2).
Proof. intros Hs. by rewrite elements_S, Hs. Qed.

(** The elements of a list that is not empty. *)
Lemma elements_reads xs parts :
  Forall (reads hook) xs →
  Forall2 (λ x p, encode_json x = inr p) xs parts →
  forallb floats_ok xs = true → xs ≠ [] →
  ∀ fuel rest, length (join (chars ",") parts) + 1 < fuel →
    elements hook fuel (join (chars ",") parts ++ "]"%char :: rest)
    = with_rest (sequence (loads_tree hook <$> (canon <$> xs))) rest.
Proof.
  intros Hreads Henc. revert Hreads.
  induction Henc as [|x p xs ps Hx Hxs IH]; intros Hreads Hok Hne fuel rest Hfuel;
    [done|].
  apply Forall_cons in Hreads as [Hrx Hrxs].
  simpl in Hok. apply andb_true_iff in Hok as [Hokx Hokxs].
  destruct fuel as [|fuel]; [lia|].
  rewrite !fmap_cons, sequence_cons.
  pose proof (encode_json_starts x p Hx) as Hsp.
  assert (Hp : 0 < length p) by (destruct p; [done|simpl; lia]).
  destruct Hxs as [|x2 p2 xs2 ps2 Hx2 Hxs2].
  - (* the last element *)
    change (join (chars ",") [p]) with p in *.
    pose proof (Hrx p Hx Hokx fuel ("]"%char :: rest)) as Hs.
    destruct (loads_tree hook (canon x)) as [e|v].
    + apply elements_fail, Hs; [lia | right; by left].
    + rewrite (elements_last fuel _ v rest); [reflexivity|].
      apply Hs; [lia | right; by left].
  - rewrite join_cons2, <- !app_assoc. rewrite join_length_cons2 in Hfuel.
    change (length (chars ",")) with 1 in Hfuel.
    set (tail := join (chars ",") (p2 :: ps2) ++ "]"%char :: rest) in *.
    pose proof (Hrx p Hx Hokx fuel (chars "," ++ tail)) as Hs.
    assert (Htail : skip_ws tail = tail).
    { apply skip_ws_starts, join_starts, (encode_json_starts x2 p2 Hx2). }
    specialize (IH Hrxs Hokxs ltac:(done) fuel rest ltac:(lia)).
    fold tail in IH.
    destruct (loads_tree hook (canon x)) as [e|v].
    + apply elements_fail, Hs; [lia | by left].
    + rewrite (elements_more fuel _ v tail) by (apply Hs; [lia | by left]).
      rewrite Htail, IH.
      destruct (sequence (loads_tree hook <$> (canon <$> x2 :: xs2)));
        reflexivity.
Qed.

Lemma members_S fuel s :
  members hook (S fuel) s
  = let? k := scanstring s in
    match skip_ws k.2 with
    | c :: r =>
        if decide (c = ":"%char) then
          let? v := scan_once hook fuel (skip_ws r) in
          let pair := (string_of_list_ascii k.1, v.1) in
          match skip_ws v.2 with
          | c1 :: r1 =>
              if decide (c1 = "}"%char) then inr ([pair], r1)
              else if decide (c1 = ","%char) then
                match skip_ws r1 with
                | c2 :: r2 =>
                    if decide (c2 = dquote) then
                      let? p := members hook fuel r2 in inr (pair :: p.1, p.2)
                    else inl (JSONDecodeError
                           "Expecting property name enclosed in double quotes")
                | [] => inl (JSONDecodeError
                           "Expecting property name enclosed in double quotes")
                end
              else inl (JSONDecodeError "Expecting ',' delimiter")
          | [] => inl (JSONDecodeError "Expecting ',' delimiter")
          end
        else inl (JSONDecodeError "Expecting ':' delimiter")
    | [] => inl (JSONDecodeError "Expecting ':' delimiter")
    end.
Proof. reflexivity. Qed.

Lemma scanstring_item_body k t rest :
  scanstring (item_body k t ++ rest) = inr (chars k, ":"%char :: t ++ rest).
Proof.
  unfold item_body. rewrite <- app_assoc.
  change ((dquote :: ":"%char :: t) ++ rest) with (dquote :: ":"%char :: t ++ rest).
  apply scanstring_escaped.
Qed.

Lemma members_fail fuel k t rest e :
  starts_value t →
  scan_once hook fuel (t ++ rest) = inl e →
  members hook (S fuel) (item_body k t ++ rest) = inl e.
Proof.
  intros Ht Hs. rewrite members_S, scanstring_item_body.
  cbn [rbind fst snd]. change (skip_ws (":"%char :: t ++ rest)) with (":"%char :: t ++ rest).
  cbv iota. rewrite decide_True by done.
  rewrite skip_ws_starts by done. by rewrite Hs.
Qed.

Lemma members_last fuel k t rest v :
  starts_value t →
  scan_once hook fuel (t ++ "}"%char :: rest) = inr (v, "}"%char :: rest) →
  members hook (S fuel) (item_body k t ++ "}"%char :: rest)
  = inr ([(k, v)], rest).
Proof.
  intros Ht Hs. rewrite members_S, scanstring_item_body.
  cbn [rbind fst snd].
  change (skip_ws (":"%char :: t ++ "}"%char :: rest))
    with (":"%char :: t ++ "}"%char :: rest).
  cbv iota. rewrite decide_True by done.
  rewrite skip_ws_starts by done. rewrite Hs. cbn [rbind fst snd].
  change (skip_ws ("}"%char :: rest)) with ("}"%char :: rest). cbv iota.
  rewrite decide_True by done. unfold chars.
  by rewrite string_of_list_ascii_of_string.
Qed.

Lemma members_more fuel k t body v :
  starts_value t →
  scan_once hook fuel (t ++ ","%char :: dquote :: body)
  = inr (v, ","%char :: dquote :: body) →
  members hook (S fuel) (item_body k t ++ ","%char :: dquote :: body)
  = let? p := members hook fuel body in inr ((k, v) :: p.1, p.2).
Proof.
  intros Ht Hs. rewrite members_S, scanstring_item_body.
  cbn [rbind fst snd].
  change (skip_ws (":"%char :: t ++ ","%char :: dquote :: body))
    with (":"%char :: t ++ ","%char :: dquote :: body).
  cbv iota. rewrite decide_True by done.
  rewrite skip_ws_starts by done. rewrite Hs. cbn [rbind fst snd].
  change (skip_ws (","%char :: dquote :: body)) with (","%char :: dquote :: body).
  cbv iota. rewrite decide_False by done. rewrite decide_True by done.
  change (skip_ws (dquote :: body)) with (dquote :: body). cbv iota.
  rewrite decide_True by done. unfold chars.
  by rewrite string_of_list_ascii_of_string.
Qed.

(** The members of a dict that is not empty. *)
Lemma members_reads (items : list (string * json)) parts :
  Forall (λ kv, reads hook kv.2) items →
  Forall2 (λ kv p, ∃ t, encode_json kv.2 = inr t ∧ p = dquote :: item_body kv.1 t)
          items parts →
  forallb (λ kv, floats_ok kv.2) items = true → items ≠ [] →
  ∀ fuel rest, length (join (chars ",") parts) + 1 < fuel →
    ∃ body,
      join (chars ",") parts ++ "}"%char :: rest = dquote :: body
      ∧ members hook fuel body
        = with_rest (sequence (load_item hook
                                 <$> ((λ kv, (kv.1, canon kv.2)) <$> items))) rest.
Proof.
  intros Hreads Henc. revert Hreads.
  induction Henc as [|[k x] p xs ps Hx Hxs IH];
    intros Hreads Hok Hne fuel rest Hfuel; [done|].
  apply Forall_cons in Hreads as [Hrx Hrxs]. simpl in Hrx.
  simpl in Hok. apply andb_true_iff in Hok as [Hokx Hokxs].
  destruct Hx as (t & Hx & ->). cbn [fst snd] in *.
  destruct fuel as [|fuel]; [lia|].
  rewrite !fmap_cons, sequence_cons. unfold load_item at 1. cbn [fst snd].
  pose proof (encode_json_starts x t Hx) as Hst.
  assert (Hlen : (length t + 3 ≤ length (dquote :: item_body k t))%nat).
  { unfold item_body. simpl. rewrite length_app. simpl. lia. }
  destruct Hxs as [|[k2 x2] p2 xs2 ps2 Hx2 Hxs2].
  - (* the last member *)
    change (join (chars ",") [dquote :: item_body k t]) with (dquote :: item_body k t) in *.
    exists (item_body k t ++ "}"%char :: rest). split; [reflexivity|].
    pose proof (Hrx t Hx Hokx fuel ("}"%char :: rest)) as Hs.
    destruct (loads_tree hook (canon x)) as [e|v].
    + apply members_fail; [done|]. apply Hs; [lia | right; by right].
    + apply members_last; [done|]. apply Hs; [lia | right; by right].
  - rewrite join_cons2, <- !app_assoc. rewrite join_length_cons2 in Hfuel.
    change (length (chars ",")) with 1 in Hfuel.
    specialize (IH Hrxs Hokxs ltac:(done) fuel rest ltac:(lia)).
    destruct IH as (body & Hbody & IH). rewrite Hbody.
    exists (item_body k t ++ ","%char :: dquote :: body). split; [reflexivity|].
    pose proof (Hrx t Hx Hokx fuel (","%char :: dquote :: body)) as Hs.
    destruct (loads_tree hook (canon x)) as [e|v].
    + apply members_fail; [done|]. apply Hs; [lia | by left].
    + rewrite (members_more fuel k t body v) by (done || (apply Hs; [lia | by left])).
      rewrite IH.
      destruct (sequence (load_item hook <$> _)); reflexivity.
Qed.

Lemma scan_once_string fuel r :
  scan_once hook (S fuel) (dquote :: r)
  = let? p := scanstring r in inr (PStr (string_of_list_ascii p.1), p.2).
Proof. reflexivity. Qed.

Lemma scan_once_list fuel r :
  scan_once hook (S fuel) ("["%char :: r)
  = match skip_ws r with
    | c1 :: r1 =>
        if decide (c1 = "]"%char) then inr (PList [], r1)
        else let? p := elements hook fuel (skip_ws r) in inr (PList p.1, p.2)
    | [] => inl expecting_value
    end.
Proof. reflexivity. Qed.

Lemma scan_once_dict fuel r :
  scan_once hook (S fuel) ("{"%char :: r)
  = let r := if decide (head r = Some dquote) then r else skip_ws r in
    match r with
    | c1 :: r1 =>
        if decide (c1 = "}"%char) then let? o := hook [] in inr (o, r1)
        else if decide (c1 = dquote) then
          let? p := members hook fuel r1 in
          let? o := hook (dict_of_pairs p.1) in
          inr (o, p.2)
        else inl (JSONDecodeError
                    "Expecting property name enclosed in double quotes")
    | [] => inl (JSONDecodeError
                   "Expecting property name enclosed in double quotes")
    end.
Proof. reflexivity. Qed.

(** A number: the text starts with a digit or a minus sign. *)
Lemma scan_once_number fuel c t rest v :
  is_digit c = true ∨ c = "-"%char →
  scan_number (c :: t ++ rest) = Some (inr (v, rest)) →
  scan_once hook (S fuel) (c :: t ++ rest) = inr (v, rest).
Proof.
  intros Hc Hs.
  assert (Hatom : scan_atom (L := L) (c :: t ++ rest) = inr (v, rest)).
  { unfold scan_atom. rewrite Hs.
    destruct Hc as [Hc| ->]; [|reflexivity].
    destruct c as [[] [] [] [] [] [] [] []]; try discriminate Hc; reflexivity. }
  rewrite <- Hatom.
  destruct Hc as [Hc| ->]; [|reflexivity].
  destruct c as [[] [] [] [] [] [] [] []]; try discriminate Hc; reflexivity.
Qed.

(** The decoder reads what the encoder prints. *)
Theorem encode_json_reads (j : json) : reads hook j.
Proof.
  induction j as [|b|n|x|str|xs IH|xs IH|items IH|[]] using tree_ind';
    intros t Ht Hok fuel rest Hfuel Hrest.
  - injection Ht as <-. destruct fuel; [simpl in Hfuel; lia|]. reflexivity.
  - destruct b; injection Ht as <-; (destruct fuel; [simpl in Hfuel; lia|]);
      reflexivity.
  - apply (int_str_inr n t) in Ht as [Hn ->]. destruct fuel; [lia|].
    pose proof (scan_number_int (L := L) n rest Hn Hrest) as Hs.
    destruct (int_repr n) as [|c t] eqn:E.
    { destruct n; simpl in E; try discriminate.
      by destruct (digits_of_pos p) as (? & ? & E' & _); rewrite E' in E. }
    apply scan_once_number; [|exact Hs].
    destruct n as [|p|p]; simpl in E.
    + injection E as <- <-. by left.
    + destruct (digits_of_pos p) as (c' & ds & E' & Hc & _). rewrite E' in E.
      injection E as <- <-. by left.
    + injection E as <- <-. by right.
  - destruct x as [neg int frac exp| | |]; try discriminate Hok.
    injection Ht as <-. destruct fuel; [lia|].
    pose proof (scan_number_float (L := L) neg int frac exp rest Hok Hrest) as Hs.
    destruct (finite_repr neg int frac exp) as [|c t] eqn:E.
    { unfold finite_repr in E. destruct neg; [discriminate|].
      destruct (digits_of_N_head int) as (? & ? & E' & _). by rewrite E' in E. }
    apply scan_once_number; [|exact Hs].
    unfold finite_repr in E. destruct neg.
    + injection E as <- _. by right.
    + destruct (digits_of_N_head int) as (c' & ds & E' & Hc). rewrite E' in E.
      injection E as <- _. by left.
  - injection Ht as <-. destruct fuel; [lia|].
    unfold encode_basestring.
    change ((dquote :: (chars str ≫= escape_char) ++ [dquote]) ++ rest)
      with (dquote :: ((chars str ≫= escape_char) ++ [dquote]) ++ rest).
    rewrite scan_once_string, <- app_assoc.
    change ([dquote] ++ rest) with (dquote :: rest).
    rewrite scanstring_escaped. cbn [rbind fst snd]. unfold chars.
    by rewrite string_of_list_ascii_of_string.
  - (* list *)
    revert Ht. unfold encode_json. cbn [iterencode].
    destruct (sequence _) as [e|parts] eqn:Eparts; [discriminate|].
    intros [= <-]. apply sequence_fmap_inr in Eparts.
    destruct fuel as [|fuel]; [lia|].
    change [","%char] with (chars ",") in *.
    assert (Hf2 : length (join (chars ",") parts) + 1 < fuel).
    { rewrite length_cons, length_app in Hfuel. cbn [length] in Hfuel. lia. }
    clear Hfuel.
    rewrite <- app_comm_cons, scan_once_list, <- app_assoc.
    change (["]"%char] ++ rest) with ("]"%char :: rest).
    change (canon (PList xs)) with (PList (canon <$> xs) : json).
    change (loads_tree hook (PList (canon <$> xs)))
      with (let? ys := sequence (loads_tree hook <$> (canon <$> xs)) in inr (PList ys)).
    destruct Eparts as [|x p xs ps Hx Hxs]; [reflexivity|].
    pose proof (join_starts (chars ",") p ps (encode_json_starts x p Hx)) as Hst.
    rewrite skip_ws_starts by done.
    destruct (join (chars ",") (p :: ps)) as [|c1 r1] eqn:Ej; [done|].
    change ((c1 :: r1) ++ "]"%char :: rest) with (c1 :: r1 ++ "]"%char :: rest).
    cbv beta iota. rewrite decide_False by apply Hst.
    change (c1 :: r1 ++ "]"%char :: rest) with ((c1 :: r1) ++ "]"%char :: rest).
    rewrite <- Ej.
    rewrite (elements_reads (x :: xs) (p :: ps) IH).
    + destruct (sequence _); reflexivity.
    + by constructor.
    + exact Hok.
    + done.
    + by rewrite Ej.
  - (* tuple: printed and read as a list *)
    revert Ht. unfold encode_json. cbn [iterencode].
    destruct (sequence _) as [e|parts] eqn:Eparts; [discriminate|].
    intros [= <-]. apply sequence_fmap_inr in Eparts.
    destruct fuel as [|fuel]; [lia|].
    change [","%char] with (chars ",") in *.
    assert (Hf2 : length (join (chars ",") parts) + 1 < fuel).
    { rewrite length_cons, length_app in Hfuel. cbn [length] in Hfuel. lia. }
    clear Hfuel.
    rewrite <- app_comm_cons, scan_once_list, <- app_assoc.
    change (["]"%char] ++ rest) with ("]"%char :: rest).
    change (canon (PTuple xs)) with (PTuple (canon <$> xs) : json).
    change (loads_tree hook (PTuple (canon <$> xs)))
      with (let? ys := sequence (loads_tree hook <$> (canon <$> xs)) in inr (PList ys)).
    destruct Eparts as [|x p xs ps Hx Hxs]; [reflexivity|].
    pose proof (join_starts (chars ",") p ps (encode_json_starts x p Hx)) as Hst.
    rewrite skip_ws_starts by done.
    destruct (join (chars ",") (p :: ps)) as [|c1 r1] eqn:Ej; [done|].
    change ((c1 :: r1) ++ "]"%char :: rest) with (c1 :: r1 ++ "]"%char :: rest).
    cbv beta iota. rewrite decide_False by apply Hst.
    change (c1 :: r1 ++ "]"%char :: rest) with ((c1 :: r1) ++ "]"%char :: rest).
    rewrite <- Ej.
    rewrite (elements_reads (x :: xs) (p :: ps) IH).
    + destruct (sequence _); reflexivity.
    + by constructor.
    + exact Hok.
    + done.
    + by rewrite Ej.
  - (* dict *)
    revert Ht. unfold encode_json. cbn [iterencode].
    rewrite (sort_by_key_fmap (iterencode _) items), <- list_fmap_compose.
    destruct (sequence _) as [e|parts] eqn:Eparts; [discriminate|].
    intros [= <-]. apply sequence_fmap_inr in Eparts.
    destruct fuel as [|fuel]; [lia|].
    change [","%char] with (chars ",") in *.
    assert (Hf2 : length (join (chars ",") parts) + 1 < fuel).
    { rewrite length_cons, length_app in Hfuel. cbn [length] in Hfuel. lia. }
    clear Hfuel.
    rewrite <- app_comm_cons, scan_once_dict, <- app_assoc.
    change (["}"%char] ++ rest) with ("}"%char :: rest).
    change (canon (PDict items))
      with (PDict (sort_by_key ((λ kv : string * json, (kv.1, canon kv.2)) <$> items))
            : json).
    rewrite (sort_by_key_fmap canon items).
    set (sitems := sort_by_key items) in *.
    change (loads_tree hook (PDict ((λ kv : string * json, (kv.1, canon kv.2)) <$> sitems)))
      with (let? pairs := sequence (load_item hook
                                      <$> ((λ kv : string * json, (kv.1, canon kv.2))
                                             <$> sitems)) in
            hook (dict_of_pairs pairs)).
    assert (IHs : Forall (λ kv, reads hook kv.2) sitems).
    { subst sitems. by rewrite sort_by_key_perm. }
    assert (Hoks : forallb (λ kv : string * json, floats_ok kv.2) sitems = true).
    { subst sitems. apply forallb_forall. intros kv Hkv.
      simpl in Hok. rewrite forallb_forall in Hok. apply Hok.
      apply list_elem_of_In. rewrite <- (sort_by_key_perm items).
      by apply list_elem_of_In. }
    assert (Hparts : Forall2 (λ kv p, ∃ t, encode_json kv.2 = inr t
                                          ∧ p = dquote :: item_body kv.1 t)
                             sitems parts).
    { eapply Forall2_impl; [exact Eparts|]. intros [k x] p. simpl.
      unfold encode_item. simpl. unfold encode_json.
      destruct (iterencode _ x) as [e|t]; simpl; [discriminate|].
      intros [= <-]. exists t. split; [reflexivity|].
      unfold encode_basestring, item_body. simpl. by rewrite <- app_assoc. }
    clearbody sitems. clear Eparts IH Hok.
    destruct (decide (sitems = [])) as [->|Hne].
    + inversion Hparts; subst. reflexivity.
    + destruct (members_reads sitems parts IHs Hparts Hoks Hne fuel rest)
        as (body & Hbody & Hm).
      { exact Hf2. }
      rewrite Hbody. cbn [head]. rewrite decide_True by done. cbv zeta beta iota.
      rewrite decide_False by done. rewrite decide_True by done.
      rewrite Hm. destruct (sequence _) as [e|pairs]; [reflexivity|].
      cbn [with_rest rbind fst snd]. destruct (hook _); reflexivity.
Qed.
End Decoder.

(** * The codec: tables in values, encoded and decoded *)

Section Text.
Import JSONEncoder JSONDecoder.

(** The elements of a sequence are printed when each of them is. *)
Lemma encode_elements_total (xs : list json) :
  Forall (λ j, floats_ok j = true → ints_ok j = true →
               ∃ t, iterencode (λ e : Empty_set, match e with end) j = inr t) xs →
  forallb floats_ok xs = true → forallb ints_ok xs = true →
  ∃ parts, sequence (iterencode (λ e : Empty_set, match e with end) <$> xs)
           = inr parts.
Proof.
  induction 1 as [|x xs Hx Hxs IHxs]; intros Hok Hint; [by eexists|].
  simpl in Hok, Hint.
  apply andb_true_iff in Hok as [Hokx Hokxs].
  apply andb_true_iff in Hint as [Hintx Hintxs].
  destruct (Hx Hokx Hintx) as [t Ht]. destruct (IHxs Hokxs Hintxs) as [parts Hparts].
  exists (t :: parts). by rewrite fmap_cons, sequence_cons, Ht, Hparts.
Qed.

(** The encoder prints every JSON tree whose floats are printable and
    whose integers are within the conversion limit. *)
Lemma encode_json_total (j : json) :
  floats_ok j = true → ints_ok j = true → ∃ t, encode_json j = inr t.
Proof.
  unfold encode_json.
  induction j as [|b|n|x|str|xs IH|xs IH|items IH|[]] using tree_ind';
    intros Hok Hint; try (eexists; reflexivity).
  - destruct b; eexists; reflexivity.
  - exists (int_repr n). by apply int_str_inr.
  - destruct x; try discriminate Hok. eexists; reflexivity.
  - cbn [iterencode].
    destruct (encode_elements_total xs IH Hok Hint) as [parts ->].
    eexists; reflexivity.
  - cbn [iterencode].
    destruct (encode_elements_total xs IH Hok Hint) as [parts ->].
    eexists; reflexivity.
  - cbn [iterencode].
    rewrite (sort_by_key_fmap (iterencode _) items), <- list_fmap_compose.
    assert (IHs : Forall (λ kv : string * json,
                    floats_ok kv.2 = true → ints_ok kv.2 = true →
                    ∃ t, iterencode (λ e : Empty_set, match e with end) kv.2 = inr t)
                  (sort_by_key items)) by (by rewrite sort_by_key_perm).
    assert (Hoks : forallb (λ kv : string * json, floats_ok kv.2) (sort_by_key items)
                   = true).
    { apply forallb_forall. intros kv Hkv.
      simpl in Hok. rewrite forallb_forall in Hok. apply Hok.
      apply list_elem_of_In. rewrite <- (sort_by_key_perm items).
      by apply list_elem_of_In. }
    assert (Hints : forallb (λ kv : string * json, ints_ok kv.2) (sort_by_key items)
                    = true).
    { apply forallb_forall. intros kv Hkv.
      simpl in Hint. rewrite forallb_forall in Hint. apply Hint.
      apply list_elem_of_In. rewrite <- (sort_by_key_perm items).
      by apply list_elem_of_In. }
    clear IH Hok Hint. revert IHs Hoks Hints.
    generalize (sort_by_key items) as l. intros l IHs Hoks Hints.
    assert (Hp : ∃ parts,
      sequence ((encode_item ∘ (λ kv : string * json,
                   (kv.1, iterencode (λ e : Empty_set, match e with end) kv.2)))
                <$> l) = inr parts).
    { induction IHs as [|[k x] l Hx Hl IHl]; [by eexists|].
      simpl in Hoks. apply andb_true_iff in Hoks as [Hokx Hokl].
      simpl in Hints. apply andb_true_iff in Hints as [Hintx Hintl].
      destruct (Hx Hokx Hintx) as [t Ht]. destruct (IHl Hokl Hintl) as [parts Hparts].
      simpl in Ht.
      eexists. rewrite fmap_cons, sequence_cons, Hparts. simpl.
      unfold encode_item. simpl. rewrite Ht. reflexivity. }
    destruct Hp as [parts ->]. eexists; reflexivity.
Qed.

(** Decoding the text of a JSON tree. *)
Lemma decode_encode_json {L} (hook : list (string * tree L) → res (tree L))
    (j : json) t :
  encode_json j = inr t → floats_ok j = true →
  decode hook (string_of_list_ascii t) = loads_tree hook (canon j).
Proof.
  intros Ht Hok. unfold decode, chars.
  rewrite list_ascii_of_string_of_list_ascii.
  pose proof (encode_json_starts j t Ht) as Hst.
  pose proof (encode_json_reads hook j t Ht Hok (S (length t)) []) as Hr.
  rewrite app_nil_r in Hr.
  assert (Hbom : strip_prefix [ascii_of_nat 239; ascii_of_nat 187; ascii_of_nat 191] t
                 = None).
  { destruct t as [|c t]; [done|]. destruct Hst as (_ & _ & _ & _ & Hc).
    simpl. rewrite decide_False; [done|]. intros <-. vm_compute in Hc. done. }
  rewrite Hbom.
  assert (Hws : skip_ws t = t).
  { rewrite <- (app_nil_r t) at 1. rewrite skip_ws_starts by done. apply app_nil_r. }
  rewrite Hws, Hr by (lia || done).
  by destruct (loads_tree hook (canon j)).
Qed.
End Text.

Section Default.
Import JSONEncoder.

Lemma Forall_fmap_eq {A B} (f g : A → B) (l : list A) :
  Forall (λ a, f a = g a) l → f <$> l = g <$> l.
Proof. induction 1 as [|a l Ha Hl IH]; [done|]. by rewrite !fmap_cons, Ha, IH. Qed.

(** With [_json_default], the encoder prints a supported value as it
    prints the JSON tree of the value. *)
Lemma iterencode_json_of reg (x : value) :
  supported_by_spec reg x = true →
  iterencode (λ o, let? j := _json_default o in encode_json j) x
  = encode_json (json_of x).
Proof.
  unfold encode_json.
  induction x as [|b|n|f|str|xs IH|xs IH|items IH|o] using tree_ind'; intros Hsup;
    try reflexivity.
  - cbn [iterencode json_of]. rewrite <- list_fmap_compose.
    rewrite (Forall_fmap_eq _ (iterencode (λ e : Empty_set, match e with end) ∘ json_of) xs);
      [reflexivity|].
    simpl in Hsup. rewrite forallb_forall in Hsup.
    rewrite Forall_forall in IH |- *. intros x Hx. apply IH; [done|].
    apply Hsup. by apply list_elem_of_In.
  - cbn [iterencode json_of]. rewrite <- list_fmap_compose.
    rewrite (Forall_fmap_eq _ (iterencode (λ e : Empty_set, match e with end) ∘ json_of) xs);
      [reflexivity|].
    simpl in Hsup. rewrite forallb_forall in Hsup.
    rewrite Forall_forall in IH |- *. intros x Hx. apply IH; [done|].
    apply Hsup. by apply list_elem_of_In.
  - cbn [iterencode json_of]. rewrite <- list_fmap_compose.
    rewrite (Forall_fmap_eq _
               ((λ kv : string * json,
                   (kv.1, iterencode (λ e : Empty_set, match e with end) kv.2))
                ∘ (λ kv : string * value, (kv.1, json_of kv.2))) items);
      [reflexivity|].
    simpl in Hsup. apply andb_true_iff in Hsup as [_ Hsup].
    rewrite forallb_forall in Hsup.
    rewrite Forall_forall in IH |- *. intros kv Hkv. simpl. f_equal.
    apply IH; [done|]. apply Hsup. by apply list_elem_of_In.
  - destruct o as [t|ty]; [|discriminate Hsup]. simpl in Hsup.
    destruct t as [obj [s|] name ck]; [|discriminate Hsup]. reflexivity.
Qed.

Lemma floats_ok_json_of reg (x : value) :
  supported_by_spec reg x = true → floats_ok (json_of x) = true.
Proof.
  induction x as [|b|n|f|str|xs IH|xs IH|items IH|o] using tree_ind'; intros Hsup;
    try done.
  - simpl in *. rewrite forallb_forall in Hsup |- *.
    intros j Hj. apply list_elem_of_In, list_elem_of_fmap in Hj as (x & -> & Hx).
    rewrite Forall_forall in IH. apply IH; [done|]. apply Hsup.
    by apply list_elem_of_In.
  - simpl in *. rewrite forallb_forall in Hsup |- *.
    intros j Hj. apply list_elem_of_In, list_elem_of_fmap in Hj as (x & -> & Hx).
    rewrite Forall_forall in IH. apply IH; [done|]. apply Hsup.
    by apply list_elem_of_In.
  - simpl in *. apply andb_true_iff in Hsup as [_ Hsup].
    rewrite forallb_forall in Hsup |- *.
    intros j Hj. apply list_elem_of_In, list_elem_of_fmap in Hj as (kv & -> & Hkv).
    rewrite Forall_forall in IH. apply IH; [done|]. apply Hsup.
    by apply list_elem_of_In.
  - destruct o as [t|ty]; [|discriminate Hsup]. simpl in Hsup.
    destruct t as [obj [s|] [name|] [ck|]]; try discriminate Hsup; reflexivity.
Qed.

(** The JSON tree of a value has the integers of the value. *)
Lemma ints_ok_json_of (x : value) : ints_ok x = true → ints_ok (json_of x) = true.
Proof.
  induction x as [|b|n|f|str|xs IH|xs IH|items IH|o] using tree_ind'; intros Hint;
    try done.
  - simpl in *. rewrite forallb_forall in Hint |- *.
    intros j Hj. apply list_elem_of_In, list_elem_of_fmap in Hj as (x & -> & Hx).
    rewrite Forall_forall in IH. apply IH; [done|]. apply Hint.
    by apply list_elem_of_In.
  - simpl in *. rewrite forallb_forall in Hint |- *.
    intros j Hj. apply list_elem_of_In, list_elem_of_fmap in Hj as (x & -> & Hx).
    rewrite Forall_forall in IH. apply IH; [done|]. apply Hint.
    by apply list_elem_of_In.
  - simpl in *. rewrite forallb_forall in Hint |- *.
    intros j Hj. apply list_elem_of_In, list_elem_of_fmap in Hj as (kv & -> & Hkv).
    rewrite Forall_forall in IH. apply IH; [done|]. apply Hint.
    by apply list_elem_of_In.
  - destruct o as [t|ty]; [|reflexivity].
    destruct t as [obj [s|] [name|] [ck|]]; reflexivity.
Qed.

Lemma ints_ok_supported reg x : supported reg x = true → ints_ok x = true.
Proof.
  induction x as [|b|n|f|str|xs IH|xs IH|items IH|o] using tree_ind'; intros Hsup;
    try done.
  - simpl in *. rewrite forallb_forall in Hsup |- *.
    intros x Hx. rewrite Forall_forall in IH. apply IH; [|by apply Hsup].
    by apply list_elem_of_In.
  - simpl in *. rewrite forallb_forall in Hsup |- *.
    intros x Hx. rewrite Forall_forall in IH. apply IH; [|by apply Hsup].
    by apply list_elem_of_In.
  - simpl in *. apply andb_true_iff in Hsup as [_ Hall].
    rewrite forallb_forall in Hall |- *.
    intros x Hx. rewrite Forall_forall in IH. apply IH; [|by apply Hall].
    by apply list_elem_of_In.
Qed.

Lemma supported_by_spec_of reg x : supported reg x = true → supported_by_spec reg x = true.
Proof.
  induction x as [|b|n|f|str|xs IH|xs IH|items IH|o] using tree_ind'; intros Hsup;
    try done.
  - simpl in *. rewrite forallb_forall in Hsup |- *.
    intros x Hx. rewrite Forall_forall in IH. apply IH; [|by apply Hsup].
    by apply list_elem_of_In.
  - simpl in *. rewrite forallb_forall in Hsup |- *.
    intros x Hx. rewrite Forall_forall in IH. apply IH; [|by apply Hsup].
    by apply list_elem_of_In.
  - simpl in *. apply andb_true_iff in Hsup as [Hsup Hall].
    apply andb_true_iff in Hsup as [Hnd _].
    apply andb_true_iff. split; [done|].
    rewrite forallb_forall in Hall |- *.
    intros x Hx. rewrite Forall_forall in IH. apply IH; [|by apply Hall].
    by apply list_elem_of_In.
Qed.
End Default.

Section Dicts.
Context {V : Type}.
Implicit Types (d : list (string * V)) (k : string) (v : V).

Lemma dict_set_fresh k v d : k ∉ d.*1 → dict_set k v d = d ++ [(k, v)].
Proof.
  induction d as [|[k' v'] d IH]; intros Hk; [reflexivity|].
  rewrite fmap_cons in Hk. apply not_elem_of_cons in Hk as [Hne Hk].
  simpl. rewrite decide_False by done. by rewrite IH.
Qed.

Lemma dict_of_pairs_nodup d : NoDup d.*1 → dict_of_pairs d = d.
Proof.
  unfold dict_of_pairs.
  assert (Hgen : ∀ acc, NoDup ((acc ++ d).*1) →
    foldl (λ d kv, dict_set kv.1 kv.2 d) acc d = acc ++ d).
  { induction d as [|[k v] d IH]; intros acc Hnd; simpl.
    - by rewrite app_nil_r.
    - rewrite dict_set_fresh.
      + rewrite IH; rewrite <- app_assoc; done.
      + rewrite fmap_app, fmap_cons in Hnd.
        apply NoDup_app in Hnd as (_ & Hd & _).
        intros Hin. by eapply Hd; [exact Hin | left]. }
  intros Hnd. by apply (Hgen []).
Qed.

Lemma dict_get_Some k v d : NoDup d.*1 → dict_get k d = Some v ↔ (k, v) ∈ d.
Proof.
  induction d as [|[k' v'] d IH]; intros Hnd.
  - split; [done | by intros ?%elem_of_nil].
  - rewrite fmap_cons in Hnd. apply NoDup_cons in Hnd as [Hk' Hnd].
    cbn [dict_get]. destruct (decide (k' = k)) as [->|Hne].
    + split.
      * intros [= ->]. left.
      * intros [[= ->]|Hin]%elem_of_cons; [done|].
        exfalso. apply Hk'. apply list_elem_of_fmap. by exists (k, v).
    + rewrite IH by done. split.
      * intros Hin. by right.
      * intros [[= -> ->]|Hin]%elem_of_cons; done.
Qed.

Lemma dict_get_None k d : dict_get k d = None ↔ k ∉ d.*1.
Proof.
  induction d as [|[k' v'] d IH].
  - split; [intros _; apply not_elem_of_nil | done].
  - rewrite fmap_cons, not_elem_of_cons. cbn [dict_get fst].
    destruct (decide (k' = k)) as [->|Hne].
    + split; [done | by intros [? _]].
    + rewrite IH. split; [intros ?; split; [congruence | done] | by intros [_ ?]].
Qed.

(** A lookup does not depend on the order of the items. *)
Lemma dict_get_perm k d d' : d ≡ₚ d' → NoDup d.*1 → dict_get k d = dict_get k d'.
Proof.
  intros Hp Hnd.
  assert (Hnd' : NoDup d'.*1) by (by rewrite <- Hp).
  destruct (dict_get k d) as [v|] eqn:E.
  - symmetry. apply dict_get_Some; [done|]. rewrite <- Hp.
    by apply dict_get_Some.
  - symmetry. apply dict_get_None. rewrite <- Hp. by apply dict_get_None.
Qed.
End Dicts.

Lemma dict_get_fmap {A B} (f : A → B) k (d : list (string * A)) :
  dict_get k ((λ kv, (kv.1, f kv.2)) <$> d) = f <$> dict_get k d.
Proof.
  induction d as [|[k' v] d IH]; [reflexivity|].
  rewrite fmap_cons. simpl. by destruct (decide (k' = k)).
Qed.

Lemma fmap_keys {A B} (f : A → B) (d : list (string * A)) :
  ((λ kv, (kv.1, f kv.2)) <$> d).*1 = d.*1.
Proof. rewrite <- list_fmap_compose. by apply list_fmap_ext. Qed.

Section Hook.
Variable reg : gmap string Schema.t.

Lemma truthy_image (x : value) : truthy (image x) = truthy x.
Proof.
  destruct x as [|b|n|f|str|xs|xs|items|[t|ty]]; try reflexivity.
  - by destruct xs.
  - by destruct xs.
  - simpl. destruct items as [|kv items]; [reflexivity|].
    rewrite fmap_cons.
    pose proof (sort_by_key_perm ((kv.1, image kv.2)
                  :: ((λ kv : string * value, (kv.1, image kv.2)) <$> items))) as Hp.
    destruct (sort_by_key _); [|reflexivity].
    by apply Permutation_nil_cons in Hp.
Qed.

Lemma sequence_fmap_total {A B} (f : A → res B) (g : A → B) (l : list A) :
  Forall (λ a, f a = inr (g a)) l → sequence (f <$> l) = inr (g <$> l).
Proof.
  induction 1 as [|a l Ha Hl IH]; [reflexivity|].
  by rewrite !fmap_cons, sequence_cons, Ha, IH.
Qed.

(** What the hook makes of the JSON tree of a table. *)
Lemma hook_table obj s name ck :
  reg !! Schema.name s = Some s →
  loads_tree (_json_object_hook reg)
    (canon (json_of (PObj (OTable (Table.mk obj (Some s) name ck)))))
  = inr (PObj (OTable (Table.mk None (Some s) name ck))).
Proof.
  intros Hreg. destruct name as [name|], ck as [ck|]; simpl;
    unfold dict_of_pairs, _json_object_hook; simpl; rewrite Hreg; reflexivity.
Qed.

(** The hook leaves a dict without a true tag alone. *)
Lemma hook_untagged (d : list (string * value)) :
  untagged d = true → _json_object_hook reg d = inr (PDict d).
Proof.
  unfold untagged, _json_object_hook. destruct (dict_get PIPEDAG_TYPE d) as [v|]; simpl.
  - intros Hv. apply negb_true_iff in Hv. by rewrite Hv.
  - done.
Qed.

Lemma untagged_image (items : list (string * value)) :
  NoDup items.*1 → untagged items = true →
  untagged (sort_by_key ((λ kv : string * value, (kv.1, image kv.2)) <$> items)) = true.
Proof.
  intros Hnd Htag. unfold untagged in *.
  rewrite (dict_get_perm _ _ ((λ kv : string * value, (kv.1, image kv.2)) <$> items)).
  - rewrite dict_get_fmap. destruct (dict_get PIPEDAG_TYPE items); simpl; [|done].
    by rewrite truthy_image.
  - apply sort_by_key_perm.
  - rewrite sort_by_key_perm. by rewrite fmap_keys.
Qed.

(** The decoder's reading of the JSON tree of a supported value. *)
Lemma loads_tree_json_of (x : value) :
  supported reg x = true →
  loads_tree (_json_object_hook reg) (canon (json_of x)) = inr (image x).
Proof.
  induction x as [|b|n|f|str|xs IH|xs IH|items IH|o] using tree_ind'; intros Hsup;
    try reflexivity.
  - (* list *)
    cbn [json_of canon loads_tree image].
    rewrite <- !list_fmap_compose.
    rewrite (sequence_fmap_total _ image); [reflexivity|].
    simpl in Hsup. rewrite forallb_forall in Hsup.
    rewrite Forall_forall in IH |- *. intros x Hx. simpl. apply IH; [done|].
    apply Hsup. by apply list_elem_of_In.
  - (* tuple *)
    cbn [json_of canon loads_tree image].
    rewrite <- !list_fmap_compose.
    rewrite (sequence_fmap_total _ image); [reflexivity|].
    simpl in Hsup. rewrite forallb_forall in Hsup.
    rewrite Forall_forall in IH |- *. intros x Hx. simpl. apply IH; [done|].
    apply Hsup. by apply list_elem_of_In.
  - (* dict *)
    cbn [json_of canon loads_tree image].
    simpl in Hsup. apply andb_true_iff in Hsup as [Hsup Hall].
    apply andb_true_iff in Hsup as [Hnd Htag]. apply bool_decide_eq_true in Hnd.
    rewrite (sort_by_key_fmap canon), (sort_by_key_fmap json_of).
    rewrite <- !list_fmap_compose.
    rewrite (sequence_fmap_total _ (λ kv : string * value, (kv.1, image kv.2))).
    + cbn [rbind]. rewrite <- (sort_by_key_fmap image items).
      rewrite dict_of_pairs_nodup
        by (rewrite sort_by_key_perm; by rewrite fmap_keys).
      apply hook_untagged. by apply untagged_image.
    + rewrite sort_by_key_perm.
      rewrite forallb_forall in Hall.
      rewrite Forall_forall in IH |- *. intros kv Hkv. simpl.
      rewrite IH; [reflexivity | done |]. apply Hall. by apply list_elem_of_In.
  - (* table *)
    destruct o as [t|ty]; [|discriminate Hsup]. simpl in Hsup.
    destruct t as [obj [s|] name ck]; [|discriminate Hsup].
    apply bool_decide_eq_true in Hsup. by apply hook_table.
Qed.

(** The value read back equals the value written when the value has no
    tuple, and differs from it when it has one. *)
Lemma py_eqb_image (x : value) :
  supported reg x = true → py_eqb (image x) x = tuple_free x.
Proof.
  induction x as [|b|n|f|str|xs IH|xs IH|items IH|o] using tree_ind'; intros Hsup;
    try (simpl; by rewrite bool_decide_true).
  - reflexivity.
  - simpl in Hsup. destruct f; try discriminate Hsup.
    unfold py_eqb, image, float_eqb. by apply bool_decide_eq_true.
  - (* list *)
    cbn [image py_eqb tuple_free]. simpl in Hsup.
    induction IH as [|x xs Hx Hxs IHxs]; [reflexivity|].
    simpl in Hsup. apply andb_true_iff in Hsup as [Hsx Hsxs].
    rewrite fmap_cons. cbn [forallb]. rewrite (Hx Hsx), (IHxs Hsxs). reflexivity.
  - (* tuple *)
    reflexivity.
  - (* dict *)
    cbn [image py_eqb tuple_free].
    simpl in Hsup. apply andb_true_iff in Hsup as [Hsup Hall].
    apply andb_true_iff in Hsup as [Hnd Htag]. apply bool_decide_eq_true in Hnd.
    rewrite forallb_forall in Hall. rewrite Forall_forall in IH.
    rewrite bool_decide_true by (rewrite sort_by_key_perm; apply length_fmap).
    cbn [andb]. apply eq_true_iff_eq. rewrite !forallb_forall. split.
    + intros Hall' [k v] Hkv. apply list_elem_of_In in Hkv. simpl.
      assert (Hv : py_eqb (image v) v = tuple_free v).
      { apply (IH (k, v) Hkv), (Hall (k, v)). by apply list_elem_of_In. }
      rewrite <- Hv.
      assert (Hin : (k, image v)
                    ∈ sort_by_key ((λ kv : string * value, (kv.1, image kv.2)) <$> items)).
      { rewrite sort_by_key_perm. apply list_elem_of_fmap. by exists (k, v). }
      apply list_elem_of_In, Hall' in Hin. simpl in Hin.
      assert (Hget : dict_get k items = Some v) by (by apply dict_get_Some).
      by rewrite Hget in Hin.
    + intros Hfree kv' Hkv'.
      apply list_elem_of_In in Hkv'. rewrite sort_by_key_perm in Hkv'.
      apply list_elem_of_fmap in Hkv' as ([k v] & -> & Hkv). simpl.
      assert (Hget : dict_get k items = Some v) by (by apply dict_get_Some).
      rewrite Hget.
      assert (Hv : py_eqb (image v) v = tuple_free v).
      { apply (IH (k, v) Hkv), (Hall (k, v)). by apply list_elem_of_In. }
      rewrite Hv. apply (Hfree (k, v)). by apply list_elem_of_In.
  - (* table *)
    destruct o as [t|ty]; [|discriminate Hsup]. simpl.
    unfold Table.eqb. by rewrite bool_decide_true.
Qed.
End Hook.




(** The text of a table. *)
Lemma iterencode_table (obj : option nat) (schema : Schema.t) (name cache_key : string) :
  JSONEncoder.iterencode
    (λ o, let? j := _json_default o in JSONEncoder.encode_json j)
    (PObj (OTable (Table.mk obj (Some schema) (Some name) (Some cache_key))))
  = inr (chars "{" ++ JSONEncoder.encode_basestring "_pipedag_type_" ++ chars ":"
         ++ JSONEncoder.encode_basestring "table" ++ chars ","
         ++ JSONEncoder.encode_basestring "cache_key" ++ chars ":"
         ++ JSONEncoder.encode_basestring cache_key ++ chars ","
         ++ JSONEncoder.encode_basestring "name" ++ chars ":"
         ++ JSONEncoder.encode_basestring name ++ chars ","
         ++ JSONEncoder.encode_basestring "schema" ++ chars ":"
         ++ JSONEncoder.encode_basestring (Schema.name schema) ++ chars "}").
Proof.
  simpl. f_equal. unfold JSONEncoder.encode_basestring.
  repeat first [rewrite <- app_assoc | progress simpl]. reflexivity.
Qed.

(** C5, as the code has it: a table is encoded as the object with the
    keys [_pipedag_type_], [cache_key], [name] and [schema], in this order,
    the first with the value "table", without white space; the value of
    scenario 5 is encoded with "schema":"S" at the end of the object. *)
Theorem json_serialise_table
    (obj : option nat) (schema : Schema.t) (name cache_key : string) :
  PipeDAGStore.json_serialise
    (PObj (OTable (Table.mk obj (Some schema) (Some name) (Some cache_key))))
  = inr (string_of_list_ascii
           (chars "{" ++ JSONEncoder.encode_basestring "_pipedag_type_" ++ chars ":"
            ++ JSONEncoder.encode_basestring "table" ++ chars ","
            ++ JSONEncoder.encode_basestring "cache_key" ++ chars ":"
            ++ JSONEncoder.encode_basestring cache_key ++ chars ","
            ++ JSONEncoder.encode_basestring "name" ++ chars ":"
            ++ JSONEncoder.encode_basestring name ++ chars ","
            ++ JSONEncoder.encode_basestring "schema" ++ chars ":"
            ++ JSONEncoder.encode_basestring (Schema.name schema) ++ chars "}"))
  ∧ PipeDAGStore.json_serialise value_s5
    = inr (dq "{'k':[{'_pipedag_type_':'table','cache_key':'abc','name':'t_0000_abc','schema':'S'}]}").
Proof.
  split; [|vm_compute; reflexivity].
  unfold PipeDAGStore.json_serialise, JSONEncoder.encode.
  rewrite iterencode_table. reflexivity.
Qed.

(** C5 fails as stated: the text of scenario 5 has the key "schema" where
    the claim has "stage". *)
Lemma json_serialise_has_no_stage_key :
  PipeDAGStore.json_serialise value_s5
  ≠ inr (dq "{'k':[{'_pipedag_type_':'table','cache_key':'abc','name':'t_0000_abc','stage':'S'}]}").
Proof. vm_compute. discriminate. Qed.

(** * Further properties of the lock managers *)

Section StateFacts.
Import BaseLockManager.

Lemma set_lock_state_states lock st m :
  lock_states (set_lock_state lock st m)
  = if decide (st = UNLOCKED) then delete lock (lock_states m)
    else <[lock := st]> (lock_states m).
Proof.
  unfold set_lock_state, broadcast, with_states.
  repeat (case_match || case_decide); simpl; try reflexivity;
    apply delete_insert_eq.
Qed.

Lemma set_lock_state_lookup lock st m :
  lock_states (set_lock_state lock st m) !! lock
  = if decide (st = UNLOCKED) then None else Some st.
Proof.
  rewrite set_lock_state_states. case_decide.
  - apply lookup_delete_eq.
  - apply lookup_insert_eq.
Qed.

Lemma set_lock_state_lookup_ne lock l st m :
  l ≠ lock →
  lock_states (set_lock_state lock st m) !! l = lock_states m !! l.
Proof.
  intros Hne. rewrite set_lock_state_states. case_decide.
  - by apply lookup_delete_ne.
  - by apply lookup_insert_ne.
Qed.

Lemma set_lock_state_delivered lock new m :
  delivered (set_lock_state lock new m)
  = delivered m ++
    (if decide (lock_states m !! lock = Some new) then []
     else (λ f, (f, (lock, default UNLOCKED (lock_states m !! lock), new)))
            <$> elements (state_listeners m)).
Proof.
  unfold set_lock_state, broadcast, with_states.
  destruct (lock_states m !! lock) as [old|] eqn:E; cbn [default].
  - destruct (decide (old ≠ new)) as [Hne|Heq].
    + rewrite (decide_False (P := Some old = Some new))
        by (intros [= ->]; by apply Hne).
      by destruct (decide (new = UNLOCKED)).
    + apply dec_stable in Heq. subst old.
      rewrite (decide_True (P := Some new = Some new)) by done.
      rewrite app_nil_r. by destruct (decide (new = UNLOCKED)).
  - rewrite (decide_False (P := None = Some new)) by done.
    by destruct (decide (new = UNLOCKED)).
Qed.

Lemma heard_set_lock_state f lock new m :
  heard f (set_lock_state lock new m)
  = heard f m ++
    (if decide (f ∈ state_listeners m ∧ lock_states m !! lock ≠ Some new)
     then [(lock, default UNLOCKED (lock_states m !! lock), new)] else []).
Proof.
  unfold heard. rewrite set_lock_state_delivered, filter_app, fmap_app. f_equal.
  destruct (decide (lock_states m !! lock = Some new)) as [Hs|Hs].
  - rewrite decide_False by tauto. reflexivity.
  - rewrite filter_calls_of by apply NoDup_elements.
    destruct (decide (f ∈ elements (state_listeners m))) as [Hin|Hin];
      rewrite elem_of_elements in Hin.
    + by rewrite decide_True.
    + rewrite decide_False by tauto. reflexivity.
Qed.

(** A second identical update is no update. *)
Lemma set_lock_state_same lock st m :
  lock_states m !! lock = Some st → st ≠ UNLOCKED → set_lock_state lock st m = m.
Proof.
  intros Hs Hne. unfold set_lock_state, broadcast, with_states. rewrite Hs.
  rewrite (decide_False (P := st ≠ st)) by (intros Hn; by apply Hn).
  rewrite (decide_False (P := st = UNLOCKED)) by done.
  rewrite insert_id by done. by destruct m.
Qed.
End StateFacts.

(** X1: [get_lock_state] answers what [set_lock_state] has recorded: after
    [set_lock_state(lock, st)], the state of [lock] is [st] (UNLOCKED
    included, although its entry is deleted), and the state of every other
    lock is what it was. *)
Theorem get_lock_state_after_set
    (lock l : Lockable) (st : LockState) (m : BaseLockManager.t) :
  fst (BaseLockManager.get_lock_state l (BaseLockManager.set_lock_state lock st m))
  = if decide (l = lock) then inr st
    else fst (BaseLockManager.get_lock_state l m).
Proof.
  unfold BaseLockManager.get_lock_state. rewrite !bind_run. unfold get.
  destruct (decide (l = lock)) as [->|Hne].
  - rewrite set_lock_state_lookup. by destruct (decide (st = UNLOCKED)) as [->|].
  - rewrite set_lock_state_lookup_ne by done.
    by destruct (BaseLockManager.lock_states m !! l).
Qed.

(** X2: [set_lock_state(lock, new)] calls a listener exactly when it is
    registered and the recorded state of the lock is not [new] (a lock
    without an entry counts as changed); the listener is then called once,
    with the lock, the recorded state (UNLOCKED without an entry) and
    [new]. The set of listeners stays as it is. *)
Theorem set_lock_state_calls_listeners
    (f : listener) (lock : Lockable) (new : LockState) (m : BaseLockManager.t) :
  let m' := BaseLockManager.set_lock_state lock new m in
  BaseLockManager.heard f m'
  = BaseLockManager.heard f m ++
    (if decide (f ∈ BaseLockManager.state_listeners m
                ∧ BaseLockManager.lock_states m !! lock ≠ Some new)
     then [(lock, default UNLOCKED (BaseLockManager.lock_states m !! lock), new)]
     else [])
  ∧ BaseLockManager.state_listeners m' = BaseLockManager.state_listeners m.
Proof.
  split; [apply heard_set_lock_state | apply set_lock_state_listeners].
Qed.

(** X3: setting a lock to the state it was just set to changes nothing and
    calls nobody, for every state but UNLOCKED. *)
Theorem set_lock_state_twice
    (lock : Lockable) (st : LockState) (m : BaseLockManager.t) :
  st ≠ UNLOCKED →
  BaseLockManager.set_lock_state lock st (BaseLockManager.set_lock_state lock st m)
  = BaseLockManager.set_lock_state lock st m.
Proof.
  intros Hne. apply set_lock_state_same; [|exact Hne].
  rewrite set_lock_state_lookup. by rewrite decide_False.
Qed.

Lemma set_lock_state_twice_witness :
  let m := BaseLockManager.mk {[1%nat]} ∅ [] in
  LOCKED ≠ UNLOCKED
  ∧ BaseLockManager.set_lock_state (LStr "a") LOCKED
      (BaseLockManager.set_lock_state (LStr "a") LOCKED m)
    = BaseLockManager.set_lock_state (LStr "a") LOCKED m.
Proof.
  intros m.
  assert (Hne : LOCKED ≠ UNLOCKED) by discriminate.
  split; [exact Hne|]. exact (set_lock_state_twice (LStr "a") LOCKED m Hne).
Defined.

(** X4: [add_lock_state_listener] refuses what is not callable with
    [ValueError] and changes nothing; it accepts a callable, also one that
    is registered already, and the listener is then called once for the
    next change of any lock. *)
Theorem add_lock_state_listener_hears
    (f : listener) (lock : Lockable) (new : LockState) (m : BaseLockManager.t) :
  let r := BaseLockManager.add_lock_state_listener (BaseLockManager.Callable f) m in
  fst r = inr tt
  ∧ BaseLockManager.add_lock_state_listener (BaseLockManager.Callable f) (snd r)
    = (inr tt, snd r)
  ∧ BaseLockManager.add_lock_state_listener BaseLockManager.NotCallable m
    = (inl (ValueError "Listener must be callable."), m)
  ∧ BaseLockManager.heard f (BaseLockManager.set_lock_state lock new (snd r))
    = BaseLockManager.heard f m ++
      (if decide (BaseLockManager.lock_states m !! lock = Some new) then []
       else [(lock, default UNLOCKED (BaseLockManager.lock_states m !! lock), new)]).
Proof.
  cbv zeta. split; [reflexivity|]. split; [|split; [reflexivity|]].
  - unfold BaseLockManager.add_lock_state_listener, modify. simpl.
    do 2 f_equal. by rewrite (assoc_L (∪)), union_idemp_L.
  - rewrite heard_set_lock_state. simpl.
    destruct (decide (BaseLockManager.lock_states m !! lock = Some new)) as [Hs|Hs].
    + rewrite decide_False by tauto. reflexivity.
    + rewrite decide_True; [reflexivity|].
      split; [by apply elem_of_union_l, elem_of_singleton | exact Hs].
Qed.

(** X5: [remove_lock_state_listener] of a registered listener returns, and
    the listener is not called for any later change; the other listeners
    stay registered; removing it once more raises [KeyError] and changes
    nothing. *)
Theorem remove_lock_state_listener_silences
    (f : listener) (m : BaseLockManager.t) :
  f ∈ BaseLockManager.state_listeners m →
  let r := BaseLockManager.remove_lock_state_listener f m in
  fst r = inr tt
  ∧ (∀ lock new,
       BaseLockManager.heard f (BaseLockManager.set_lock_state lock new (snd r))
       = BaseLockManager.heard f m)
  ∧ (∀ g, g ≠ f →
       (g ∈ BaseLockManager.state_listeners (snd r)
        ↔ g ∈ BaseLockManager.state_listeners m))
  ∧ BaseLockManager.remove_lock_state_listener f (snd r)
    = (inl (KeyError "listener"), snd r).
Proof.
  intros Hf. cbv zeta.
  unfold BaseLockManager.remove_lock_state_listener. rewrite !bind_run. unfold get.
  rewrite decide_True by done. cbn [fst snd put].
  split; [reflexivity|]. split; [|split].
  - intros lock new. rewrite heard_set_lock_state. cbn.
    rewrite decide_False; [apply app_nil_r|].
    rewrite elem_of_difference, elem_of_singleton. tauto.
  - intros g Hg. cbn. rewrite elem_of_difference, elem_of_singleton. tauto.
  - cbn. rewrite decide_False; [reflexivity|].
    rewrite elem_of_difference, elem_of_singleton. tauto.
Qed.

Lemma remove_lock_state_listener_silences_witness :
  let m := BaseLockManager.mk {[1%nat; 2%nat]} ∅ [] in
  1%nat ∈ BaseLockManager.state_listeners m
  ∧ BaseLockManager.heard 1%nat
      (BaseLockManager.set_lock_state (LStr "a") LOCKED
         (snd (BaseLockManager.remove_lock_state_listener 1%nat m)))
    = BaseLockManager.heard 1%nat m.
Proof.
  intros m.
  assert (Hf : 1%nat ∈ BaseLockManager.state_listeners m)
    by (by apply elem_of_union_l, elem_of_singleton).
  split; [exact Hf|].
  destruct (remove_lock_state_listener_silences 1%nat m Hf) as (_ & H & _).
  exact (H (LStr "a") LOCKED).
Defined.

Section FileFacts.
Import BaseLockManager FileLockManager.

Variable L : Lockable.

Local Abbreviation held := (file_held L).

Lemma run_app cs1 cs2 m : run (cs1 ++ cs2) m = run cs2 (run cs1 m).
Proof. apply foldl_app. Qed.

Lemma file_acquire_first m :
  locks m !! L = None → exec (Acquire L Granted) m = held (lock_path m L) 1 m.
Proof.
  intros Hm. unfold exec, acquire. rewrite bind_run. unfold get.
  rewrite Hm, lookup_insert_eq.
  change (is_locked (mkFileLock (lock_path m L) 0)) with false.
  cbn [snd put]. unfold file_held, fl_acquire.
  cbn [lock_file lock_counter]. by rewrite insert_insert_eq.
Qed.

Lemma file_acquire_again p c m :
  exec (Acquire L Granted) (held p c m) = held p (S c) m.
Proof.
  unfold exec, acquire. rewrite bind_run. unfold get, file_held.
  cbn [locks base base_path files]. rewrite lookup_insert_eq.
  cbv beta iota. rewrite lookup_insert_eq.
  assert (Hg : (if is_locked (mkFileLock p c) then Granted else Granted) = Granted)
    by (by destruct (is_locked _)).
  rewrite Hg.
  cbn [snd put]. unfold fl_acquire. cbn [lock_file lock_counter].
  rewrite insert_insert_eq, (assoc_L (∪)), union_idemp_L.
  rewrite set_lock_state_same; [reflexivity| |done].
  rewrite set_lock_state_lookup. by rewrite decide_False.
Qed.

Lemma file_release_held p c m :
  FileLockManager.release L (held p (S (S c)) m) = (inr tt, held p (S c) m).
Proof.
  unfold FileLockManager.release. rewrite bind_run. unfold get, file_held.
  cbn [locks base base_path files]. rewrite lookup_insert_eq.
  rewrite bind_run. unfold put, fl_release, is_locked.
  cbn [lock_file lock_counter pred]. rewrite bool_decide_true by lia.
  unfold ret. by rewrite insert_insert_eq.
Qed.

Lemma file_release_last p m :
  locks m !! L = None →
  FileLockManager.release L (held p 1 m)
  = (inr tt,
     mk (set_lock_state L UNLOCKED (set_lock_state L LOCKED (base m)))
        (base_path m) (locks m) (files m ∖ {[p]})).
Proof.
  intros Hm. unfold FileLockManager.release. rewrite bind_run. unfold get, file_held.
  cbn [locks base base_path files]. rewrite lookup_insert_eq.
  rewrite bind_run. unfold put, fl_release, is_locked.
  cbn [lock_file lock_counter pred locks base base_path files].
  rewrite bool_decide_false by lia.
  rewrite decide_True by (by apply elem_of_union_l, elem_of_singleton).
  rewrite insert_insert_eq, delete_insert_eq, delete_id by done.
  do 2 f_equal. apply set_eq. intros x.
  rewrite !elem_of_difference, elem_of_union, elem_of_singleton. tauto.
Qed.

Lemma file_acquire_n p c n m :
  run (replicate n (Acquire L Granted)) (held p c m) = held p (c + n) m.
Proof.
  revert c. induction n as [|n IH]; intros c.
  - by rewrite Nat.add_0_r.
  - cbn [replicate run foldl]. rewrite file_acquire_again.
    change (foldl (λ m c, exec c m) (held p (S c) m) (replicate n (Acquire L Granted)))
      with (run (replicate n (Acquire L Granted)) (held p (S c) m)).
    rewrite IH. f_equal. lia.
Qed.

Lemma file_release_n p c k m :
  run (replicate k (Release L)) (held p (S (c + k)) m) = held p (S c) m.
Proof.
  induction k as [|k IH].
  - by rewrite Nat.add_0_r.
  - cbn [replicate run foldl]. rewrite Nat.add_succ_r.
    unfold exec at 2. rewrite file_release_held. cbn [snd].
    exact IH.
Qed.

Lemma file_acquired_n n m :
  locks m !! L = None →
  run (replicate (S n) (Acquire L Granted)) m = held (lock_path m L) (S n) m.
Proof.
  intros Hm. cbn [replicate run foldl]. rewrite file_acquire_first by done.
  apply (file_acquire_n _ 1 n).
Qed.
End FileFacts.

(** X6: the file manager counts. For a lock that is not tracked and whose
    state is UNLOCKED, after [n+1] calls of [acquire] and [k <= n] calls of
    [release] the lock is still tracked, with [n+1-k] holds, its state is
    LOCKED and its lock file exists; a registered listener has been called
    once, with UNLOCKED -> LOCKED. After [n+1] calls of [release] the lock is
    untracked, its entry and its file are gone, and the listener has been
    called a second time, with LOCKED -> UNLOCKED. *)
Theorem file_lock_reentrant
    (L : Lockable) (m : FileLockManager.t) (n k : nat) (f : listener) :
  FileLockManager.locks m !! L = None →
  default UNLOCKED (BaseLockManager.lock_states (FileLockManager.base m) !! L)
  = UNLOCKED →
  (k ≤ n)%nat →
  let path := FileLockManager.lock_path m L in
  let acquires := replicate (S n) (FileLockManager.Acquire L FileLockManager.Granted) in
  let held :=
    FileLockManager.run (acquires ++ replicate k (FileLockManager.Release L)) m in
  let freed :=
    FileLockManager.run (acquires ++ replicate (S n) (FileLockManager.Release L)) m in
  let calls trs :=
    if decide (f ∈ BaseLockManager.state_listeners (FileLockManager.base m))
    then trs else [] in
  FileLockManager.locks held !! L
  = Some (FileLockManager.mkFileLock path (S n - k))
  ∧ BaseLockManager.lock_states (FileLockManager.base held) !! L = Some LOCKED
  ∧ path ∈ FileLockManager.files held
  ∧ BaseLockManager.heard f (FileLockManager.base held)
    = BaseLockManager.heard f (FileLockManager.base m) ++ calls [(L, UNLOCKED, LOCKED)]
  ∧ FileLockManager.locks freed !! L = None
  ∧ BaseLockManager.lock_states (FileLockManager.base freed) !! L = None
  ∧ (path ∉ FileLockManager.files freed)
  ∧ BaseLockManager.heard f (FileLockManager.base freed)
    = BaseLockManager.heard f (FileLockManager.base m)
      ++ calls [(L, UNLOCKED, LOCKED); (L, LOCKED, UNLOCKED)].
Proof.
  intros Hm Hst Hk path acquires held freed calls.
  assert (Hne : BaseLockManager.lock_states (FileLockManager.base m) !! L
                ≠ Some LOCKED).
  { intros E. rewrite E in Hst. discriminate Hst. }
  assert (Hheld : held = file_held L path (S n - k) m).
  { subst held acquires. rewrite run_app, file_acquired_n by done.
    replace (S n) with (S ((n - k) + k)) by lia.
    rewrite file_release_n. f_equal. lia. }
  assert (Hfreed : freed
    = FileLockManager.mk
        (BaseLockManager.set_lock_state L UNLOCKED
           (BaseLockManager.set_lock_state L LOCKED (FileLockManager.base m)))
        (FileLockManager.base_path m) (FileLockManager.locks m)
        (FileLockManager.files m ∖ {[path]})).
  { subst freed acquires. rewrite run_app, file_acquired_n by done.
    rewrite (replicate_S_end n (FileLockManager.Release L)), run_app.
    replace (S n) with (S (0 + n)) by lia. rewrite file_release_n.
    cbn [FileLockManager.run foldl FileLockManager.exec].
    rewrite file_release_last by done. reflexivity. }
  assert (Hlocked : BaseLockManager.heard f
             (BaseLockManager.set_lock_state L LOCKED (FileLockManager.base m))
           = BaseLockManager.heard f (FileLockManager.base m)
             ++ calls [(L, UNLOCKED, LOCKED)]).
  { rewrite heard_set_lock_state, Hst. subst calls. cbv beta.
    destruct (decide (f ∈ _)) as [Hf|Hf].
    - by rewrite decide_True.
    - rewrite decide_False by tauto. reflexivity. }
  rewrite Hheld, Hfreed. unfold file_held.
  cbn [FileLockManager.locks FileLockManager.base FileLockManager.files].
  split; [apply lookup_insert_eq|].
  split; [by rewrite set_lock_state_lookup, decide_False|].
  split; [by apply elem_of_union_l, elem_of_singleton|].
  split; [exact Hlocked|].
  split; [exact Hm|].
  split; [by rewrite set_lock_state_lookup, decide_True|].
  split.
  { rewrite elem_of_difference, elem_of_singleton. tauto. }
  rewrite heard_set_lock_state, Hlocked, set_lock_state_listeners,
    set_lock_state_lookup.
  rewrite (decide_False (P := LOCKED = UNLOCKED)) by done.
  subst calls. cbv beta. cbn [default].
  destruct (decide (f ∈ _)) as [Hf|Hf].
  - rewrite decide_True by (split; [exact Hf | discriminate]).
    by rewrite <- app_assoc.
  - rewrite decide_False by tauto. by rewrite !app_nil_r.
Qed.

Lemma file_lock_reentrant_witness :
  let L := LStr "stage_a" in
  let m := FileLockManager.exec
             (FileLockManager.AddListener (BaseLockManager.Callable 1))
             (FileLockManager.init "/home/flow" "/tmp/locks") in
  let held :=
    FileLockManager.run
      (replicate 3 (FileLockManager.Acquire L FileLockManager.Granted)
       ++ replicate 1 (FileLockManager.Release L)) m in
  FileLockManager.locks m !! L = None
  ∧ default UNLOCKED (BaseLockManager.lock_states (FileLockManager.base m) !! L)
    = UNLOCKED
  ∧ (1 ≤ 2)%nat
  ∧ FileLockManager.locks held !! L
    = Some (FileLockManager.mkFileLock "/tmp/locks/stage_a.lock" 2).
Proof.
  intros L m held.
  assert (H1 : FileLockManager.locks m !! L = None) by reflexivity.
  assert (H2 : default UNLOCKED
                 (BaseLockManager.lock_states (FileLockManager.base m) !! L)
               = UNLOCKED) by reflexivity.
  assert (H3 : (1 ≤ 2)%nat) by lia.
  split; [exact H1|]. split; [exact H2|]. split; [exact H3|].
  exact (proj1 (file_lock_reentrant L m 2 1 1%nat H1 H2 H3)).
Defined.

Section FileInvariant.
Import BaseLockManager FileLockManager.

Lemma file_exec_inv c m : (∀ L, file_inv m L) → ∀ L, file_inv (exec c m) L.
Proof.
  intros Inv L. destruct (Inv L) as (Ist & Itr & Iheld).
  destruct c as [l a|l|a|f|l]; cbn [exec].
  - (* acquire *)
    unfold acquire. rewrite bind_run. unfold get.
    set (locks1 := match locks m !! l with
                   | None => <[l := mkFileLock (lock_path m l) 0]> (locks m)
                   | Some _ => locks m
                   end).
    assert (Hl : ∃ f_lock, locks1 !! l = Some f_lock
                 ∧ (locks m !! l = Some f_lock
                    ∨ (locks m !! l = None ∧ is_locked f_lock = false))).
    { subst locks1. destruct (locks m !! l) eqn:El; [eauto|].
      rewrite lookup_insert_eq. eexists. split; [reflexivity|]. by right. }
    assert (Hother : ∀ l', l' ≠ l → locks1 !! l' = locks m !! l').
    { intros l' Hl'. subst locks1. destruct (locks m !! l); [done|].
      by rewrite lookup_insert_ne. }
    destruct Hl as (f_lock & Hl & Hwas). rewrite Hl. clearbody locks1.
    destruct (is_locked f_lock) eqn:Elocked; [|destruct a as [|e created]].
    + (* held already *)
      cbn [snd put]. unfold file_inv. cbn [locks base].
      destruct (decide (L = l)) as [->|Hne].
      * rewrite lookup_insert_eq, set_lock_state_lookup, decide_False by done.
        split; [intros st [= <-]; by left|]. split; eauto.
      * rewrite lookup_insert_ne, set_lock_state_lookup_ne, Hother by done.
        done.
    + (* granted *)
      cbn [snd put]. unfold file_inv. cbn [locks base].
      destruct (decide (L = l)) as [->|Hne].
      * rewrite lookup_insert_eq, set_lock_state_lookup, decide_False by done.
        split; [intros st [= <-]; by left|]. split; eauto.
      * rewrite lookup_insert_ne, set_lock_state_lookup_ne, Hother by done.
        done.
    + (* refused *)
      rewrite bind_run. cbn [snd put raise]. unfold file_inv. cbn [locks base].
      split; [exact Ist|].
      destruct (decide (L = l)) as [->|Hne].
      * rewrite Hl. split; [eauto|]. intros f0 [= <-] Hf0. congruence.
      * rewrite Hother by done. done.
  - (* release *)
    unfold release. rewrite bind_run. unfold get.
    destruct (locks m !! l) as [f_lock|] eqn:El; [|exact (Inv L)].
    rewrite bind_run. unfold put at 1.
    destruct (is_locked (fl_release f_lock)) eqn:Erel.
    { cbn [snd ret]. unfold file_inv. cbn [locks base].
      split; [exact Ist|].
      destruct (decide (L = l)) as [->|Hne].
      - rewrite lookup_insert_eq. split; [eauto|]. intros f0 _ _.
        apply (Iheld f_lock El). unfold is_locked, fl_release in *.
        cbn [lock_counter] in Erel. apply bool_decide_eq_true in Erel.
        apply bool_decide_eq_true. lia.
      - by rewrite lookup_insert_ne. }
    cbn [locks base files base_path].
    destruct (decide (lock_file (fl_release f_lock) ∈ files m)).
    + cbn [snd put]. unfold file_inv. cbn [locks base].
      destruct (decide (L = l)) as [->|Hne].
      * rewrite lookup_delete_eq, set_lock_state_lookup, decide_True by done.
        split; [intros st [=]|]. split; [intros [=] | intros f0 [=]].
      * rewrite lookup_delete_ne, lookup_insert_ne,
          set_lock_state_lookup_ne by done.
        done.
    + cbn [snd raise]. unfold file_inv. cbn [locks base].
      split; [exact Ist|].
      destruct (decide (L = l)) as [->|Hne].
      * rewrite lookup_insert_eq. split; [eauto|]. intros f0 [= <-] Hf0. congruence.
      * by rewrite lookup_insert_ne.
  - destruct a; exact (Inv L).
  - unfold on_base, zoom, remove_lock_state_listener. rewrite bind_run.
    unfold get. destruct (decide (f ∈ _)); exact (Inv L).
  - unfold on_base, zoom, get_lock_state. rewrite bind_run. unfold get.
    destruct (lock_states (base m) !! l) as [s|] eqn:El; [exact (Inv L)|].
    rewrite bind_run. cbn [snd put ret]. unfold file_inv.
    cbn [base locks with_states lock_states].
    destruct (decide (L = l)) as [->|Hne].
    + rewrite lookup_insert_eq. split; [intros st [= <-]; by right|].
      split; [intros [=]|]. intros f0 Hf0 Hlocked.
      rewrite (Iheld f0 Hf0 Hlocked) in El. discriminate El.
    + rewrite lookup_insert_ne by done. done.
Qed.

Lemma file_run_inv cs m : (∀ L, file_inv m L) → ∀ L, file_inv (run cs m) L.
Proof.
  revert m. induction cs as [|c cs IH]; intros m Inv; [exact Inv|].
  apply (IH (exec c m)), file_exec_inv, Inv.
Qed.

Lemma file_init_inv cwd dir L : file_inv (init cwd dir) L.
Proof.
  unfold file_inv. cbn. rewrite !lookup_empty.
  split; [intros st [=]|]. split; [intros [=] | intros f0 [=]].
Qed.

(** What [get_lock_state] answers, from the state map. *)
Lemma file_get_lock_state L m :
  fst (on_base (get_lock_state L) m)
  = inr (default UNLOCKED (lock_states (base m) !! L)).
Proof.
  unfold on_base, zoom, get_lock_state. rewrite bind_run. unfold get.
  by destruct (lock_states (base m) !! L).
Qed.
End FileInvariant.

(** X7: after any sequence of calls on a new file manager, whether the
    calls returned or raised, [get_lock_state] answers LOCKED or UNLOCKED
    for every lock; it answers LOCKED for every lock that the manager holds,
    and only for locks that the manager tracks. A tracked lock need not be
    held: when [acquire] of an untracked lock raises, the lock is tracked
    afterwards, its hold count is zero, and [get_lock_state] answers
    UNLOCKED for it. *)
Theorem file_held_locked_tracked
    (cwd dir : string) (cs : list FileLockManager.call) (L : Lockable) :
  let m := FileLockManager.run cs (FileLockManager.init cwd dir) in
  let state m := fst (FileLockManager.on_base (BaseLockManager.get_lock_state L) m) in
  (state m = inr LOCKED ∨ state m = inr UNLOCKED)
  ∧ (∀ f_lock, FileLockManager.locks m !! L = Some f_lock →
               FileLockManager.is_locked f_lock = true → state m = inr LOCKED)
  ∧ (state m = inr LOCKED → is_Some (FileLockManager.locks m !! L))
  ∧ (FileLockManager.locks m !! L = None →
     ∀ (e : exn) (created : bool),
       let m' := FileLockManager.exec
                   (FileLockManager.Acquire L (FileLockManager.Refused e created)) m in
       FileLockManager.locks m' !! L
       = Some (FileLockManager.mkFileLock (FileLockManager.lock_path m L) 0)
       ∧ state m' = inr UNLOCKED).
Proof.
  intros m state.
  destruct (file_run_inv cs _ (file_init_inv cwd dir) L) as (Ist & Itr & Iheld).
  fold m in Ist, Itr, Iheld. subst state. cbv beta.
  rewrite file_get_lock_state.
  assert (Hstate : default UNLOCKED
                     (BaseLockManager.lock_states (FileLockManager.base m) !! L) = LOCKED
                   → BaseLockManager.lock_states (FileLockManager.base m) !! L
                     = Some LOCKED).
  { destruct (BaseLockManager.lock_states _ !! L) as [st|]; cbn; [congruence|done]. }
  split; [|split; [|split]].
  - destruct (BaseLockManager.lock_states _ !! L) as [st|] eqn:Est; cbn.
    + destruct (Ist st eq_refl) as [-> | ->]; [by left | by right].
    + by right.
  - intros f_lock Hf Hlocked. by rewrite (Iheld f_lock Hf Hlocked).
  - intros [= Hst]. apply Itr, Hstate, Hst.
  - intros Hm e created m'.
    assert (Hm' : m' = FileLockManager.mk (FileLockManager.base m)
                         (FileLockManager.base_path m)
                         (<[L := FileLockManager.mkFileLock
                                   (FileLockManager.lock_path m L) 0]>
                            (FileLockManager.locks m))
                         (if created
                          then {[FileLockManager.lock_path m L]} ∪ FileLockManager.files m
                          else FileLockManager.files m)).
    { subst m'. unfold FileLockManager.exec, FileLockManager.acquire.
      rewrite bind_run. unfold get. rewrite Hm, lookup_insert_eq. reflexivity. }
    rewrite file_get_lock_state, Hm'.
    cbn [FileLockManager.locks FileLockManager.base].
    split; [apply lookup_insert_eq|].
    destruct (BaseLockManager.lock_states _ !! L) as [st|] eqn:Est; cbn; [|done].
    destruct (Ist st eq_refl) as [-> | ->]; [|done].
    destruct (Itr eq_refl) as [f0 Hf0]. congruence.
Qed.

Section ZooKeeperFacts.
Import BaseLockManager ZooKeeperLockManager.

Lemma zk_keys (locks : ODict.t Lockable KazooLock) L :
  L ∈ ODict.keys locks ↔ is_Some (locks !! L).
Proof. apply odict_elem_of_keys. Qed.

Lemma set_each_listeners st ls b :
  state_listeners (foldl (λ b lock, set_lock_state lock st b) b ls)
  = state_listeners b.
Proof.
  revert b. induction ls as [|l ls IH]; intros b; [reflexivity|].
  cbn [foldl]. by rewrite IH, set_lock_state_listeners.
Qed.

Lemma set_each_lookup st ls b L :
  st ≠ UNLOCKED →
  lock_states (foldl (λ b lock, set_lock_state lock st b) b ls) !! L
  = if decide (L ∈ ls) then Some st else lock_states b !! L.
Proof.
  intros Hst. revert b. induction ls as [|l ls IH]; intros b.
  - rewrite decide_False by apply not_elem_of_nil. reflexivity.
  - cbn [foldl]. rewrite IH.
    destruct (decide (L ∈ ls)) as [Hin|Hin].
    + rewrite decide_True by (by right). reflexivity.
    + destruct (decide (L = l)) as [->|Hne].
      * rewrite decide_True by left.
        by rewrite set_lock_state_lookup, decide_False.
      * rewrite decide_False by (intros [?|?]%elem_of_cons; done).
        by apply set_lock_state_lookup_ne.
Qed.

(** A lock that comes twice in the walk is set once: the second time it
    has the state already. *)
Lemma set_each_heard f st ls b L :
  st ≠ UNLOCKED →
  about L (heard f (foldl (λ b lock, set_lock_state lock st b) b ls))
  = about L (heard f b) ++
    (if decide (L ∈ ls ∧ f ∈ state_listeners b ∧ lock_states b !! L ≠ Some st)
     then [(L, default UNLOCKED (lock_states b !! L), st)] else []).
Proof.
  intros Hst. revert b. induction ls as [|l ls IH]; intros b.
  - rewrite decide_False; [by rewrite app_nil_r|].
    intros [Hin _]. by apply not_elem_of_nil in Hin.
  - cbn [foldl]. rewrite IH, heard_set_lock_state, set_lock_state_listeners.
    unfold about. rewrite filter_app, <- app_assoc. f_equal.
    destruct (decide (L = l)) as [->|Hne].
    + rewrite (decide_False (P := l ∈ ls ∧ _)).
      2:{ rewrite set_lock_state_lookup, (decide_False (P := st = UNLOCKED)) by done.
          tauto. }
      rewrite app_nil_r.
      destruct (decide (f ∈ state_listeners b ∧ lock_states b !! l ≠ Some st))
        as [Hc|Hc].
      * rewrite decide_True by (split; [left|exact Hc]).
        rewrite filter_cons_True by reflexivity. reflexivity.
      * rewrite decide_False by tauto. reflexivity.
    + rewrite set_lock_state_lookup_ne by done.
      assert (Hdrop : ∀ trs : list transition,
                filter (λ tr : transition, tr.1.1 = L)
                  (if decide (f ∈ state_listeners b ∧ lock_states b !! l ≠ Some st)
                   then [(l, default UNLOCKED (lock_states b !! l), st)] else [])
                ++ trs = trs).
      { intros trs.
        destruct (decide (f ∈ state_listeners b ∧ lock_states b !! l ≠ Some st));
          [|reflexivity].
        rewrite filter_cons_False by (simpl; congruence). reflexivity. }
      etransitivity; [apply Hdrop|].
      destruct (decide (L ∈ ls ∧ f ∈ state_listeners b ∧ lock_states b !! L ≠ Some st))
        as [Hc|Hc].
      * rewrite decide_True; [reflexivity|].
        destruct Hc as [? ?]. split; [by right | done].
      * rewrite decide_False; [reflexivity|].
        intros [[?|?]%elem_of_cons ?]; [done|]. apply Hc. tauto.
Qed.

Lemma session_state_locked k : session_state k ≠ UNLOCKED.
Proof. by destruct k. Qed.

Lemma zk_lock_listener_set_all k m :
  _lock_listener k m = set_all (session_state k) m.
Proof. by destruct k. Qed.

(** The ZooKeeper manager tracks exactly the locks whose state is not
    UNLOCKED. *)
Lemma zk_exec_tracked c m :
  (∀ L, locks m !! L = None
        ↔ default UNLOCKED (lock_states (base m) !! L) = UNLOCKED) →
  ∀ L, locks (exec c m) !! L = None
       ↔ default UNLOCKED (lock_states (base (exec c m)) !! L) = UNLOCKED.
Proof.
  intros Inv L. specialize (Inv L) as InvL.
  destruct c as [l g|l|k|a|f|l]; cbn [exec].
  - destruct g; [|exact InvL]. cbn [acquire negb snd modify locks base].
    destruct (decide (L = l)) as [->|Hne].
    + rewrite odict_lookup_insert_eq, set_lock_state_lookup, decide_False by done.
      split; intros [=].
    + by rewrite odict_lookup_insert_ne, set_lock_state_lookup_ne.
  - unfold release. rewrite bind_run. unfold get.
    destruct (locks m !! l) as [z|] eqn:El; [|exact InvL].
    cbn [snd put locks base].
    destruct (decide (L = l)) as [->|Hne].
    + by rewrite odict_lookup_delete_eq, set_lock_state_lookup, decide_True.
    + by rewrite odict_lookup_delete_ne, set_lock_state_lookup_ne.
  - rewrite zk_lock_listener_set_all. unfold set_all. cbn [locks base].
    rewrite set_each_lookup by apply session_state_locked.
    destruct (decide (L ∈ ODict.keys (locks m))) as [Hin|Hin];
      rewrite zk_keys in Hin.
    + destruct Hin as [z Hz]. rewrite Hz. cbn [default].
      split; [intros [=] | intros E; by apply session_state_locked in E].
    + exact InvL.
  - destruct a; exact InvL.
  - unfold on_base, zoom, remove_lock_state_listener. rewrite bind_run.
    unfold get. by destruct (decide (f ∈ _)).
  - unfold on_base, zoom, get_lock_state. rewrite bind_run. unfold get.
    destruct (lock_states (base m) !! l) as [s|] eqn:El; [exact InvL|].
    rewrite bind_run. cbn [snd base locks put ret with_states lock_states].
    destruct (decide (L = l)) as [->|Hne].
    + rewrite lookup_insert_eq. rewrite InvL, El. reflexivity.
    + by rewrite lookup_insert_ne.
Qed.

Lemma zk_run_tracked cs m :
  (∀ L, locks m !! L = None
        ↔ default UNLOCKED (lock_states (base m) !! L) = UNLOCKED) →
  ∀ L, locks (run cs m) !! L = None
       ↔ default UNLOCKED (lock_states (base (run cs m)) !! L) = UNLOCKED.
Proof.
  revert m. induction cs as [|c cs IH]; intros m Inv; [exact Inv|].
  apply (IH (exec c m)), zk_exec_tracked, Inv.
Qed.
End ZooKeeperFacts.

(** X8: after any sequence of calls on a new ZooKeeper manager (acquires
    granted or refused, releases, connection events, queries),
    [get_lock_state] answers UNLOCKED for a lock if and only if the manager
    does not track it. *)
Theorem zk_untracked_iff_unlocked
    (cs : list ZooKeeperLockManager.call) (L : Lockable) :
  let m := ZooKeeperLockManager.run cs ZooKeeperLockManager.init in
  fst (ZooKeeperLockManager.on_base (BaseLockManager.get_lock_state L) m)
  = inr UNLOCKED
  ↔ ZooKeeperLockManager.locks m !! L = None.
Proof.
  cbv zeta.
  assert (H0 : ∀ L0,
    ZooKeeperLockManager.locks ZooKeeperLockManager.init !! L0 = None
    ↔ default UNLOCKED
        (BaseLockManager.lock_states
           (ZooKeeperLockManager.base ZooKeeperLockManager.init) !! L0) = UNLOCKED).
  { intros L0. cbn. by rewrite odict_lookup_empty, lookup_empty. }
  rewrite (zk_run_tracked cs _ H0 L).
  unfold ZooKeeperLockManager.on_base, zoom, BaseLockManager.get_lock_state.
  rewrite bind_run. unfold get.
  destruct (BaseLockManager.lock_states _ !! L) as [s|]; cbn.
  - split; congruence.
  - done.
Qed.

(** X9: a connection event gives every tracked lock the state that
    belongs to the event (SUSPENDED: UNCERTAIN, LOST: INVALID, CONNECTED:
    LOCKED, also for a lock that was INVALID) and leaves the other locks,
    the tracked locks and the listeners as they are; a registered listener
    is called once for each tracked lock whose state changes, and for no
    other lock. *)
Theorem zk_lock_listener_spec
    (k : ZooKeeperLockManager.KazooState) (m : ZooKeeperLockManager.t)
    (L : Lockable) (f : listener) :
  let m' := ZooKeeperLockManager._lock_listener k m in
  let old := BaseLockManager.lock_states (ZooKeeperLockManager.base m) !! L in
  ZooKeeperLockManager.locks m' = ZooKeeperLockManager.locks m
  ∧ BaseLockManager.state_listeners (ZooKeeperLockManager.base m')
    = BaseLockManager.state_listeners (ZooKeeperLockManager.base m)
  ∧ BaseLockManager.lock_states (ZooKeeperLockManager.base m') !! L
    = (if decide (is_Some (ZooKeeperLockManager.locks m !! L))
       then Some (session_state k) else old)
  ∧ about L (BaseLockManager.heard f (ZooKeeperLockManager.base m'))
    = about L (BaseLockManager.heard f (ZooKeeperLockManager.base m)) ++
      (if decide (is_Some (ZooKeeperLockManager.locks m !! L)
                  ∧ f ∈ BaseLockManager.state_listeners (ZooKeeperLockManager.base m)
                  ∧ old ≠ Some (session_state k))
       then [(L, default UNLOCKED old, session_state k)] else []).
Proof.
  cbv zeta. rewrite zk_lock_listener_set_all. unfold ZooKeeperLockManager.set_all.
  cbn [ZooKeeperLockManager.locks ZooKeeperLockManager.base].
  split; [reflexivity|]. split; [apply set_each_listeners|]. split.
  - rewrite set_each_lookup by apply session_state_locked.
    destruct (decide (L ∈ _)) as [Hin|Hin]; rewrite zk_keys in Hin.
    + by rewrite decide_True.
    + by rewrite decide_False.
  - rewrite set_each_heard by apply session_state_locked.
    destruct (decide (is_Some (ZooKeeperLockManager.locks m !! L) ∧ _)) as [Hc|Hc].
    + rewrite decide_True; [reflexivity|]. by rewrite zk_keys.
    + rewrite decide_False; [reflexivity|]. by rewrite zk_keys.
Qed.

(** X10: the ZooKeeper manager does not count. After two granted calls of
    [acquire] for a lock, one [release] untracks it and sets its state to
    UNLOCKED, and a second [release] raises [LockError] and changes
    nothing. *)
Theorem zk_lock_not_reentrant (L : Lockable) (m : ZooKeeperLockManager.t) :
  let m2 := ZooKeeperLockManager.run
              [ZooKeeperLockManager.Acquire L true;
               ZooKeeperLockManager.Acquire L true] m in
  let r := ZooKeeperLockManager.release L m2 in
  ZooKeeperLockManager.locks m2 !! L
  = Some (ZooKeeperLockManager.mkKazooLock (ZooKeeperLockManager.lock_path L))
  ∧ fst r = inr tt
  ∧ ZooKeeperLockManager.locks (snd r) !! L = None
  ∧ BaseLockManager.lock_states (ZooKeeperLockManager.base (snd r)) !! L = None
  ∧ ZooKeeperLockManager.release L (snd r) = (inl (LockError NoLockFound L), snd r).
Proof.
  cbv zeta.
  cbn [ZooKeeperLockManager.run foldl ZooKeeperLockManager.exec
       ZooKeeperLockManager.acquire negb snd modify].
  cbn [ZooKeeperLockManager.locks ZooKeeperLockManager.base].
  split; [apply odict_lookup_insert_eq|].
  unfold ZooKeeperLockManager.release. rewrite !bind_run. unfold get.
  cbn [ZooKeeperLockManager.locks ZooKeeperLockManager.base].
  rewrite odict_lookup_insert_eq. cbn [fst snd put].
  cbn [ZooKeeperLockManager.locks ZooKeeperLockManager.base].
  split; [reflexivity|]. split; [apply odict_lookup_delete_eq|].
  split; [by rewrite set_lock_state_lookup, decide_True|].
  rewrite odict_lookup_delete_eq. reflexivity.
Qed.

Lemma string_app_assoc (a b c : string) : (a +:+ b) +:+ c = a +:+ (b +:+ c).
Proof.
  apply list_ascii_of_string_inj. rewrite !list_ascii_of_string_app.
  by rewrite app_assoc.
Qed.

Section LockPaths.
(** [os.path.join] puts the same prefix before every relative name. *)
Lemma os_path_join_relative (a : string) :
  ∃ p, ∀ b, is_absolute b = false → os_path_join a b = p +:+ b.
Proof.
  exists (if decide (a = "") then ""
          else match String.get (String.length a - 1) a with
               | Some "/"%char => a
               | _ => a +:+ "/"
               end).
  intros b Hb. unfold os_path_join.
  assert (Hrel : match b with
                 | String "/" _ => b
                 | _ => if decide (a = "") then b
                        else match String.get (String.length a - 1) a with
                             | Some "/"%char => a +:+ b
                             | _ => a +:+ "/" +:+ b
                             end
                 end
                 = if decide (a = "") then b
                   else match String.get (String.length a - 1) a with
                        | Some "/"%char => a +:+ b
                        | _ => a +:+ "/" +:+ b
                        end).
  { destruct b as [|c b]; [reflexivity|].
    destruct c as [[] [] [] [] [] [] [] []]; try reflexivity. discriminate Hb. }
  rewrite Hrel. destruct (decide (a = "")); [reflexivity|].
  assert (Hassoc : (a +:+ "/") +:+ b = a +:+ "/" +:+ b)
    by apply string_app_assoc.
  destruct (String.get (String.length a - 1) a) as [c|];
    [|cbv beta iota; by rewrite Hassoc].
  destruct c as [[] [] [] [] [] [] [] []];
    try (cbv beta iota; by rewrite Hassoc). reflexivity.
Qed.

Lemma is_absolute_app (a b : string) :
  is_absolute b = false → is_absolute (a +:+ b) = is_absolute a.
Proof. destruct a; [done|reflexivity]. Qed.

Lemma file_lock_path_name m x :
  FileLockManager.lock_path m x
  = os_path_join (FileLockManager.base_path m) (lock_name x +:+ ".lock").
Proof. by destruct x. Qed.

Lemma zk_lock_path_name x :
  ZooKeeperLockManager.lock_path x
  = ZooKeeperLockManager.base_path +:+ lock_name x.
Proof. by destruct x. Qed.
End LockPaths.

(** X11: the lock file and the ZooKeeper node of a lockable depend on its
    name only: a [Schema] and the string of its name share them. Two
    lockables whose names do not start with a slash have the same lock
    file exactly when they have the same name, and the same holds for
    their nodes. *)
Theorem lock_path_by_name (m : FileLockManager.t) (x y : Lockable) :
  is_absolute (lock_name x) = false →
  is_absolute (lock_name y) = false →
  (FileLockManager.lock_path m x = FileLockManager.lock_path m y
   ↔ lock_name x = lock_name y)
  ∧ (ZooKeeperLockManager.lock_path x = ZooKeeperLockManager.lock_path y
     ↔ lock_name x = lock_name y).
Proof.
  intros Hx Hy. split.
  - rewrite !file_lock_path_name.
    destruct (os_path_join_relative (FileLockManager.base_path m)) as [p Hp].
    rewrite !Hp by (by rewrite is_absolute_app).
    split; [|by intros ->].
    intros E. apply string_app_inv_head in E. by apply string_app_inv_tail in E.
  - rewrite !zk_lock_path_name. split; [|by intros ->].
    apply string_app_inv_head.
Qed.

Lemma lock_path_by_name_witness :
  let m := FileLockManager.init "/home/flow" "locks" in
  let x := LSchema stage_a in
  let y := LStr "sales" in
  is_absolute (lock_name x) = false
  ∧ is_absolute (lock_name y) = false
  ∧ FileLockManager.lock_path m x = FileLockManager.lock_path m y
  ∧ ZooKeeperLockManager.lock_path x = ZooKeeperLockManager.lock_path y.
Proof.
  intros m x y.
  assert (Hx : is_absolute (lock_name x) = false) by reflexivity.
  assert (Hy : is_absolute (lock_name y) = false) by reflexivity.
  split; [exact Hx|]. split; [exact Hy|].
  destruct (lock_path_by_name m x y Hx Hy) as [Hf Hz].
  split; [apply Hf | apply Hz]; reflexivity.
Defined.

Section NoLockHistory.
Import BaseLockManager NoLockManager.

Variable L : Lockable.

(** A call that is neither [acquire(L)] nor [release(L)] keeps the state
    that [get_lock_state(L)] reports. *)
Lemma no_lock_exec_other c m :
  c ≠ Acquire L → c ≠ Release L →
  default UNLOCKED (lock_states (exec c m) !! L)
  = default UNLOCKED (lock_states m !! L).
Proof.
  intros Ha Hr. destruct c as [l|l|a|f|l]; cbn [exec acquire release snd modify].
  - rewrite set_lock_state_lookup_ne; [reflexivity|]. intros ->. by apply Ha.
  - rewrite set_lock_state_lookup_ne; [reflexivity|]. intros ->. by apply Hr.
  - by destruct a.
  - unfold remove_lock_state_listener. rewrite bind_run. unfold get.
    by destruct (decide (f ∈ _)).
  - unfold get_lock_state. rewrite bind_run. unfold get.
    destruct (lock_states m !! l) as [s|] eqn:El; [reflexivity|].
    rewrite bind_run. cbn [snd put ret with_states lock_states].
    destruct (decide (L = l)) as [->|Hne].
    + by rewrite lookup_insert_eq, El.
    + by rewrite lookup_insert_ne.
Qed.

Lemma no_lock_run_other cs m :
  Forall (λ c, c ≠ Acquire L ∧ c ≠ Release L) cs →
  default UNLOCKED (lock_states (run cs m) !! L)
  = default UNLOCKED (lock_states m !! L).
Proof.
  intros Hcs. revert m. induction Hcs as [|c cs [Ha Hr] _ IH]; intros m;
    [reflexivity|].
  cbn [run foldl]. etransitivity; [apply IH|]. by apply no_lock_exec_other.
Qed.

Lemma no_lock_run_app cs1 cs2 m : run (cs1 ++ cs2) m = run cs2 (run cs1 m).
Proof. apply foldl_app. Qed.

Lemma get_lock_state_default l m :
  fst (get_lock_state l m) = inr (default UNLOCKED (lock_states m !! l)).
Proof.
  unfold get_lock_state. rewrite bind_run. unfold get.
  by destruct (lock_states m !! l).
Qed.
End NoLockHistory.

(** X27: the no-op manager reports the last call. Whatever happened
    before, and whatever calls follow that are neither [acquire(L)] nor
    [release(L)], [get_lock_state(L)] answers LOCKED after [acquire(L)] and
    UNLOCKED after [release(L)]. *)
Theorem no_lock_reports_last_call
    (L : Lockable) (before after : list NoLockManager.call) (m : BaseLockManager.t) :
  Forall (λ c, c ≠ NoLockManager.Acquire L ∧ c ≠ NoLockManager.Release L) after →
  fst (BaseLockManager.get_lock_state L
         (NoLockManager.run (before ++ NoLockManager.Acquire L :: after) m))
  = inr LOCKED
  ∧ fst (BaseLockManager.get_lock_state L
           (NoLockManager.run (before ++ NoLockManager.Release L :: after) m))
    = inr UNLOCKED.
Proof.
  intros Hafter. rewrite !get_lock_state_default, !no_lock_run_app.
  cbn [NoLockManager.run foldl].
  change (foldl (λ m c, NoLockManager.exec c m)) with (λ m cs, NoLockManager.run cs m).
  cbv beta. rewrite !no_lock_run_other by done.
  cbn [NoLockManager.exec NoLockManager.acquire NoLockManager.release snd modify].
  rewrite !set_lock_state_lookup. split; reflexivity.
Qed.

Lemma no_lock_reports_last_call_witness :
  let L := LStr "stage_a" in
  let before := [NoLockManager.Release L; NoLockManager.Acquire (LStr "stage_b")] in
  let after := [NoLockManager.GetState L; NoLockManager.Release (LStr "stage_b")] in
  Forall (λ c, c ≠ NoLockManager.Acquire L ∧ c ≠ NoLockManager.Release L) after
  ∧ fst (BaseLockManager.get_lock_state L
           (NoLockManager.run (before ++ NoLockManager.Acquire L :: after)
              BaseLockManager.init))
    = inr LOCKED.
Proof.
  intros L before after.
  assert (Hafter : Forall (λ c, c ≠ NoLockManager.Acquire L
                                ∧ c ≠ NoLockManager.Release L) after).
  { repeat constructor; discriminate. }
  split; [exact Hafter|].
  exact (proj1 (no_lock_reports_last_call L before after BaseLockManager.init Hafter)).
Defined.

(** * Further properties of the store *)

(** X12: [create_schema] of a stage whose two names are free registers it
    under both names before it calls the table store, and returns or raises
    what the table store answers. Nothing is undone when the table store
    fails: the stage stays registered, the other entries and the swapped
    set are as before, and a second [create_schema] of the stage is
    refused with [SchemaError]. *)
Theorem create_schema_fresh {TS : Type} `{BaseTableStore TS}
    (s : PipeDAGStore.t TS) (schema : Schema.t) :
  PipeDAGStore.schemas s !! Schema.name schema = None →
  PipeDAGStore.schemas s !! Schema.working_name schema = None →
  let answer := ts_create_schema schema (PipeDAGStore.table_store s) in
  let r := PipeDAGStore.create_schema schema s in
  fst r = fst answer
  ∧ PipeDAGStore.table_store (snd r) = snd answer
  ∧ registered (PipeDAGStore.schemas (snd r)) schema
  ∧ (∀ k, k ≠ Schema.name schema → k ≠ Schema.working_name schema →
          PipeDAGStore.schemas (snd r) !! k = PipeDAGStore.schemas s !! k)
  ∧ PipeDAGStore.swapped_schemas (snd r) = PipeDAGStore.swapped_schemas s
  ∧ ∃ msg, PipeDAGStore.create_schema schema (snd r) = (inl (SchemaError msg), snd r).
Proof.
  intros Hn Hw. cbv zeta.
  assert (Hrun : PipeDAGStore.create_schema schema s
    = (fst (ts_create_schema schema (PipeDAGStore.table_store s)),
       PipeDAGStore.with_table_store
         (snd (ts_create_schema schema (PipeDAGStore.table_store s)))
         (PipeDAGStore.set_schemas
            (λ m, <[Schema.working_name schema := schema]>
                    (<[Schema.name schema := schema]> m)) s))).
  { unfold PipeDAGStore.create_schema. rewrite bind_run. unfold get.
    rewrite decide_False by (rewrite Hn; apply is_Some_None).
    rewrite decide_False by (rewrite Hw; apply is_Some_None).
    rewrite bind_run. unfold modify, PipeDAGStore.on_table_store, zoom.
    cbn [PipeDAGStore.table_store PipeDAGStore.set_schemas].
    by destruct (ts_create_schema schema (PipeDAGStore.table_store s)) as [r ts']. }
  rewrite Hrun. cbn [fst snd].
  assert (Hreg : registered
    (<[Schema.working_name schema := schema]>
       (<[Schema.name schema := schema]> (PipeDAGStore.schemas s))) schema).
  { split; [|apply lookup_insert_eq].
    destruct (decide (Schema.working_name schema = Schema.name schema)) as [E|E].
    - rewrite E. apply lookup_insert_eq.
    - rewrite lookup_insert_ne by done. apply lookup_insert_eq. }
  split; [reflexivity|]. split; [reflexivity|]. split; [exact Hreg|].
  split; [|split; [reflexivity|]].
  - intros k Hk1 Hk2. cbn. by rewrite !lookup_insert_ne.
  - apply create_schema_refused. left. cbn. destruct Hreg as [-> _]. eauto.
Qed.

Lemma create_schema_fresh_witness :
  let s := PipeDAGStore.init (RecordingStore.mk [] true) "run0" in
  PipeDAGStore.schemas s !! Schema.name stage_a = None
  ∧ PipeDAGStore.schemas s !! Schema.working_name stage_a = None
  ∧ registered (PipeDAGStore.schemas (snd (PipeDAGStore.create_schema stage_a s)))
      stage_a.
Proof.
  intros s.
  assert (H1 : PipeDAGStore.schemas s !! Schema.name stage_a = None) by reflexivity.
  assert (H2 : PipeDAGStore.schemas s !! Schema.working_name stage_a = None)
    by reflexivity.
  split; [exact H1|]. split; [exact H2|].
  destruct (create_schema_fresh s stage_a H1 H2) as (_ & _ & H3 & _). exact H3.
Defined.

(** X13: [swap_schema] never reads or writes the registry of stages: on a
    store with another registry it returns or raises the same and changes
    the rest of the store in the same way. A stage that was never created
    is swapped like any other. *)
Theorem swap_schema_ignores_registry {TS : Type} `{BaseTableStore TS}
    (schema : Schema.t) (f : gmap string Schema.t → gmap string Schema.t) :
  oblivious (PipeDAGStore.set_schemas f) (PipeDAGStore.swap_schema schema).
Proof.
  intros s. unfold PipeDAGStore.swap_schema, PipeDAGStore.perform_swap.
  rewrite !bind_run. unfold get.
  cbn [PipeDAGStore.set_schemas PipeDAGStore.swapped_schemas].
  destruct (decide (Schema.name schema ∈ PipeDAGStore.swapped_schemas s));
    [reflexivity|].
  unfold modify. rewrite !bind_run.
  unfold PipeDAGStore.on_table_store, zoom.
  cbn [PipeDAGStore.table_store PipeDAGStore.set_schemas PipeDAGStore.set_swapped
       PipeDAGStore.set_marks].
  destruct (ts_swap_schema schema (PipeDAGStore.table_store s)) as [[e|[]] ts'];
    reflexivity.
Qed.

(** X14: [_reset] empties the registry and the swapped set, takes the new
    run id and leaves the table store alone. Afterwards no stage is refused
    by [create_schema] or by [swap_schema], whatever was registered or
    swapped before: both return or raise what the table store answers; and
    [materialise_task] fails its assertion for every task and changes
    nothing. *)
Theorem reset_forgets {TS : Type} `{BaseTableStore TS}
    (s : PipeDAGStore.t TS) (fresh : string) (schema : Schema.t)
    (task : MaterialisingTask.t) (v : tree PipeDAGStore.addr) (now : nat) :
  let s0 := snd (PipeDAGStore._reset fresh s) in
  fst (PipeDAGStore._reset fresh s) = inr tt
  ∧ PipeDAGStore.table_store s0 = PipeDAGStore.table_store s
  ∧ PipeDAGStore.run_id s0 = fresh
  ∧ fst (PipeDAGStore.create_schema schema s0)
    = fst (ts_create_schema schema (PipeDAGStore.table_store s))
  ∧ fst (PipeDAGStore.swap_schema schema s0)
    = fst (ts_swap_schema schema (PipeDAGStore.table_store s))
  ∧ PipeDAGStore.materialise_task task v now s0 = (inl AssertionError, s0).
Proof.
  cbv zeta. unfold PipeDAGStore._reset, modify. cbn [fst snd].
  split; [reflexivity|]. split; [reflexivity|]. split; [reflexivity|].
  split; [|split].
  - unfold PipeDAGStore.create_schema. rewrite bind_run. unfold get.
    cbn [PipeDAGStore.schemas].
    rewrite !decide_False by (rewrite lookup_empty; apply is_Some_None).
    rewrite bind_run. unfold modify, PipeDAGStore.on_table_store, zoom.
    cbn [PipeDAGStore.table_store PipeDAGStore.set_schemas].
    by destruct (ts_create_schema schema (PipeDAGStore.table_store s)) as [r ts'].
  - rewrite swap_schema_fresh by (cbn; apply not_elem_of_empty).
    cbn [PipeDAGStore.table_store].
    by destruct (ts_swap_schema schema (PipeDAGStore.table_store s)) as [[e|a] ts'].
  - unfold PipeDAGStore.materialise_task. rewrite bind_run. unfold get.
    cbn [PipeDAGStore.schemas].
    rewrite decide_False by (rewrite lookup_empty; apply is_Some_None).
    reflexivity.
Qed.

Section CacheRoundTrip.
Context {TS : Type} `{BaseTableStore TS}.
Import PipeDAGStore.

(** What an invocation of [materialise_task] that returns has done. *)
Lemma materialise_task_returns task value now (s s' : PipeDAGStore.t TS) r :
  materialise_task task value now s = (inr r, s') →
  ∃ s1 text,
    r = value
    ∧ schemas s1 = schemas s ∧ swapped_schemas s1 = swapped_schemas s
    ∧ json_serialise (snapshot (heap s1) value) = inr text
    ∧ ts_store_task_metadata
        (TaskMetadata.mk (MaterialisingTask.original_name task)
           (Schema.name (MaterialisingTask.schema task))
           (MaterialisingTask.version task) now (run_id s1)
           (MaterialisingTask.cache_key task) text)
        (table_store s1) = (inr tt, table_store s')
    ∧ s' = with_table_store (table_store s') s1.
Proof.
  unfold materialise_task. rewrite bind_run. simpl. case_decide; [|done].
  rewrite bind_run.
  destruct (deepmutate_leaves (materialise_mutator task)
              (materialise_mutator_returns_arg task) value (0%N, s)) as [E1 E2].
  revert E1 E2.
  destruct (deepmutate (materialise_mutator task) value (0%N, s))
    as [[e|mv] [k1 s1]],
    (mapM (materialise_mutator task) (leaves value) (0%N, s))
    as [[e'|zs] [k1' s1']] eqn:Em; simpl; intros E1 E2; try done.
  destruct E2 as [-> ->]. injection E1 as <- <-.
  apply materialise_leaves in Em. cbv zeta in Em.
  destruct Em as (_ & _ & Hs & Hw & _ & _ & _).
  rewrite bind_run. simpl. unfold lift. rewrite bind_run.
  destruct (json_serialise _) as [e|text] eqn:Ej; [done|].
  rewrite bind_run. unfold on_table_store, zoom.
  destruct (ts_store_task_metadata _ (table_store s1)) as [[e|[]] ts2] eqn:Emd;
    [done|].
  simpl. intros [= <- <-]. exists s1, text. simpl.
  repeat split; try done.
Qed.

(** Decoding the text of a supported value. *)
Lemma json_decode_serialised (s : PipeDAGStore.t TS) (x : value) text :
  supported (schemas s) x = true →
  json_serialise x = inr text →
  json_decode s text = inr (image x).
Proof.
  intros Hsup Htext.
  pose proof (supported_by_spec_of _ _ Hsup) as Hspec.
  pose proof (floats_ok_json_of _ _ Hspec) as Hok.
  pose proof (ints_ok_json_of _ (ints_ok_supported _ _ Hsup)) as Hint.
  destruct (encode_json_total (json_of x) Hok Hint) as [t Ht].
  revert Htext. unfold json_serialise, JSONEncoder.encode.
  rewrite (iterencode_json_of _ _ Hspec), Ht. intros [= <-].
  unfold json_decode.
  rewrite (decode_encode_json _ (json_of x) t Ht Hok).
  by apply loads_tree_json_of.
Qed.
End CacheRoundTrip.

(** X15: the cache round trip. Over a table store that hands back the
    metadata it was given for a task, when [materialise_task] has returned
    for a task whose stage is not swapped, and the materialised output is a
    value that the codec supports, [retrieve_cached_output] for the task
    returns this output with every tuple replaced by the list of its items,
    the dicts in the order of their keys and the tables without their
    payload, and leaves the store as it is. What it returns is equal to the
    output as a Python value (the tables by stage, name and cache key)
    exactly when the output contains no tuple: a task that returns a tuple
    gets a list from the cache. *)
Theorem retrieve_after_materialise {TS : Type} `{BaseTableStore TS}
    (task : MaterialisingTask.t) (value r : tree PipeDAGStore.addr) (now : nat)
    (s s' : PipeDAGStore.t TS) :
  (∀ metadata ts ts',
     ts_store_task_metadata metadata ts = (inr tt, ts') →
     TaskMetadata.name metadata = MaterialisingTask.original_name task →
     TaskMetadata.cache_key metadata = MaterialisingTask.cache_key task →
     ts_retrieve_task_metadata task (MaterialisingTask.cache_key task) ts'
     = (inr metadata, ts')) →
  PipeDAGStore.materialise_task task value now s = (inr r, s') →
  Schema.name (MaterialisingTask.schema task) ∉ PipeDAGStore.swapped_schemas s →
  let output := PipeDAGStore.snapshot (PipeDAGStore.heap s') r in
  supported (PipeDAGStore.schemas s') output = true →
  PipeDAGStore.retrieve_cached_output task s' = (inr (image output), s')
  ∧ py_eqb (image output) output = tuple_free output.
Proof.
  intros Hlaw Hrun Hsw output Hsup.
  destruct (materialise_task_returns _ _ _ _ _ _ Hrun)
    as (s1 & text & -> & Hs & Hw & Htext & Hmd & Hs').
  split; [|by apply (py_eqb_image (PipeDAGStore.schemas s'))].
  assert (Hheap : PipeDAGStore.heap s' = PipeDAGStore.heap s1) by (by rewrite Hs').
  assert (Hsw' : PipeDAGStore.swapped_schemas s' = PipeDAGStore.swapped_schemas s)
    by (by rewrite Hs').
  unfold PipeDAGStore.retrieve_cached_output. rewrite bind_run. unfold get.
  rewrite decide_False by (by rewrite Hsw').
  rewrite bind_run. unfold PipeDAGStore.on_table_store, zoom.
  rewrite (Hlaw _ _ _ Hmd eq_refl eq_refl).
  rewrite bind_run. unfold lift. cbn [TaskMetadata.output_json].
  assert (Hsame : PipeDAGStore.mk (PipeDAGStore.table_store s')
                    (PipeDAGStore.schemas s') (PipeDAGStore.swapped_schemas s')
                    (PipeDAGStore.run_id s') (PipeDAGStore.heap s')
                    (PipeDAGStore.swap_marks s') = s') by (by destruct s').
  rewrite Hsame.
  rewrite (json_decode_serialised s' output text Hsup); [reflexivity|].
  subst output. by rewrite Hheap.
Qed.

Lemma recording_store_hands_back (task : MaterialisingTask.t)
    (metadata : TaskMetadata.t) (ts ts' : RecordingStore.t) :
  ts_store_task_metadata metadata ts = (inr tt, ts') →
  TaskMetadata.name metadata = MaterialisingTask.original_name task →
  TaskMetadata.cache_key metadata = MaterialisingTask.cache_key task →
  ts_retrieve_task_metadata task (MaterialisingTask.cache_key task) ts'
  = (inr metadata, ts').
Proof.
  cbn. unfold RecordingStore.record, modify. intros [= <-] Hn Hk.
  cbn [RecordingStore.calls].
  rewrite rev_app_distr. cbn [rev app]. rewrite omap_cons_eq.
  cbn [RecordingStore.is_metadata_for].
  rewrite decide_True by done. reflexivity.
Qed.

Lemma retrieve_after_materialise_witness :
  let s := with_output (store_a true) in
  let s' := snd (PipeDAGStore.materialise_task task_a output_a 0 s) in
  PipeDAGStore.materialise_task task_a output_a 0 s = (inr output_a, s')
  ∧ (Schema.name (MaterialisingTask.schema task_a) ∉ PipeDAGStore.swapped_schemas s)
  ∧ supported (PipeDAGStore.schemas s')
      (PipeDAGStore.snapshot (PipeDAGStore.heap s') output_a) = true
  ∧ PipeDAGStore.retrieve_cached_output task_a s'
    = (inr (image (PipeDAGStore.snapshot (PipeDAGStore.heap s') output_a)), s').
Proof.
  intros s s'.
  assert (Hrun : PipeDAGStore.materialise_task task_a output_a 0 s = (inr output_a, s'))
    by (vm_compute; reflexivity).
  assert (Hsw : Schema.name (MaterialisingTask.schema task_a)
                ∉ PipeDAGStore.swapped_schemas s) by apply not_elem_of_empty.
  assert (Hsup : supported (PipeDAGStore.schemas s')
                   (PipeDAGStore.snapshot (PipeDAGStore.heap s') output_a) = true)
    by (vm_compute; reflexivity).
  split; [exact Hrun|]. split; [exact Hsw|]. split; [exact Hsup|].
  exact (proj1 (retrieve_after_materialise task_a output_a output_a 0 s s'
                  (recording_store_hands_back task_a) Hrun Hsw Hsup)).
Defined.

(** * The inputs of a task and the copy of a cached output *)

Section WalkAny.
Context {S L : Type}.

Lemma outcome_mapM {A A' C} (f : A → M S A') (g : C → M S C)
    (lv : A → list C) (lv' : A' → list C) (R : A → A' → Prop) (l : list A) :
  Forall (λ a, ∀ s, outcome_rel (λ a' cs, lv' a' = cs ∧ R a a')
                      (f a s) (mapM g (lv a) s)) l →
  ∀ s, outcome_rel (λ l' cs, concat (lv' <$> l') = cs ∧ Forall2 R l l')
         (mapM f l s) (mapM g (concat (lv <$> l)) s).
Proof.
  induction 1 as [|a l Ha Hl IH]; intros s.
  - split; [reflexivity|]. simpl. split; [reflexivity | constructor].
  - rewrite fmap_cons. simpl concat. rewrite mapM_app. simpl mapM.
    rewrite !bind_run. destruct (Ha s) as [E1 E2]. revert E1 E2.
    destruct (f a s) as [[e|a'] s1], (mapM g (lv a) s) as [[e'|cs] s1'];
      simpl; intros E1 E2; subst; try done.
    destruct E2 as [<- HR].
    rewrite !bind_run. destruct (IH s1') as [E1 E2]. revert E1 E2.
    destruct (mapM f l s1') as [[e|l'] s2],
             (mapM g (concat (lv <$> l)) s1') as [[e'|cs'] s2'];
      simpl; intros E1 E2; subst; try done.
    destruct E2 as [<- HF]. split; [reflexivity|]. simpl.
    split; [reflexivity | by constructor].
Qed.

Lemma Forall2_fmap_eq {A B} (f : A → B) (xs ys : list A) :
  Forall2 (λ x y, f y = f x) xs ys → f <$> ys = f <$> xs.
Proof. induction 1 as [|x y xs ys E _ IH]; [done|]. by rewrite !fmap_cons, E, IH. Qed.

(** A walk with a mutator that returns leaves: the state and the
    exception are those of the mutator applied to the leaves one after
    the other, the leaves of the result are what the mutator returned,
    and the shape of the value is kept. *)
Lemma deepmutate_walk (mutator : tree L → M S (tree L)) :
  (∀ x s y, is_leaf x = true → fst (mutator x s) = inr y → is_leaf y = true) →
  ∀ x s, outcome_rel (λ y zs, leaves y = zs ∧ skeleton y = skeleton x)
           (deepmutate mutator x s) (mapM mutator (leaves x) s).
Proof.
  intros Hm.
  assert (Hleaf : ∀ x s, is_leaf x = true →
    outcome_rel (λ y zs, leaves y = zs ∧ skeleton y = skeleton x)
      (deepmutate mutator x s) (mapM mutator (leaves x) s)).
  { intros x s Hx.
    assert (E1 : deepmutate mutator x = mutator x) by (by destruct x).
    assert (E2 : leaves x = [x]) by (by destruct x).
    rewrite E1, E2. simpl. rewrite bind_run.
    pose proof (Hm x s) as Hy.
    destruct (mutator x s) as [[e|y] s1]; simpl in *; [done|].
    specialize (Hy y Hx eq_refl). split; [reflexivity|]. simpl.
    destruct y, x; try discriminate Hy; try discriminate Hx; done. }
  induction x as [|b|n|f|str|xs IH|xs IH|items IH|o] using tree_ind'; intros s;
    try (apply Hleaf; reflexivity).
  - (* list *)
    simpl. rewrite bind_run.
    destruct (outcome_mapM (deepmutate mutator) mutator leaves leaves
                (λ x y, skeleton y = skeleton x) xs IH s) as [E1 E2].
    revert E1 E2.
    destruct (mapM (deepmutate mutator) xs s) as [[e|ys] s1],
             (mapM mutator (concat (leaves <$> xs)) s) as [[e'|zs] s1'];
      simpl; intros E1 E2; subst; try done.
    destruct E2 as [<- HF]. split; [reflexivity|]. simpl.
    split; [reflexivity|]. f_equal. by apply Forall2_fmap_eq.
  - (* tuple *)
    simpl. rewrite bind_run.
    destruct (outcome_mapM (deepmutate mutator) mutator leaves leaves
                (λ x y, skeleton y = skeleton x) xs IH s) as [E1 E2].
    revert E1 E2.
    destruct (mapM (deepmutate mutator) xs s) as [[e|ys] s1],
             (mapM mutator (concat (leaves <$> xs)) s) as [[e'|zs] s1'];
      simpl; intros E1 E2; subst; try done.
    destruct E2 as [<- HF]. split; [reflexivity|]. simpl.
    split; [reflexivity|]. f_equal. by apply Forall2_fmap_eq.
  - (* dict *)
    simpl. rewrite bind_run.
    set (g := λ kv : string * tree L, do v <- deepmutate mutator kv.2; ret (kv.1, v)).
    set (lv := λ kv : string * tree L, leaves kv.2).
    set (sk := λ kv : string * tree L, (kv.1, skeleton kv.2)).
    assert (Hg : Forall (λ kv, ∀ s,
                   outcome_rel (λ kv' cs, lv kv' = cs ∧ sk kv' = sk kv)
                     (g kv s) (mapM mutator (lv kv) s)) items).
    { eapply Forall_impl; [exact IH|]. intros [k v] Hv s'. simpl in Hv.
      unfold g, lv, sk. simpl. rewrite bind_run.
      destruct (Hv s') as [E1 E2]. revert E1 E2.
      destruct (deepmutate mutator v s') as [[e|v'] s1],
               (mapM mutator (leaves v) s') as [[e'|zs] s1'];
        simpl; intros E1 E2; subst; try done.
      destruct E2 as [<- Hsk]. split; [reflexivity|]. simpl.
      split; [reflexivity|]. by rewrite Hsk. }
    destruct (outcome_mapM g mutator lv lv (λ kv kv', sk kv' = sk kv) items Hg s)
      as [E1 E2].
    revert E1 E2.
    destruct (mapM g items s) as [[e|ys] s1],
             (mapM mutator (concat (lv <$> items)) s) as [[e'|zs] s1'];
      simpl; intros E1 E2; subst; try done.
    destruct E2 as [<- HF]. split; [reflexivity|]. simpl.
    split; [reflexivity|]. f_equal. by apply (Forall2_fmap_eq sk).
Qed.
End WalkAny.

Section TableStoreCalls.
Context {TS : Type} `{TableStoreInputs TS}.
Import PipeDAGStore.

Implicit Types (s : PipeDAGStore.t TS).

Lemma with_table_store_twice (ts ts' : TS) s :
  with_table_store ts (with_table_store ts' s) = with_table_store ts s.
Proof. reflexivity. Qed.

Lemma with_table_store_same s : with_table_store (table_store s) s = s.
Proof. by destruct s. Qed.

Lemma dematerialise_mutator_leaf ty x s y :
  is_leaf x = true → fst (dematerialise_mutator ty x s) = inr y → is_leaf y = true.
Proof.
  intros Hx. revert Hx.
  destruct x as [| | | | | | | |[tbl|o]]; cbn [dematerialise_mutator]; intros Hx;
    try discriminate Hx;
    try (unfold ret; cbn [fst]; intros [= <-]; reflexivity).
  rewrite bind_run. unfold on_table_store, zoom.
  destruct (ts_retrieve_table_obj tbl ty (table_store s)) as [[e|obj] ts'];
    simpl; [done|]. by intros [= <-].
Qed.

(** The mutator of [dematerialise_task_inputs] over a list of leaves, by
    what the table store answers. *)
Lemma dematerialise_leaves ty (ns : list value) s :
  mapM (dematerialise_mutator ty) ns s
  = match mapM (λ t, ts_retrieve_table_obj t ty) (omap as_table ns) (table_store s) with
    | (inl e, ts') => (inl e, with_table_store ts' s)
    | (inr objs, ts') => (inr (put_objs ns objs), with_table_store ts' s)
    end.
Proof.
  revert s. induction ns as [|n ns IH]; intros s.
  - simpl. unfold ret. by rewrite with_table_store_same.
  - cbn [mapM]. rewrite bind_run, omap_cons_eq.
    destruct (as_table n) as [tbl|] eqn:En.
    + destruct n as [| | | | | | | |[tbl'|o]]; try discriminate En.
      injection En as ->. cbn [dematerialise_mutator mapM put_objs as_table].
      rewrite !bind_run. unfold on_table_store, zoom.
      destruct (ts_retrieve_table_obj tbl ty (table_store s)) as [[e|obj] ts1];
        [reflexivity|].
      cbn [ret]. rewrite !bind_run, IH.
      cbn [table_store with_table_store].
      destruct (mapM _ (omap as_table ns) ts1) as [[e|objs] ts2]; reflexivity.
    + assert (Em : dematerialise_mutator ty n s = (inr n, s)).
      { destruct n as [| | | | | | | |[tbl'|o]]; try reflexivity. discriminate En. }
      rewrite Em, bind_run, IH.
      destruct (mapM _ (omap as_table ns) (table_store s)) as [[e|objs] ts2];
        [reflexivity|].
      cbn [put_objs]. rewrite En. by destruct objs.
Qed.

Lemma visiting_mutator_returns_arg (x : value) s y :
  fst (visiting_mutator x s) = inr y → y = x.
Proof.
  destruct x as [| | | | | | | |[tbl|o]]; cbn [visiting_mutator];
    try (unfold ret; cbn [fst]; by intros [= <-]).
  rewrite bind_run. unfold on_table_store, zoom.
  destruct (ts_copy_table_to_working_schema tbl (table_store s)) as [[e|[]] ts'];
    simpl; [done|]. by intros [= <-].
Qed.

Lemma visiting_leaves (ns : list value) s :
  mapM visiting_mutator ns s
  = match mapM ts_copy_table_to_working_schema (omap as_table ns) (table_store s) with
    | (inl e, ts') => (inl e, with_table_store ts' s)
    | (inr _, ts') => (inr ns, with_table_store ts' s)
    end.
Proof.
  revert s. induction ns as [|n ns IH]; intros s.
  - simpl. unfold ret. by rewrite with_table_store_same.
  - cbn [mapM]. rewrite bind_run, omap_cons_eq.
    destruct (as_table n) as [tbl|] eqn:En.
    + destruct n as [| | | | | | | |[tbl'|o]]; try discriminate En.
      injection En as ->. cbn [visiting_mutator mapM].
      rewrite !bind_run. unfold on_table_store, zoom.
      destruct (ts_copy_table_to_working_schema tbl (table_store s)) as [[e|[]] ts1];
        [reflexivity|].
      cbn [ret]. rewrite !bind_run, IH.
      cbn [table_store with_table_store].
      destruct (mapM _ (omap as_table ns) ts1) as [[e|us] ts2]; reflexivity.
    + assert (Em : visiting_mutator n s = (inr n, s)).
      { destruct n as [| | | | | | | |[tbl'|o]]; try reflexivity. discriminate En. }
      rewrite Em, bind_run, IH.
      destruct (mapM _ (omap as_table ns) (table_store s)) as [[e|us] ts2];
        reflexivity.
Qed.
End TableStoreCalls.

(** X16: [dematerialise_task_inputs] asks the table store for the object
    of every table in the arguments, in the order of the walk, the
    positional arguments before the keyword arguments, with the input type
    of the task. When a call fails, its exception is passed on and no later
    call is made. Otherwise the values returned have the shape of the
    arguments, with every table replaced by the object retrieved for it
    and all other leaves kept. Nothing but the table store changes. *)
Theorem dematerialise_task_inputs_spec {TS : Type} `{TableStoreInputs TS}
    (task : MaterialisingTask.t) (input_type : string)
    (args : list value) (kwargs : list (string * value)) (s : PipeDAGStore.t TS) :
  let reads :=
    mapM (λ t, ts_retrieve_table_obj t input_type)
         (tables (PTuple args) ++ tables (PDict kwargs)) (PipeDAGStore.table_store s) in
  match PipeDAGStore.dematerialise_task_inputs task input_type args kwargs s with
  | (inl e, s') =>
      fst reads = inl e ∧ s' = PipeDAGStore.with_table_store (snd reads) s
  | (inr (d_args, d_kwargs), s') =>
      ∃ objs,
        reads = (inr objs, PipeDAGStore.table_store s')
        ∧ s' = PipeDAGStore.with_table_store (PipeDAGStore.table_store s') s
        ∧ leaves d_args ++ leaves d_kwargs
          = put_objs (leaves (PTuple args) ++ leaves (PDict kwargs)) objs
        ∧ skeleton d_args = skeleton (PTuple args)
        ∧ skeleton d_kwargs = skeleton (PDict kwargs)
  end.
Proof.
  cbv zeta. unfold tables. rewrite <- omap_app.
  pose proof (dematerialise_leaves input_type
                (leaves (PTuple args) ++ leaves (PDict kwargs)) s) as Hall.
  rewrite mapM_app in Hall. rewrite !bind_run in Hall.
  unfold PipeDAGStore.dematerialise_task_inputs. rewrite bind_run.
  destruct (deepmutate_walk (PipeDAGStore.dematerialise_mutator input_type)
              (dematerialise_mutator_leaf input_type) (PTuple args) s) as [E1 E2].
  revert E1 E2 Hall.
  destruct (deepmutate (PipeDAGStore.dematerialise_mutator input_type) (PTuple args) s)
    as [[e|d_args] s1],
    (mapM (PipeDAGStore.dematerialise_mutator input_type) (leaves (PTuple args)) s)
    as [[e'|zs] s1']; simpl fst; simpl snd; intros E1 E2 Hall; subst; try done.
  { destruct (mapM _ _ (PipeDAGStore.table_store s)) as [[e0|objs] ts'].
    - injection Hall as Hl1 Hl2. cbn [fst snd]. split; congruence.
    - discriminate Hall. }
  destruct E2 as [<- Hsk1]. cbv beta iota in Hall.
  rewrite bind_run in Hall. rewrite bind_run.
  destruct (deepmutate_walk (PipeDAGStore.dematerialise_mutator input_type)
              (dematerialise_mutator_leaf input_type) (PDict kwargs) s1') as [E1 E2].
  revert E1 E2 Hall.
  destruct (deepmutate (PipeDAGStore.dematerialise_mutator input_type) (PDict kwargs) s1')
    as [[e|d_kwargs] s2],
    (mapM (PipeDAGStore.dematerialise_mutator input_type) (leaves (PDict kwargs)) s1')
    as [[e'|zs] s2']; simpl fst; simpl snd; intros E1 E2 Hall; subst; try done.
  { destruct (mapM _ _ (PipeDAGStore.table_store s)) as [[e0|objs] ts'].
    - injection Hall as Hl1 Hl2. cbn [fst snd]. split; congruence.
    - discriminate Hall. }
  destruct E2 as [<- Hsk2]. cbv beta iota in Hall. unfold ret in Hall |- *.
  destruct (mapM _ _ (PipeDAGStore.table_store s)) as [[e|objs] ts']; [done|].
  injection Hall as Hl ->. exists objs.
  split; [reflexivity|]. split; [reflexivity|]. split; [exact Hl|].
  split; [exact Hsk1 | exact Hsk2].
Qed.

(** X17: [copy_cached_output_to_working_schema] has the table store copy
    every table of the output, in the order of the walk, and then the
    metadata of the task. It stops at the first call that fails, so the
    metadata are not copied after a table that could not be copied. It
    reads neither the registry nor the swapped set, and changes nothing but
    the table store. *)
Theorem copy_cached_output_spec {TS : Type} `{TableStoreInputs TS}
    (output : value) (task : MaterialisingTask.t) (s : PipeDAGStore.t TS) :
  PipeDAGStore.copy_cached_output_to_working_schema output task s
  = match mapM ts_copy_table_to_working_schema (tables output)
            (PipeDAGStore.table_store s) with
    | (inl e, ts') => (inl e, PipeDAGStore.with_table_store ts' s)
    | (inr _, ts') =>
        (fst (ts_copy_task_metadata_to_working_schema task ts'),
         PipeDAGStore.with_table_store
           (snd (ts_copy_task_metadata_to_working_schema task ts')) s)
    end.
Proof.
  unfold PipeDAGStore.copy_cached_output_to_working_schema, tables.
  rewrite bind_run.
  destruct (deepmutate_leaves PipeDAGStore.visiting_mutator
              visiting_mutator_returns_arg output s) as [E1 E2].
  revert E1 E2. rewrite visiting_leaves.
  destruct (deepmutate PipeDAGStore.visiting_mutator output s) as [[e|y] s1],
    (mapM ts_copy_table_to_working_schema (omap as_table (leaves output))
       (PipeDAGStore.table_store s)) as [[e'|us] ts']; simpl; intros E1 E2;
    subst; try done.
  unfold PipeDAGStore.on_table_store, zoom. simpl.
  by destruct (ts_copy_task_metadata_to_working_schema task ts') as [r ts''].
Qed.

(** * Further properties of the codec *)

Section KeyOrder.
(** The order of the keys is the lexicographic order of the bytes. *)
Lemma string_leb_trans (a b c : string) :
  String.leb a b = true → String.leb b c = true → String.leb a c = true.
Proof.
  unfold String.leb. revert b c.
  induction a as [|x a IH]; intros [|y b] [|z c]; simpl; try done.
  unfold Ascii.compare.
  destruct (N.compare_spec (N_of_ascii x) (N_of_ascii y)) as [Exy|Exy|Exy];
    destruct (N.compare_spec (N_of_ascii y) (N_of_ascii z)) as [Eyz|Eyz|Eyz];
    destruct (N.compare_spec (N_of_ascii x) (N_of_ascii z)) as [Exz|Exz|Exz];
    try done; try lia.
  apply IH.
Qed.

Context {V : Type}.
Implicit Types (l : list (string * V)) (kv : string * V).

Global Instance key_le_trans : Transitive (@key_le V).
Proof. intros a b c. apply string_leb_trans. Qed.

Lemma key_le_total kv kv' : key_le kv kv' ∨ key_le kv' kv.
Proof. apply String.leb_total. Qed.

Lemma insert_by_key_HdRel kv kv' l :
  key_le kv' kv → HdRel key_le kv' l → HdRel key_le kv' (insert_by_key kv l).
Proof.
  intros Hle Hl. destruct l as [|y l]; simpl; [by constructor|].
  destruct (String.leb kv.1 y.1); constructor; [exact Hle|].
  by inversion Hl.
Qed.

Lemma insert_by_key_sorted kv l :
  Sorted key_le l → Sorted key_le (insert_by_key kv l).
Proof.
  induction 1 as [|y l Hl IH Hy]; simpl; [by repeat constructor|].
  destruct (String.leb kv.1 y.1) eqn:E.
  - constructor; [by constructor|]. by constructor.
  - constructor; [exact IH|]. apply insert_by_key_HdRel; [|exact Hy].
    destruct (key_le_total kv y) as [Hk|Hk]; [|exact Hk].
    unfold key_le in Hk. congruence.
Qed.

Lemma sort_by_key_sorted l : Sorted key_le (sort_by_key l).
Proof.
  induction l as [|kv l IH]; [constructor|]. by apply insert_by_key_sorted.
Qed.

(** Sorting a list that is in order changes nothing. *)
Lemma sort_by_key_id l : Sorted key_le l → sort_by_key l = l.
Proof.
  induction 1 as [|y l Hl IH Hy]; [reflexivity|].
  unfold sort_by_key in *. cbn [foldr]. rewrite IH.
  destruct Hy as [|z l Hz]; [reflexivity|]. simpl.
  unfold key_le in Hz. by rewrite Hz.
Qed.

Lemma sort_by_key_twice l : sort_by_key (sort_by_key l) = sort_by_key l.
Proof. apply sort_by_key_id, sort_by_key_sorted. Qed.

(** With distinct keys, the order of the items before sorting does not
    matter. *)
Lemma sort_by_key_order l l' :
  l ≡ₚ l' → NoDup l.*1 → sort_by_key l = sort_by_key l'.
Proof.
  intros Hp Hnd.
  apply (Sorted_unique_strong key_le);
    [|apply sort_by_key_sorted|apply sort_by_key_sorted
     |by rewrite !sort_by_key_perm].
  intros [k1 v1] [k2 v2] H1 H2 Hle1 Hle2.
  rewrite sort_by_key_perm in H1. rewrite sort_by_key_perm, <- Hp in H2.
  assert (Ek : k1 = k2) by (by apply String.leb_antisym).
  subst k2. f_equal.
  apply (dict_get_Some _ _ _ Hnd) in H1, H2. congruence.
Qed.
End KeyOrder.

Section Encoder.
Import JSONEncoder.

Local Abbreviation leaf :=
  (λ o : pyobj, let? j := _json_default o in encode_json j).

Lemma sequence_inr {A} (rs : list (res A)) :
  (∃ l, sequence rs = inr l) ↔ Forall (λ r, ∃ a, r = inr a) rs.
Proof.
  induction rs as [|r rs IH]; simpl.
  - split; [constructor | by eexists].
  - split.
    + intros [l Hl]. destruct r as [e|a]; [done|]. simpl in Hl.
      destruct (sequence rs) as [e|l']; [done|].
      constructor; [by eexists|]. apply IH. by eexists.
    + intros Hall. inversion Hall as [|? ? [a ->] Hrs]; subst.
      apply IH in Hrs as [l ->]. by eexists.
Qed.

Lemma encode_item_inr (kr : string * res text) :
  (∃ t, encode_item kr = inr t) ↔ ∃ t, kr.2 = inr t.
Proof.
  destruct kr as [k [e|t]]; simpl; split; intros [t' Ht]; try done; by eexists.
Qed.

(** The text of a table whose schema is set. *)
Lemma leaf_table_total (t : Table.t) schema :
  Table.schema t = Some schema → ∃ text, leaf (OTable t) = inr text.
Proof.
  destruct t as [obj sch [name|] [ck|]]; simpl; intros ->; eexists; reflexivity.
Qed.

Lemma iterencode_serialisable (x : value) :
  (∃ t, iterencode leaf x = inr t) ↔ serialisable x = true.
Proof.
  induction x as [|b|n|f|str|xs IH|xs IH|items IH|o] using tree_ind'.
  - split; [done | by eexists].
  - split; [done|]. intros _. destruct b; by eexists.
  - (* integer *)
    cbn [iterencode serialisable]. split.
    + intros [t Ht]. by apply int_str_inr in Ht as [Hn _].
    + intros Hn. exists (int_repr n). by apply int_str_inr.
  - destruct f; simpl; split; try done; try (by intros [t Ht]); by eexists.
  - split; [done | by eexists].
  - (* list *)
    cbn [iterencode serialisable]. rewrite forallb_forall.
    transitivity (∃ parts, sequence (iterencode leaf <$> xs) = inr parts).
    { split.
      - intros [t Ht]. destruct (sequence _) as [e|parts]; [done|]. by eexists.
      - intros [parts ->]. by eexists. }
    rewrite sequence_inr, Forall_fmap.
    rewrite Forall_forall in IH. rewrite Forall_forall. split.
    + intros Hall x Hx. apply list_elem_of_In in Hx. apply IH; [done|].
      by apply Hall.
    + intros Hall x Hx. apply IH; [done|]. by apply Hall, list_elem_of_In.
  - (* tuple *)
    cbn [iterencode serialisable]. rewrite forallb_forall.
    transitivity (∃ parts, sequence (iterencode leaf <$> xs) = inr parts).
    { split.
      - intros [t Ht]. destruct (sequence _) as [e|parts]; [done|]. by eexists.
      - intros [parts ->]. by eexists. }
    rewrite sequence_inr, Forall_fmap.
    rewrite Forall_forall in IH. rewrite Forall_forall. split.
    + intros Hall x Hx. apply list_elem_of_In in Hx. apply IH; [done|].
      by apply Hall.
    + intros Hall x Hx. apply IH; [done|]. by apply Hall, list_elem_of_In.
  - (* dict *)
    cbn [iterencode serialisable]. rewrite forallb_forall.
    set (enc := λ kv : string * value, (kv.1, iterencode leaf kv.2)).
    transitivity (∃ parts, sequence (encode_item <$> sort_by_key (enc <$> items))
                           = inr parts).
    { split.
      - intros [t Ht]. destruct (sequence _) as [e|parts]; [done|]. by eexists.
      - intros [parts ->]. by eexists. }
    rewrite sequence_inr, Forall_fmap, sort_by_key_perm, Forall_fmap.
    rewrite Forall_forall in IH. rewrite Forall_forall. split.
    + intros Hall kv Hkv. apply list_elem_of_In in Hkv. apply IH; [done|].
      specialize (Hall kv Hkv). simpl in Hall.
      by apply (encode_item_inr (enc kv)).
    + intros Hall kv Hkv. simpl. apply (encode_item_inr (enc kv)).
      apply IH; [done|]. by apply Hall, list_elem_of_In.
  - (* object *)
    destruct o as [t|ty]; cbn [iterencode serialisable].
    + destruct (Table.schema t) as [schema|] eqn:Es.
      * split; [done|]. intros _. by apply (leaf_table_total t schema).
      * split; [|done]. intros [text Ht]. revert Ht. simpl. by rewrite Es.
    + split; [|done]. by intros [text Ht].
Qed.

(** The encoder sees neither the order of the items of a dict nor the
    payload of a table, and prints a tuple as it prints a list. *)
Lemma iterencode_image (x : value) :
  iterencode leaf (image x) = iterencode leaf x.
Proof.
  induction x as [|b|n|f|str|xs IH|xs IH|items IH|o] using tree_ind'; try reflexivity.
  - cbn [image iterencode]. rewrite <- list_fmap_compose.
    rewrite (Forall_fmap_eq (iterencode leaf ∘ image) (iterencode leaf) xs);
      [reflexivity|exact IH].
  - cbn [image iterencode]. rewrite <- list_fmap_compose.
    rewrite (Forall_fmap_eq (iterencode leaf ∘ image) (iterencode leaf) xs);
      [reflexivity|exact IH].
  - cbn [image iterencode].
    rewrite (sort_by_key_fmap (iterencode leaf)), sort_by_key_twice.
    rewrite <- (sort_by_key_fmap (iterencode leaf)), <- list_fmap_compose.
    rewrite (Forall_fmap_eq _ (λ kv : string * value, (kv.1, iterencode leaf kv.2))
               items); [reflexivity|].
    eapply Forall_impl; [exact IH|]. intros kv Hkv. simpl. by rewrite Hkv.
  - destruct o as [t|ty]; reflexivity.
Qed.
End Encoder.


(** X19: the text of a dict does not depend on the order in which its
    items were inserted: two dicts with distinct keys and the same items
    have the same text. *)
Theorem json_serialise_any_order (items items' : list (string * value)) :
  items ≡ₚ items' →
  NoDup items.*1 →
  PipeDAGStore.json_serialise (PDict items) = PipeDAGStore.json_serialise (PDict items').
Proof.
  intros Hp Hnd. unfold PipeDAGStore.json_serialise, JSONEncoder.encode.
  cbn [JSONEncoder.iterencode].
  rewrite (sort_by_key_order _
             ((λ kv : string * value,
                 (kv.1, JSONEncoder.iterencode
                          (λ o, let? j := _json_default o in JSONEncoder.encode_json j)
                          kv.2)) <$> items')).
  - reflexivity.
  - by apply fmap_Permutation.
  - by rewrite fmap_keys.
Qed.

Lemma json_serialise_any_order_witness :
  let items : list (string * value) := [("b", PInt 2); ("a", PStr "x")] in
  let items' : list (string * value) := [("a", PStr "x"); ("b", PInt 2)] in
  items ≡ₚ items'
  ∧ NoDup items.*1
  ∧ PipeDAGStore.json_serialise (PDict items) = PipeDAGStore.json_serialise (PDict items').
Proof.
  intros items items'.
  assert (Hp : items ≡ₚ items') by apply perm_swap.
  assert (Hnd : NoDup items.*1).
  { apply NoDup_cons. split; [|apply NoDup_singleton].
    rewrite list_elem_of_singleton. discriminate. }
  split; [exact Hp|]. split; [exact Hnd|].
  exact (json_serialise_any_order items items' Hp Hnd).
Defined.

(** X20: two supported values have the same text if and only if they are
    the same value up to the order of the items of their dicts, the payload
    of their tables and the difference between a list and a tuple: a tuple
    has the text of the list of its items. Nothing else is lost in the
    text, and nothing else distinguishes two texts. *)
Theorem json_serialise_injective {TS : Type} (s : PipeDAGStore.t TS) (x y : value) :
  supported (PipeDAGStore.schemas s) x = true →
  supported (PipeDAGStore.schemas s) y = true →
  PipeDAGStore.json_serialise x = PipeDAGStore.json_serialise y ↔ image x = image y.
Proof.
  intros Hx Hy. split.
  - intros E.
    pose proof (supported_by_spec_of _ _ Hx) as Hspec.
    destruct (encode_json_total (json_of x) (floats_ok_json_of _ _ Hspec)
                (ints_ok_json_of _ (ints_ok_supported _ _ Hx)))
      as [t Hjson].
    assert (Ht : PipeDAGStore.json_serialise x = inr (string_of_list_ascii t)).
    { unfold PipeDAGStore.json_serialise, JSONEncoder.encode.
      by rewrite (iterencode_json_of _ _ Hspec), Hjson. }
    set (text := string_of_list_ascii t) in *.
    pose proof (json_decode_serialised s x text Hx Ht) as Dx.
    rewrite E in Ht.
    pose proof (json_decode_serialised s y text Hy Ht) as Dy.
    congruence.
  - intros E. unfold PipeDAGStore.json_serialise, JSONEncoder.encode.
    by rewrite <- (iterencode_image x), <- (iterencode_image y), E.
Qed.

Lemma json_serialise_injective_witness :
  let s := store_a true in
  let y : value :=
    PDict [ ("tables", PTuple [ PObj (OTable (Table.mk None (Some stage_a)
                                                (Some "build_0000_abc") (Some "abc"))) ]);
            ("note", PStr (dq "a 'quoted' word\n"));
            ("ratio", PFloat (Finite false 1 (Some (Decimal.D5 Decimal.Nil)) None));
            ("rows", PInt 3) ] in
  supported (PipeDAGStore.schemas s) value_a = true
  ∧ supported (PipeDAGStore.schemas s) y = true
  ∧ PipeDAGStore.json_serialise value_a = PipeDAGStore.json_serialise y.
Proof.
  intros s y.
  assert (Hx : supported (PipeDAGStore.schemas s) value_a = true)
    by (vm_compute; reflexivity).
  assert (Hy : supported (PipeDAGStore.schemas s) y = true)
    by (vm_compute; reflexivity).
  split; [exact Hx|]. split; [exact Hy|].
  apply (json_serialise_injective s value_a y Hx Hy). vm_compute. reflexivity.
Defined.

(** X21: a table of a stage that the registry does not hold is encoded,
    but its text cannot be decoded: [json_decode] raises [KeyError] with
    the name of the stage. *)
Theorem json_decode_unregistered {TS : Type} (s : PipeDAGStore.t TS)
    (obj : option nat) (schema : Schema.t) (name cache_key : string) :
  PipeDAGStore.schemas s !! Schema.name schema = None →
  ∃ text,
    PipeDAGStore.json_serialise
      (PObj (OTable (Table.mk obj (Some schema) (Some name) (Some cache_key))))
    = inr text
    ∧ PipeDAGStore.json_decode s text = inl (KeyError (Schema.name schema)).
Proof.
  intros Hreg.
  set (x := PObj (OTable (Table.mk obj (Some schema) (Some name) (Some cache_key)))
            : value).
  assert (Hspec : supported_by_spec {[Schema.name schema := schema]} x = true).
  { simpl. apply bool_decide_eq_true, lookup_singleton_eq. }
  pose proof (floats_ok_json_of _ _ Hspec) as Hok.
  destruct (encode_json_total (json_of x) Hok eq_refl) as [t Ht].
  exists (string_of_list_ascii t). split.
  - unfold PipeDAGStore.json_serialise, JSONEncoder.encode.
    rewrite (iterencode_json_of _ _ Hspec), Ht. reflexivity.
  - unfold PipeDAGStore.json_decode.
    rewrite (decode_encode_json _ (json_of x) t Ht Hok).
    subst x. simpl. unfold dict_of_pairs, _json_object_hook. simpl.
    by rewrite Hreg.
Qed.

Lemma json_decode_unregistered_witness :
  let s := PipeDAGStore.init (RecordingStore.mk [] true) "run0" in
  PipeDAGStore.schemas s !! Schema.name stage_a = None
  ∧ ∃ text,
      PipeDAGStore.json_serialise
        (PObj (OTable (Table.mk None (Some stage_a) (Some "t") (Some "c"))))
      = inr text
      ∧ PipeDAGStore.json_decode s text = inl (KeyError "sales").
Proof.
  intros s.
  assert (Hreg : PipeDAGStore.schemas s !! Schema.name stage_a = None) by reflexivity.
  split; [exact Hreg|].
  exact (json_decode_unregistered s None stage_a "t" "c" Hreg).
Defined.

(** X25: a dict that holds a true value other than "table" under the
    reserved key [_pipedag_type_] is encoded like any dict, but its text is
    never decoded: [json_decode] raises [NotImplementedError] for "blob"
    and [ValueError] for everything else. *)
Theorem json_decode_reserved_key {TS : Type} (s : PipeDAGStore.t TS)
    (items : list (string * value)) (v : value) :
  NoDup items.*1 →
  forallb (λ kv : string * value, supported (PipeDAGStore.schemas s) kv.2) items = true →
  dict_get PIPEDAG_TYPE items = Some v →
  truthy v = true →
  v ≠ PStr PIPEDAG_TYPE_TABLE →
  ∃ text,
    PipeDAGStore.json_serialise (PDict items) = inr text
    ∧ PipeDAGStore.json_decode s text = inl (reserved_key_error v).
Proof.
  intros Hnd Hall Hv Htrue Hnt.
  set (reg := PipeDAGStore.schemas s) in *.
  assert (Hspec : supported_by_spec reg (PDict items) = true).
  { simpl. apply andb_true_iff. split; [by apply bool_decide_eq_true|].
    rewrite forallb_forall in Hall. apply forallb_forall. intros kv Hkv.
    by apply supported_by_spec_of, Hall. }
  pose proof (floats_ok_json_of _ _ Hspec) as Hok.
  assert (Hint : ints_ok (json_of (PDict items)) = true).
  { apply ints_ok_json_of. simpl. rewrite forallb_forall in Hall.
    apply forallb_forall. intros kv Hkv. by eapply ints_ok_supported, Hall. }
  destruct (encode_json_total (json_of (PDict items)) Hok Hint) as [t Ht].
  exists (string_of_list_ascii t). split.
  - unfold PipeDAGStore.json_serialise, JSONEncoder.encode.
    rewrite (iterencode_json_of _ _ Hspec), Ht. reflexivity.
  - unfold PipeDAGStore.json_decode.
    rewrite (decode_encode_json _ (json_of (PDict items)) t Ht Hok).
    cbn [json_of canon loads_tree].
    rewrite (sort_by_key_fmap canon), (sort_by_key_fmap json_of).
    rewrite <- !list_fmap_compose.
    rewrite (sequence_fmap_total _ (λ kv : string * value, (kv.1, image kv.2))).
    + cbn [rbind]. rewrite <- (sort_by_key_fmap image items).
      rewrite dict_of_pairs_nodup
        by (rewrite sort_by_key_perm; by rewrite fmap_keys).
      unfold _json_object_hook.
      rewrite (dict_get_perm _ _ ((λ kv : string * value, (kv.1, image kv.2)) <$> items))
        by (apply sort_by_key_perm || (rewrite sort_by_key_perm; by rewrite fmap_keys)).
      rewrite dict_get_fmap, Hv. cbn [fmap option_fmap option_map default id].
      rewrite truthy_image, Htrue.
      destruct v as [|b|n|f|ty|xs|xs|its|[tb|o]]; try reflexivity.
      cbn [image reserved_key_error].
      rewrite decide_False by (intros ->; by apply Hnt).
      by destruct (decide (ty = PIPEDAG_TYPE_BLOB)).
    + rewrite sort_by_key_perm. rewrite forallb_forall in Hall.
      apply Forall_forall. intros kv Hkv. simpl.
      rewrite (loads_tree_json_of reg); [reflexivity|].
      by apply Hall, list_elem_of_In.
Qed.

Lemma json_decode_reserved_key_witness :
  let s := store_a true in
  let items : list (string * value) :=
    [ ("rows", PInt 3); (PIPEDAG_TYPE, PStr "blob") ] in
  NoDup items.*1
  ∧ dict_get PIPEDAG_TYPE items = Some (PStr "blob")
  ∧ ∃ text,
      PipeDAGStore.json_serialise (PDict items) = inr text
      ∧ PipeDAGStore.json_decode s text = inl NotImplementedError.
Proof.
  intros s items.
  assert (Hnd : NoDup items.*1).
  { apply NoDup_cons. split; [|apply NoDup_singleton].
    rewrite list_elem_of_singleton. discriminate. }
  assert (Hv : dict_get PIPEDAG_TYPE items = Some (PStr "blob")) by reflexivity.
  assert (Hne : (PStr "blob" : value) ≠ PStr PIPEDAG_TYPE_TABLE) by discriminate.
  split; [exact Hnd|]. split; [exact Hv|].
  exact (json_decode_reserved_key s items (PStr "blob") Hnd eq_refl Hv eq_refl Hne).
Defined.

(** X28: only the name of the stage travels in the text of a table. The
    table is decoded with the stage that the registry holds under this
    name, whether or not this is the stage it was encoded with, and without
    its payload. *)
Theorem json_decode_table_by_name {TS : Type} (s : PipeDAGStore.t TS)
    (obj : option nat) (schema held : Schema.t) (name cache_key : string) :
  PipeDAGStore.schemas s !! Schema.name schema = Some held →
  ∃ text,
    PipeDAGStore.json_serialise
      (PObj (OTable (Table.mk obj (Some schema) (Some name) (Some cache_key))))
    = inr text
    ∧ PipeDAGStore.json_decode s text
      = inr (PObj (OTable (Table.mk None (Some held) (Some name) (Some cache_key)))).
Proof.
  intros Hreg.
  set (x := PObj (OTable (Table.mk obj (Some schema) (Some name) (Some cache_key)))
            : value).
  assert (Hspec : supported_by_spec {[Schema.name schema := schema]} x = true).
  { simpl. apply bool_decide_eq_true, lookup_singleton_eq. }
  pose proof (floats_ok_json_of _ _ Hspec) as Hok.
  destruct (encode_json_total (json_of x) Hok eq_refl) as [t Ht].
  exists (string_of_list_ascii t). split.
  - unfold PipeDAGStore.json_serialise, JSONEncoder.encode.
    rewrite (iterencode_json_of _ _ Hspec), Ht. reflexivity.
  - unfold PipeDAGStore.json_decode.
    rewrite (decode_encode_json _ (json_of x) t Ht Hok).
    subst x. simpl. unfold dict_of_pairs, _json_object_hook. simpl.
    by rewrite Hreg.
Qed.

Lemma json_decode_table_by_name_witness :
  let s := store_a true in
  let other := Schema.mk "sales" "scratch" in
  PipeDAGStore.schemas s !! Schema.name other = Some stage_a
  ∧ ∃ text,
      PipeDAGStore.json_serialise
        (PObj (OTable (Table.mk (Some 5%nat) (Some other) (Some "t") (Some "c"))))
      = inr text
      ∧ PipeDAGStore.json_decode s text
        = inr (PObj (OTable (Table.mk None (Some stage_a) (Some "t") (Some "c")))).
Proof.
  intros s other.
  assert (Hreg : PipeDAGStore.schemas s !! Schema.name other = Some stage_a)
    by reflexivity.
  split; [exact Hreg|].
  exact (json_decode_table_by_name s (Some 5%nat) other stage_a "t" "c" Hreg).
Defined.

(** * Further properties of the cache keys and of the table names *)

(** X22: the cache key is computed from the fields joined with a bar, so
    the fields are not told apart: a bar in the name or in the version
    can be moved from one to the other without changing the key, and the
    version string "None" gives the key of a task without version. *)
Theorem cache_key_collisions
    (a b c input_json cache_key : string) (schema : Schema.t) (lazy : bool) :
  c ≠ "" →
  let task name version := MaterialisingTask.mk name version schema cache_key lazy in
  PipeDAGStore.compute_task_cache_key (task (a +:+ "|" +:+ b) (Some c)) input_json
  = PipeDAGStore.compute_task_cache_key (task a (Some (b +:+ "|" +:+ c))) input_json
  ∧ PipeDAGStore.compute_task_cache_key (task a (Some "None")) input_json
    = PipeDAGStore.compute_task_cache_key (task a None) input_json.
Proof.
  intros Hc. cbv zeta. split; [|reflexivity].
  unfold PipeDAGStore.compute_task_cache_key.
  cbn [MaterialisingTask.original_name MaterialisingTask.version].
  do 3 f_equal. unfold str_or.
  rewrite (decide_False (P := c = "")) by done.
  assert (Hne : b +:+ "|" +:+ c ≠ "").
  { destruct b; discriminate. }
  rewrite (decide_False (P := b +:+ "|" +:+ c = "")) by done.
  cbn [String.concat]. rewrite !string_app_assoc. reflexivity.
Qed.

Lemma cache_key_collisions_witness :
  let task name version := MaterialisingTask.mk name version stage_a "" false in
  "v1" ≠ ""
  ∧ PipeDAGStore.compute_task_cache_key (task "load|raw" (Some "v1")) "{}"
    = PipeDAGStore.compute_task_cache_key (task "load" (Some "raw|v1")) "{}".
Proof.
  intros task.
  assert (Hc : "v1" ≠ "") by discriminate.
  split; [exact Hc|].
  exact (proj1 (cache_key_collisions "load" "raw" "v1" "{}" "" stage_a false Hc)).
Defined.

Section Names.
(** A list is split in one way only at the last occurrence of [x]. *)
Lemma split_at_last {A} (x : A) (l1 l2 d1 d2 : list A) :
  x ∉ d1 → x ∉ d2 → l1 ++ x :: d1 = l2 ++ x :: d2 → l1 = l2 ∧ d1 = d2.
Proof.
  intros H1 H2 E.
  assert (Er : rev d1 ++ x :: rev l1 = rev d2 ++ x :: rev l2).
  { apply (f_equal (@rev A)) in E.
    rewrite !rev_app_distr in E. simpl in E.
    by rewrite <- !app_assoc in E. }
  assert (Hgen : ∀ p1 p2 r1 r2 : list A,
    x ∉ p1 → x ∉ p2 → p1 ++ x :: r1 = p2 ++ x :: r2 → p1 = p2 ∧ r1 = r2).
  { clear. induction p1 as [|a p1 IH]; intros [|b p2] r1 r2 Hp1 Hp2 Ep; simpl in Ep.
    - by injection Ep as ->.
    - injection Ep as -> _. exfalso. apply Hp2. left.
    - injection Ep as <- _. exfalso. apply Hp1. left.
    - injection Ep as -> Ep.
      destruct (IH p2 r1 r2) as [-> ->]; [| |exact Ep|done].
      + intros Hin. apply Hp1. by right.
      + intros Hin. apply Hp2. by right. }
  assert (Hr : ∀ d : list A, x ∉ d → x ∉ rev d).
  { intros d Hd Hin. apply Hd, list_elem_of_In, in_rev.
    by apply list_elem_of_In. }
  destruct (Hgen _ _ _ _ (Hr _ H1) (Hr _ H2) Er) as [Ed El].
  split.
  - by rewrite <- (rev_involutive l1), <- (rev_involutive l2), El.
  - by rewrite <- (rev_involutive d1), <- (rev_involutive d2), Ed.
Qed.

Lemma format_04d_no_underscore k :
  "_"%char ∉ list_ascii_of_string (format_04d k).
Proof.
  unfold format_04d. rewrite list_ascii_of_string_of_list_ascii.
  rewrite elem_of_app. intros [Hin|Hin].
  - apply list_elem_of_In, repeat_spec in Hin. discriminate Hin.
  - pose proof (digits_of_uint_digits (N.to_uint k)) as Hd.
    rewrite Forall_forall in Hd. specialize (Hd _ Hin). discriminate Hd.
Qed.
End Names.

(** X23: the names that [materialise_task] gives to tables tell the tasks
    apart when the cache keys have the same length, as the keys of
    [compute_task_cache_key] have: two tables with the same name come from
    tasks with the same name and the same cache key, and have the same
    counter. *)
Theorem table_name_injective (t1 t2 : MaterialisingTask.t) (j k : N) :
  String.length (MaterialisingTask.cache_key t1)
  = String.length (MaterialisingTask.cache_key t2) →
  PipeDAGStore.table_name t1 j = PipeDAGStore.table_name t2 k →
  MaterialisingTask.original_name t1 = MaterialisingTask.original_name t2
  ∧ j = k
  ∧ MaterialisingTask.cache_key t1 = MaterialisingTask.cache_key t2.
Proof.
  intros Hlen E. unfold PipeDAGStore.table_name in E.
  apply (f_equal list_ascii_of_string) in E.
  rewrite !list_ascii_of_string_app in E.
  assert (Hl : ∀ s, length (list_ascii_of_string s) = String.length s).
  { induction s as [|c s IH]; simpl; [done|]. by rewrite IH. }
  set (n1 := list_ascii_of_string (MaterialisingTask.original_name t1)) in *.
  set (n2 := list_ascii_of_string (MaterialisingTask.original_name t2)) in *.
  set (d1 := list_ascii_of_string (format_04d j)) in *.
  set (d2 := list_ascii_of_string (format_04d k)) in *.
  set (c1 := list_ascii_of_string (MaterialisingTask.cache_key t1)) in *.
  set (c2 := list_ascii_of_string (MaterialisingTask.cache_key t2)) in *.
  change (list_ascii_of_string "_") with ["_"%char] in E.
  assert (E' : (n1 ++ "_"%char :: d1) ++ "_"%char :: c1
               = (n2 ++ "_"%char :: d2) ++ "_"%char :: c2).
  { rewrite <- !app_assoc. exact E. }
  apply app_inj_2 in E' as [E1 E2];
    [|simpl; f_equal; subst c1 c2; by rewrite !Hl].
  injection E2 as Ec.
  apply split_at_last in E1 as [En Ed]; try apply format_04d_no_underscore.
  split; [by apply list_ascii_of_string_inj|].
  split; [apply format_04d_inj; by apply list_ascii_of_string_inj|].
  by apply list_ascii_of_string_inj.
Qed.

Lemma table_name_injective_witness :
  let t1 := MaterialisingTask.mk "build" (Some "v1") stage_a "abc" false in
  let t2 := MaterialisingTask.mk "build" None stage_b "abc" true in
  String.length (MaterialisingTask.cache_key t1)
  = String.length (MaterialisingTask.cache_key t2)
  ∧ PipeDAGStore.table_name t1 7 = PipeDAGStore.table_name t2 7
  ∧ MaterialisingTask.original_name t1 = MaterialisingTask.original_name t2.
Proof.
  intros t1 t2.
  assert (Hlen : String.length (MaterialisingTask.cache_key t1)
                 = String.length (MaterialisingTask.cache_key t2)) by reflexivity.
  assert (E : PipeDAGStore.table_name t1 7 = PipeDAGStore.table_name t2 7)
    by reflexivity.
  split; [exact Hlen|]. split; [exact E|].
  exact (proj1 (table_name_injective t1 t2 7 7 Hlen E)).
Defined.

(** * What [materialise_task] leaves behind when it fails *)

Section Accepted.
Context {TS : Type} `{BaseTableStore TS}.
Import PipeDAGStore.

Implicit Types (s : PipeDAGStore.t TS) (task : MaterialisingTask.t).

(** The mutator over the leaves when the table store accepts every
    table. *)
Lemma materialise_leaves_accepted task ns :
  ∀ k s us ts',
    mapM (λ t, ts_store_table t (MaterialisingTask.lazy task))
         (named_from task (heap s) k (omap (is_table_ref (heap s)) ns))
         (table_store s) = (inr us, ts') →
    mapM (materialise_mutator task) ns (k, s)
    = (inr ns,
       ((k + N.of_nat (length (omap (is_table_ref (heap s)) ns)))%N,
        with_table_store ts'
          (set_heap (λ _, assign task k (omap (is_table_ref (heap s)) ns) (heap s))
                    s))).
Proof.
  induction ns as [|n ns IH]; intros k s us ts'.
  - simpl. intros [= <- <-]. unfold ret. rewrite N.add_0_r. by destruct s.
  - cbn [mapM]. rewrite bind_run, materialise_mutator_step, omap_cons_eq.
    destruct (is_table_ref (heap s) n) as [a|] eqn:En.
    + unfold named_from. cbn [imap mapM]. rewrite bind_run.
      change (N.of_nat 0) with 0%N. rewrite N.add_0_r. cbv zeta.
      destruct (ts_store_table (named task (heap s) k a) _ (table_store s))
        as [[e|u] ts1] eqn:Ets; [done|].
      rewrite bind_run. cbn [fst snd].
      set (s1 := with_table_store ts1
                   (set_heap (insert a (OTable (named task (heap s) k a))) s)).
      destruct (is_table_ref_Some _ _ _ En) as [-> Ha].
      assert (Hrefs : omap (is_table_ref (heap s1)) ns
                      = omap (is_table_ref (heap s)) ns).
      { apply table_refs_insert, Ha. }
      assert (Hn : imap ((λ i b, named task (heap s) (k + N.of_nat i) b) ∘ Datatypes.S)
                     (omap (is_table_ref (heap s)) ns)
                   = named_from task (heap s1) (N.succ k)
                       (omap (is_table_ref (heap s1)) ns)).
      { rewrite Hrefs. unfold named_from. apply imap_ext. intros i b _. simpl.
        rewrite named_insert. f_equal. lia. }
      rewrite Hn.
      change ts1 with (table_store s1) at 1.
      destruct (mapM _ (named_from task (heap s1) (N.succ k) _) (table_store s1))
        as [[e|us1] ts2] eqn:Em; [done|].
      intros [= <- <-]. rewrite bind_run.
      rewrite (IH _ _ _ _ Em). cbv beta iota. unfold ret. rewrite Hrefs.
      do 2 f_equal. cbn [length]. rewrite Nat2N.inj_succ. lia.
    + intros Hm. cbv beta iota. rewrite bind_run.
      rewrite (IH _ _ _ _ Hm). reflexivity.
Qed.
End Accepted.

(** X24: [materialise_task] is not atomic. When the table store accepts
    the tables of the value, but the value cannot be encoded (it holds a
    NaN, an infinity, or an object that is not a table), the call raises
    after the tables were named and handed to the table store: the heap and
    the table store are those of a complete walk, no metadata is stored,
    and nothing is undone. *)
Theorem materialise_task_not_atomic {TS : Type} `{BaseTableStore TS}
    (task : MaterialisingTask.t) (value : tree PipeDAGStore.addr) (now : nat)
    (s : PipeDAGStore.t TS) (us : list unit) (ts' : TS) :
  is_Some (PipeDAGStore.schemas s !! Schema.name (MaterialisingTask.schema task)) →
  let refs := table_refs (PipeDAGStore.heap s) value in
  mapM (λ t, ts_store_table t (MaterialisingTask.lazy task))
       (named_from task (PipeDAGStore.heap s) 0 refs) (PipeDAGStore.table_store s)
  = (inr us, ts') →
  let s1 := PipeDAGStore.with_table_store ts'
              (PipeDAGStore.set_heap
                 (λ _, assign task 0 refs (PipeDAGStore.heap s)) s) in
  serialisable (PipeDAGStore.snapshot (PipeDAGStore.heap s1) value) = false →
  ∃ e, PipeDAGStore.materialise_task task value now s = (inl e, s1).
Proof.
  intros Hreg refs Hstore s1 Hser.
  pose proof (materialise_leaves_accepted task (leaves value) 0%N s us ts' Hstore)
    as Hleaves.
  unfold PipeDAGStore.materialise_task. rewrite bind_run. unfold get.
  rewrite decide_True by done. rewrite bind_run.
  destruct (deepmutate_leaves (PipeDAGStore.materialise_mutator task)
              (materialise_mutator_returns_arg task) value (0%N, s)) as [E1 E2].
  revert E1 E2. rewrite Hleaves.
  destruct (deepmutate (PipeDAGStore.materialise_mutator task) value (0%N, s))
    as [[e|mv] [k1 s0]]; simpl; intros E1 E2; [done|].
  destruct E2 as [-> _].
  assert (Hs0 : s0 = s1) by (by injection E1).
  clearbody s1. subst s0. clear E1 Hleaves.
  rewrite bind_run. cbv beta iota. rewrite bind_run. unfold lift.
  destruct (PipeDAGStore.json_serialise
              (PipeDAGStore.snapshot (PipeDAGStore.heap s1) value)) as [e|text] eqn:Ej.
  - by exists e.
  - exfalso. revert Ej. unfold PipeDAGStore.json_serialise, JSONEncoder.encode.
    destruct (JSONEncoder.iterencode _ _) as [e|t] eqn:Et; [done|]. intros _.
    assert (Hok : serialisable
                    (PipeDAGStore.snapshot (PipeDAGStore.heap s1) value) = true)
      by (apply iterencode_serialisable; by exists t).
    congruence.
Qed.

Lemma materialise_task_not_atomic_witness :
  let s := with_output (store_a true) in
  let value : tree PipeDAGStore.addr := PList [PObj 1%nat; PFloat NaN] in
  let stored :=
    mapM (λ t, ts_store_table t (MaterialisingTask.lazy task_a))
         (named_from task_a (PipeDAGStore.heap s) 0
            (table_refs (PipeDAGStore.heap s) value))
         (PipeDAGStore.table_store s) in
  fst stored = inr [tt]
  ∧ ∃ e s1, PipeDAGStore.materialise_task task_a value 0 s = (inl e, s1)
            ∧ RecordingStore.calls (PipeDAGStore.table_store s1)
              = RecordingStore.calls (PipeDAGStore.table_store s)
                ++ [RecordingStore.StoreTable
                      (Table.mk (Some 5%nat) (Some stage_a) (Some "build_0000_abc")
                                (Some "abc")) false].
Proof.
  intros s value stored.
  assert (Hreg : is_Some (PipeDAGStore.schemas s
                          !! Schema.name (MaterialisingTask.schema task_a)))
    by (eexists; reflexivity).
  assert (Hstore : stored = (inr [tt], snd stored)) by (vm_compute; reflexivity).
  split; [by rewrite Hstore|].
  destruct (materialise_task_not_atomic task_a value 0 s [tt] (snd stored)
              Hreg Hstore eq_refl) as [e He].
  exists e. eexists. split; [exact He|]. vm_compute. reflexivity.
Defined.

Section Keeps.
Context {S X : Type} (p : S → X).

Lemma mapM_keeps {A B} (f : A → M S B) (l : list A) :
  Forall (λ a, ∀ s, p (snd (f a s)) = p s) l →
  ∀ s, p (snd (mapM f l s)) = p s.
Proof.
  induction 1 as [|a l Ha Hl IH]; intros s; [reflexivity|].
  cbn [mapM]. rewrite bind_run. specialize (Ha s).
  destruct (f a s) as [[e|b] s1]; [exact Ha|]. simpl in Ha.
  rewrite bind_run. specialize (IH s1).
  destruct (mapM f l s1) as [[e|bs] s2]; simpl in *; congruence.
Qed.

Lemma deepmutate_keeps {L} (mutator : tree L → M S (tree L)) :
  (∀ x s, p (snd (mutator x s)) = p s) →
  ∀ x s, p (snd (deepmutate mutator x s)) = p s.
Proof.
  intros Hm.
  induction x as [|b|n|f|str|xs IH|xs IH|items IH|o] using tree_ind'; intros s;
    try apply Hm.
  - simpl. rewrite bind_run.
    pose proof (mapM_keeps (deepmutate mutator) xs IH s) as Hk.
    by destruct (mapM (deepmutate mutator) xs s) as [[e|ys] s1].
  - simpl. rewrite bind_run.
    pose proof (mapM_keeps (deepmutate mutator) xs IH s) as Hk.
    by destruct (mapM (deepmutate mutator) xs s) as [[e|ys] s1].
  - simpl. rewrite bind_run.
    set (g := λ kv : string * tree L, do v <- deepmutate mutator kv.2; ret (kv.1, v)).
    assert (Hg : Forall (λ kv, ∀ s, p (snd (g kv s)) = p s) items).
    { eapply Forall_impl; [exact IH|]. intros kv Hkv s'. unfold g.
      rewrite bind_run. specialize (Hkv s').
      by destruct (deepmutate mutator kv.2 s') as [[e|v] s1]. }
    pose proof (mapM_keeps g items Hg s) as Hk.
    by destruct (mapM g items s) as [[e|ys] s1].
Qed.
End Keeps.

(** X26: [materialise_task] and [retrieve_cached_output] leave the
    registry, the swapped set, the run id and the swap marks as they are,
    whether they return or raise, whatever the table store does. *)
Theorem task_methods_keep_bookkeeping {TS : Type} `{BaseTableStore TS}
    (task : MaterialisingTask.t) (value : tree PipeDAGStore.addr) (now : nat)
    (s : PipeDAGStore.t TS) :
  bookkeeping (snd (PipeDAGStore.materialise_task task value now s)) = bookkeeping s
  ∧ bookkeeping (snd (PipeDAGStore.retrieve_cached_output task s)) = bookkeeping s.
Proof.
  split.
  - unfold PipeDAGStore.materialise_task. rewrite bind_run. unfold get.
    destruct (decide (is_Some _)); [|reflexivity].
    rewrite bind_run.
    pose proof (deepmutate_keeps
                  (λ ks : N * PipeDAGStore.t TS, bookkeeping ks.2)
                  (PipeDAGStore.materialise_mutator task)) as Hk.
    specialize (Hk (λ x ks, ltac:(
      destruct ks as [k0 s0]; rewrite materialise_mutator_step;
      destruct (is_table_ref (PipeDAGStore.heap s0) x); reflexivity))
      value (0%N, s)).
    destruct (deepmutate (PipeDAGStore.materialise_mutator task) value (0%N, s))
      as [[e|mv] [k1 s1]]; simpl in Hk; [exact Hk|].
    cbv beta iota. rewrite bind_run. cbv beta iota. rewrite bind_run. unfold lift.
    destruct (PipeDAGStore.json_serialise _) as [e|text]; [exact Hk|].
    cbv beta iota. rewrite bind_run. unfold PipeDAGStore.on_table_store, zoom.
    match goal with
    | |- context [ts_store_task_metadata ?md ?ts] =>
        destruct (ts_store_task_metadata md ts) as [[e|[]] ts2]
    end; exact Hk.
  - unfold PipeDAGStore.retrieve_cached_output. rewrite bind_run. unfold get.
    destruct (decide (_ ∈ _)); [reflexivity|].
    rewrite bind_run. unfold PipeDAGStore.on_table_store, zoom.
    destruct (ts_retrieve_task_metadata _ _ (PipeDAGStore.table_store s))
      as [[e|metadata] ts1]; [reflexivity|].
    cbv beta iota. rewrite bind_run. cbv beta iota. unfold lift.
    by destruct (PipeDAGStore.json_decode _ _).
Qed.
